(** * Traductor_Tiempo_Real: sentence accumulator and audio mixer

    A shallow embedding of the transcript accumulator of [src/main.py]
    ([TranslationAppPro]) and of the sample arithmetic of
    [src/audio_mixer.py] ([AudioMixer]), with the properties of the
    natural-language specification stated and settled against them.

    Modelling conventions.
    - A Python [str] is a list of characters; a character is a code point
      below 256 (type [ascii], read as Latin-1).  [isspace] and [lower] are
      Python's on that range.
    - [time.time()] is a float, carried as the rational it denotes; the
      timeout test subtracts two clock readings as floats do ([round64]).
      The quotient of [_calculate_similarity] is an exact rational, so
      [> 0.8] is an exact comparison.
    - [float32] sample arithmetic is exact arithmetic followed by a
      rounding function, left open in the model.
    - Logging calls have no effect on the modelled state and are left out.
    - [process_translation(text)] hands [text] to the translation stage; the
      model records each such call in the list of emitted sentences.  The
      collaborators (UI, audio devices, translation thread) are taken to
      return normally. *)

From Stdlib Require Import String Ascii Bool Arith List ZArith QArith Lia Lqa.
Import ListNotations.

Local Open Scope nat_scope.

(** ** Python string primitives *)

Definition str := list ascii.

Definition py (x : string) : str := list_ascii_of_string x.
Arguments py x%_string.

Fixpoint str_eqb (a b : str) : bool :=
  match a, b with
  | [], [] => true
  | x :: a', y :: b' => Ascii.eqb x y && str_eqb a' b'
  | _, _ => false
  end.

Fixpoint words_eqb (a b : list str) : bool :=
  match a, b with
  | [], [] => true
  | x :: a', y :: b' => str_eqb x y && words_eqb a' b'
  | _, _ => false
  end.

Definition isnil {A} (l : list A) : bool :=
  match l with [] => true | _ => false end.

(** [str.isspace] on code points below 256: TAB..CR, FS..US, space, NEL and
    the no-break space. *)
Definition isspace (c : ascii) : bool :=
  let n := nat_of_ascii c in
  ((9 <=? n) && (n <=? 13)) || ((28 <=? n) && (n <=? 32))
  || (n =? 133) || (n =? 160).

(** [str.lower] on one code point below 256: A-Z and the Latin-1 capitals
    (U+00C0..U+00DE but the multiplication sign U+00D7) move up by 32. *)
Definition lower_char (c : ascii) : ascii :=
  let n := nat_of_ascii c in
  if ((65 <=? n) && (n <=? 90))
     || ((192 <=? n) && (n <=? 222) && negb (n =? 215))
  then ascii_of_nat (n + 32) else c.

Definition lower (t : str) : str := map lower_char t.

Fixpoint lstrip_by (p : ascii -> bool) (t : str) : str :=
  match t with
  | [] => []
  | c :: t' => if p c then lstrip_by p t' else t
  end.

Definition rstrip_by (p : ascii -> bool) (t : str) : str :=
  rev (lstrip_by p (rev t)).

Definition lstrip (t : str) : str := lstrip_by isspace t.
Definition rstrip (t : str) : str := rstrip_by isspace t.

(** [t.strip()] *)
Definition strip (t : str) : str := lstrip (rstrip t).

Definition in_chars (cs : str) (c : ascii) : bool :=
  existsb (Ascii.eqb c) cs.

(** [t.rstrip(chars)] *)
Definition rstrip_chars (cs : str) (t : str) : str :=
  rstrip_by (in_chars cs) t.

(** [t.split()]: the maximal runs of non-whitespace characters, in order. *)
Fixpoint split (t : str) : list str :=
  match t with
  | [] => []
  | c :: t' =>
      if isspace c then split t'
      else match t' with
           | [] => [[c]]
           | d :: _ =>
               if isspace d then [c] :: split t'
               else match split t' with
                    | w :: ws => (c :: w) :: ws
                    | [] => [[c]]
                    end
           end
  end.

(** [sep.join(ws)] *)
Fixpoint join (sep : str) (ws : list str) : str :=
  match ws with
  | [] => []
  | [w] => w
  | w :: ws' => w ++ sep ++ join sep ws'
  end.

Definition space : str := py " ".

(** [t.endswith(suf)] *)
Definition endswith (t suf : str) : bool :=
  (length suf <=? length t)
  && str_eqb (skipn (length t - length suf) t) suf.

(** [t[:-n]] for [n > 0] *)
Definition drop_last (n : nat) (t : str) : str :=
  firstn (length t - n) t.

(** [t[-1]] of a non-empty string *)
Definition last_char (t : str) : option ascii :=
  match rev t with
  | [] => None
  | c :: _ => Some c
  end.

(** ** Trailing-ellipsis stripping

    The loop
    [while text.endswith('...') or text.endswith('....'): text = text[:-3].strip()]
    occurs three times in [main.py] (lines 555, 659 and 694).  Each round
    shortens the text, so [length text] rounds are enough. *)

Definition ends_ellipsis (t : str) : bool :=
  endswith t (py "...") || endswith t (py "....").

Definition ellipsis_step (t : str) : str := strip (drop_last 3 t).

Fixpoint strip_ellipsis_loop (fuel : nat) (t : str) : str :=
  match fuel with
  | O => t
  | S fuel' =>
      if ends_ellipsis t then strip_ellipsis_loop fuel' (ellipsis_step t)
      else t
  end.

Definition strip_ellipsis (t : str) : str :=
  strip_ellipsis_loop (length t) t.

(** [_is_sentence_complete] (main.py 548-562) *)
Definition _is_sentence_complete (text : str) : bool :=
  let text := strip text in
  if isnil text then false
  else
    let text := strip_ellipsis text in
    match last_char text with
    | None => false
    | Some c => in_chars (py ".!?;") c
    end.

(** ** Word-loop cleaner, [_clean_word_loops] (main.py 564-603) *)

(** [w.lower().rstrip(',.!?;:')] *)
Definition loop_key (w : str) : str :=
  rstrip_chars (py ",.!?;:") (lower w).

(** The inner [while]: how many of the words after [words[i]] continue its
    run.  [rest] is [words[i+1:]]; the source's [count] is one more. *)
Fixpoint count_run (key : str) (rest : list str) : nat :=
  match rest with
  | [] => 0
  | r :: rest' =>
      if str_eqb (loop_key r) key then S (count_run key rest') else 0
  end.

(** The outer [while i < len(words)]; [ws] is [words[i:]] and the result is
    what the loop appends to [cleaned] from there on.  Every round consumes
    at least one word, so [length words] rounds are enough. *)
Fixpoint clean_loop (fuel : nat) (ws : list str) : list str :=
  match fuel with
  | O => []
  | S fuel' =>
      match ws with
      | [] => []
      | word :: rest =>
          let count := S (count_run (loop_key word) rest) in
          if 3 <=? count then
            word :: (match rest with
                     | next :: _ => [next]
                     | [] => []
                     end) ++ clean_loop fuel' (skipn (count - 1) rest)
          else if count =? 2 then
            word :: clean_loop fuel' (skipn (count - 1) rest)
          else
            word :: clean_loop fuel' rest
      end
  end.

Definition clean_words (ws : list str) : list str :=
  clean_loop (length ws) ws.

Definition _clean_word_loops (text : str) : str :=
  let words := split text in
  if length words <? 3 then text
  else join space (clean_words words).

(** ** Word-set similarity, [_calculate_similarity] (main.py 513-534)

    The quotient [intersection / union] is kept as an exact rational. *)

Definition str_dec : forall a b : str, {a = b} + {a <> b} :=
  list_eq_dec ascii_dec.

(** [set(ws)] as a duplicate-free list *)
Definition word_set (ws : list str) : list str := nodup str_dec ws.

Definition mem (w : str) (ws : list str) : bool := existsb (str_eqb w) ws.

Definition set_inter (a b : list str) : list str :=
  filter (fun w => mem w b) a.

Definition set_union (a b : list str) : list str :=
  nodup str_dec (a ++ b).

Definition _calculate_similarity (s1 s2 : str) : Q :=
  let s1_clean := strip (lower s1) in
  let s2_clean := strip (lower s2) in
  if isnil s1_clean || isnil s2_clean then 0%Q
  else if str_eqb s1_clean s2_clean then 1%Q
  else
    let words1 := word_set (split s1_clean) in
    let words2 := word_set (split s2_clean) in
    if isnil words1 || isnil words2 then 0%Q
    else
      let intersection := length (set_inter words1 words2) in
      let union := length (set_union words1 words2) in
      if 0 <? union
      then (Z.of_nat intersection # Pos.of_nat union)%Q
      else 0%Q.

(** [x > y] on rationals *)
Definition Qgtb (x y : Q) : bool := negb (Qle_bool x y).

(** ** Fragment merger, [_merge_fragments] (main.py 605-648) *)

(** [buffer_words[-i:] == fragment_words[:i]] for [1 <= i <= len(buffer_words)] *)
Definition overlap_at (buffer_words fragment_words : list str) (i : nat) : bool :=
  words_eqb (skipn (length buffer_words - i) buffer_words)
            (firstn i fragment_words).

(** First scan: [for i in range(1, max_overlap + 1)], no [break]. *)
Definition scan_all (bw fw : list str) (max_overlap : nat) : nat :=
  fold_left (fun overlap_length i => if overlap_at bw fw i then i else overlap_length)
            (seq 1 max_overlap) 0.

(** Second scan: [for i in range(1, max_overlap)], leaving at the first hit. *)
Fixpoint scan_first (bw fw : list str) (idxs : list nat) (overlap_length : nat) : nat :=
  match idxs with
  | [] => overlap_length
  | i :: idxs' =>
      if overlap_at bw fw i then Nat.max overlap_length i
      else scan_first bw fw idxs' overlap_length
  end.

Definition find_overlap (bw fw : list str) : nat :=
  let max_overlap := Nat.min (length bw) (length fw) in
  let overlap_length := scan_all bw fw max_overlap in
  scan_first bw fw (seq 1 (max_overlap - 1)) overlap_length.

Definition last_word_is_first (bw fw : list str) : bool :=
  match rev bw, fw with
  | b :: _, f :: _ => str_eqb b f
  | _, _ => false
  end.

Definition _merge_fragments (buffer new_fragment : str) : str :=
  if isnil buffer then _clean_word_loops new_fragment
  else
    let new_fragment := _clean_word_loops new_fragment in
    if Qgtb (_calculate_similarity buffer new_fragment) (8 # 10) then
      if length new_fragment <? length buffer then buffer else new_fragment
    else
      let buffer_words := split buffer in
      let fragment_words := split new_fragment in
      let overlap_length := find_overlap buffer_words fragment_words in
      let merged :=
        if 0 <? overlap_length then
          buffer ++ space ++ join space (skipn overlap_length fragment_words)
        else if last_word_is_first buffer_words fragment_words then
          buffer ++ space ++ join space (skipn 1 fragment_words)
        else
          buffer ++ space ++ new_fragment in
      strip (_clean_word_loops merged).


(** ** Python floats

    A Python [float] is a binary64 value, carried as the rational it
    denotes.  An arithmetic operation on floats is the exact operation
    followed by [round64], the rounding to the nearest binary64 value, ties
    to the even significand, subnormal range included.  Results beyond the
    largest finite value are outside the model. *)

(** [num / den] rounded to the nearest integer, ties to even
    ([0 <= num], [0 < den]). *)
Definition round_half_even (num den : Z) : Z :=
  let q := (num / den)%Z in
  let r := (num mod den)%Z in
  match (2 * r ?= den)%Z with
  | Lt => q
  | Gt => (q + 1)%Z
  | Eq => if Z.even q then q else (q + 1)%Z
  end.

(** The exponent of the last place of [a / d]: 52 below the binary
    logarithm of the value, and never below that of the subnormals. *)
Definition float_exponent (a d : Z) : Z :=
  let k := (Z.log2 a - Z.log2 d)%Z in
  let reaches :=
    if (0 <=? k)%Z then (d * 2 ^ k <=? a)%Z else (d <=? a * 2 ^ (- k))%Z in
  let floor_log2 := if reaches then k else (k - 1)%Z in
  Z.max (floor_log2 - 52) (-1074).

Definition round64 (x : Q) : Q :=
  let n := Qnum x in
  let d := Z.pos (Qden x) in
  if (n =? 0)%Z then 0%Q
  else
    let a := Z.abs n in
    let e := float_exponent a d in
    let r :=
      if (0 <=? e)%Z
      then inject_Z (round_half_even a (d * 2 ^ e) * 2 ^ e)
      else Qmake (round_half_even (a * 2 ^ (- e)) d) (Z.to_pos (2 ^ (- e))) in
    if (n <? 0)%Z then (- r)%Q else r.

(** ** The sentence accumulator (main.py 191-201, 450-494, 650-725)

    Clock readings are the floats that [time.time()] returns. *)

Record AppState := mkState {
  is_translating : bool;
  sentence_buffer : str;
  buffer_start_time : option Q;
  last_fragment_time : option Q;
  recent_transcriptions : list str
}.

Definition max_recent_transcriptions : nat := 10.
Definition sentence_timeout : Q := 25 # 10.
Definition min_sentence_length : nat := 50.

(** The fields as [__init__] leaves them. *)
Definition init_state : AppState :=
  mkState false [] None None [].

(** The three assignments that clear the buffer (main.py 700-702, 723-725
    and 476-478). *)
Definition clear_buffer (st : AppState) : AppState :=
  mkState (is_translating st) [] None None (recent_transcriptions st).

(** [recent_transcriptions.append(x)] followed by the bounded [pop(0)] *)
Definition remember (recent : list str) (x : str) : list str :=
  let recent := recent ++ [x] in
  if max_recent_transcriptions <? length recent then tl recent else recent.

(** The incoming fragment after [strip()] and the ellipsis loop
    (main.py 658-660). *)
Definition clean_fragment (text : str) : str :=
  strip_ellipsis (strip text).

(** [self.buffer_start_time and (current_time - self.buffer_start_time) >
    self.sentence_timeout]: [None] and [0.0] are both falsy, and the
    difference is a float subtraction. *)
Definition timeout_reached (start : option Q) (current_time : Q) : bool :=
  match start with
  | None => false
  | Some t0 =>
      if Qeq_bool t0 0 then false
      else Qgtb (round64 (current_time - t0)) sentence_timeout
  end.

(** [on_transcription(text)] at clock reading [current_time]: the next state
    and the sentences handed to [process_translation]. *)
Definition on_transcription (st : AppState) (text : str) (current_time : Q)
  : AppState * list str :=
  if isnil (strip text) then (st, [])
  else
    let text_clean := clean_fragment text in
    if isnil text_clean then (st, [])
    else if str_eqb (lower text_clean) (strip (lower (sentence_buffer st)))
    then (st, [])
    else
      let start :=
        if isnil (sentence_buffer st) then Some current_time
        else buffer_start_time st in
      let buffer := _merge_fragments (sentence_buffer st) text_clean in
      let st1 := mkState (is_translating st) buffer start (Some current_time)
                         (recent_transcriptions st) in
      let is_complete := _is_sentence_complete buffer in
      let is_long_enough := min_sentence_length <=? length buffer in
      if is_complete || (timeout_reached start current_time && is_long_enough)
      then
        let complete_sentence := strip_ellipsis (strip buffer) in
        if length complete_sentence <? 20 then (clear_buffer st1, [])
        else
          let st2 := mkState (is_translating st1) (sentence_buffer st1)
                       (buffer_start_time st1) (last_fragment_time st1)
                       (remember (recent_transcriptions st1)
                                 (lower complete_sentence)) in
          (clear_buffer st2, [complete_sentence])
      else (st1, []).

(** The pending-buffer block of [stop_translation_process] (main.py
    468-478). *)
Definition flush_pending (st : AppState) : AppState * list str :=
  let out :=
    if negb (isnil (strip (sentence_buffer st)))
       && (min_sentence_length <=? length (sentence_buffer st))
    then [sentence_buffer st] else [] in
  (clear_buffer st, out).

(** [stop_translation_process] (main.py 450-494), restricted to the fields
    of [AppState]. *)
Definition stop_translation_process (st : AppState) : AppState * list str :=
  if negb (is_translating st) then (st, [])
  else
    flush_pending (mkState false (sentence_buffer st) (buffer_start_time st)
                           (last_fragment_time st) (recent_transcriptions st)).

(** [start_translation_process] (main.py 412-448), restricted to the fields
    of [AppState]. *)
Definition start_translation_process (st : AppState) : AppState :=
  if is_translating st then st
  else mkState true (sentence_buffer st) (buffer_start_time st)
                    (last_fragment_time st) (recent_transcriptions st).

(** ** The audio mixer (audio_mixer.py 23-171)

    Samples are [int16] values, carried as integers.  A [float32] value is
    the rational it denotes; every [float32] operation is the exact
    operation followed by a rounding to the nearest representable value.
    The model is written over arbitrary rounding functions; the properties
    below name what they need of them.  A [ValueError] raised by NumPy is
    the outcome [Raised].

    The model covers finite values: volumes are finite numbers and no
    [float32] result overflows, as is the case for [int16] samples and
    volumes in [0, 1].  The peak is then finite, and the [int(max_val)] of
    the debug log (lines 116-122) returns. *)

Inductive outcome (A : Type) : Type :=
| Returned (x : A)
| Raised.
Arguments Returned {A} x.
Arguments Raised {A}.

Record MixerConfig := mkConfig {
  original_volume : Q;
  translation_volume : Q;
  sample_rate : Z
}.

Definition int16 (n : Z) : Prop := (-32768 <= n <= 32767)%Z.

(** [float -> int]: the fractional part is dropped. *)
Definition Qtrunc (q : Q) : Z := Z.quot (Qnum q) (Z.pos (Qden q)).

(** A two's-complement 16-bit reading of an integer. *)
Definition wrap16 (z : Z) : Z := ((z + 32768) mod 65536 - 32768)%Z.

(** [x.astype(np.int16)] on one sample. *)
Definition to_int16 (q : Q) : Z := wrap16 (Qtrunc q).

Definition Qmaxb (x y : Q) : Q := if Qle_bool x y then y else x.

Definition Qabsv (x : Q) : Q := if Qle_bool 0 x then x else (- x)%Q.

(** [np.abs(xs).max()]; NumPy raises on an empty array. *)
Definition abs_max (xs : list Q) : outcome Q :=
  match xs with
  | [] => Raised
  | x :: xs' => Returned (fold_left (fun m y => Qmaxb m (Qabsv y)) xs' (Qabsv x))
  end.

(** [np.pad(xs, (0, n), mode='constant')] *)
Definition pad_zeros (xs : list Q) (n : nat) : list Q := xs ++ repeat 0%Q n.

(** Python's reading of a slice bound against a length. *)
Definition norm_index (len i : Z) : Z :=
  if (i <? 0)%Z then Z.max (i + len) 0 else Z.min i len.

(** [int((delay_ms / 1000) * self.config.sample_rate)] (audio_mixer.py
    143): a float quotient, a float product with the sample rate taken to
    float, and the truncation of [int]. *)
Definition delay_samples_of (config : MixerConfig) (delay_ms : Z) : Z :=
  Qtrunc (round64 (round64 (inject_Z delay_ms / 1000)
                   * round64 (inject_Z (sample_rate config)))).

Section FloatOps.

(** [rnd] rounds to [float32].  [rnd_quot] is the rounding that the
    scalar quotient [32767 / max_val] undergoes before it meets the array:
    one rounding to [float32] when NumPy keeps the quotient in [float32],
    a rounding to [float64] and then to [float32] when it computes the
    quotient of a Python [int] and a [float32] scalar in [float64]. *)
Variable rnd : Q -> Q.
Variable rnd_quot : Q -> Q.

Definition fmul (x y : Q) : Q := rnd (x * y).
Definition fadd (x y : Q) : Q := rnd (x + y).
Definition fdiv (x y : Q) : Q := rnd_quot (x / y).

(** [samples.astype(np.float32) * volume]; the Python float [volume] is
    taken to [float32] for the product. *)
Definition scaled (samples : list Z) (volume : Q) : list Q :=
  map (fun n => fmul (rnd (inject_Z n)) (rnd volume)) samples.

(** Element-wise [xs + ys] on arrays of one length. *)
Fixpoint add_arrays (xs ys : list Q) : list Q :=
  match xs, ys with
  | x :: xs', y :: ys' => fadd x y :: add_arrays xs' ys'
  | _, _ => []
  end.

(** The normalisation of lines 108-114 and 166-171. *)
Definition normalize (mixed : list Q) : outcome (list Z) :=
  match abs_max mixed with
  | Raised => Raised
  | Returned max_val =>
      let mixed :=
        if Qgtb max_val 32767
        then map (fun x => fmul x (fdiv 32767 max_val)) mixed
        else mixed in
      Returned (map to_int16 mixed)
  end.

(** [mix_audio_arrays] (audio_mixer.py 68-124) *)
Definition mix_audio_arrays (config : MixerConfig)
           (original translation : list Z) : outcome (list Z) :=
  let original_attenuated := scaled original (original_volume config) in
  let translation_amplified := scaled translation (translation_volume config) in
  let max_len :=
    Nat.max (length original_attenuated) (length translation_amplified) in
  let original_attenuated :=
    if length original_attenuated <? max_len
    then pad_zeros original_attenuated (max_len - length original_attenuated)
    else original_attenuated in
  let translation_amplified :=
    if length translation_amplified <? max_len
    then pad_zeros translation_amplified (max_len - length translation_amplified)
    else translation_amplified in
  normalize (add_arrays original_attenuated translation_amplified).

(** [dst[k:k+len(src)] += src] for a slice that lies inside [dst]. *)
Fixpoint add_from (dst : list Q) (k : nat) (src : list Q) : list Q :=
  match k, dst with
  | O, _ =>
      match dst, src with
      | x :: dst', y :: src' => fadd x y :: add_from dst' O src'
      | _, _ => dst
      end
  | S k', x :: dst' => x :: add_from dst' k' src
  | S _, [] => []
  end.

(** [dst[start:stop] += src]: the bounds are read as Python reads them,
    and [src] must have the length of the slice or length one (it is then
    repeated); NumPy raises otherwise. *)
Definition add_slice (dst : list Q) (start stop : Z) (src : list Q)
  : outcome (list Q) :=
  let len := Z.of_nat (length dst) in
  let a := norm_index len start in
  let b := norm_index len stop in
  let n := Z.to_nat (Z.max 0 (b - a)) in
  if n =? length src then Returned (add_from dst (Z.to_nat a) src)
  else match src with
       | [y] => Returned (add_from dst (Z.to_nat a) (repeat y n))
       | _ => Raised
       end.

(** [overlay_translation] from line 145 on, for the [delay_samples] that
    line 143 computed. *)
Definition overlay_at (config : MixerConfig) (original translation : list Z)
           (delay_samples : Z) : outcome (list Z) :=
  let original_float := scaled original (original_volume config) in
  let translation_float := scaled translation (translation_volume config) in
  let total_length :=
    Z.max (Z.of_nat (length original_float))
          (delay_samples + Z.of_nat (length translation_float)) in
  let mixed := repeat 0%Q (Z.to_nat total_length) in
  match add_slice mixed 0 (Z.of_nat (length original_float)) original_float with
  | Raised => Raised
  | Returned mixed =>
      let translation_start := delay_samples in
      let translation_end :=
        (delay_samples + Z.of_nat (length translation_float))%Z in
      match add_slice mixed translation_start translation_end translation_float with
      | Raised => Raised
      | Returned mixed => normalize mixed
      end
  end.

(** [overlay_translation] (audio_mixer.py 126-171) *)
Definition overlay_translation (config : MixerConfig)
           (original translation : list Z) (delay_ms : Z) : outcome (list Z) :=
  let delay_samples := delay_samples_of config delay_ms in
  overlay_at config original translation delay_samples.

End FloatOps.

(** Exact arithmetic: the rounding that changes nothing. *)
Definition exact : Q -> Q := fun x => x.

Definition default_config : MixerConfig := mkConfig (3 # 10) 1 16000.

(** ** Vocabulary of the properties *)

Definition dot : ascii := "."%char.

Definition nospace (w : str) : bool := forallb (fun c => negb (isspace c)) w.

Definition is_word (w : str) : Prop := w <> [] /\ nospace w = true.

(** The call passes the three early returns of [on_transcription]. *)
Definition accepted (st : AppState) (text : str) : bool :=
  negb (isnil (strip text))
  && negb (isnil (clean_fragment text))
  && negb (str_eqb (lower (clean_fragment text))
                   (strip (lower (sentence_buffer st)))).

(** The buffer right after the merge of line 675. *)
Definition merged_buffer (st : AppState) (text : str) : str :=
  _merge_fragments (sentence_buffer st) (clean_fragment text).

(** [buffer_start_time] right after line 672. *)
Definition started (st : AppState) (current_time : Q) : option Q :=
  if isnil (sentence_buffer st) then Some current_time
  else buffer_start_time st.

(** The test of line 690. *)
Definition completion_test (st : AppState) (text : str) (current_time : Q) : bool :=
  _is_sentence_complete (merged_buffer st text)
  || (timeout_reached (started st current_time) current_time
      && (min_sentence_length <=? length (merged_buffer st text))).

(** The text the emission branch works on (lines 691-695). *)
Definition candidate (st : AppState) (text : str) : str :=
  strip_ellipsis (strip (merged_buffer st text)).

(** The buffer the call leaves for the completion test: the merged one when
    the fragment is taken, the old one when the call returns early. *)
Definition buffer_after_merge (st : AppState) (text : str) : str :=
  if accepted st text then merged_buffer st text else sentence_buffer st.

(** The terminal marks of line 562. *)
Definition ends_sentence (t : str) : Prop :=
  exists c, last_char t = Some c /\ In c (py ".!?;").

Inductive reachable : AppState -> Prop :=
| reach_init : reachable init_state
| reach_start st : reachable st -> reachable (start_translation_process st)
| reach_fragment st text now :
    reachable st -> reachable (fst (on_transcription st text now))
| reach_stop st :
    reachable st -> reachable (fst (stop_translation_process st)).

Definition buffer_inv (st : AppState) : Prop :=
  (sentence_buffer st = [] <-> buffer_start_time st = None)
  /\ (buffer_start_time st = None <-> last_fragment_time st = None).

(** A state the program reaches in one call: a long fragment whose last two
    tokens, ["..."] and ["."], form a two-word loop that the cleaner
    collapses, leaving a buffer that ends in an ellipsis. *)
Definition pending_state : AppState :=
  fst (on_transcription init_state
         (py "the meeting will start after lunch in the main hall ... .") 1).

Definition hello_today : str := py "hello world today".
Definition hello_todai : str := py "hello world todai".

(** The last [k] words of the buffer are the first [k] words of the
    fragment, for [k] in [1 .. min(len(bw), len(fw))]. *)
Definition is_overlap (bw fw : list str) (k : nat) : Prop :=
  1 <= k <= Nat.min (length bw) (length fw)
  /\ skipn (length bw - k) bw = firstn k fw.

(** [k] is the largest overlap, or 0 when there is none. *)
Definition largest_overlap (bw fw : list str) (k : nat) : Prop :=
  (is_overlap bw fw k /\ forall j, is_overlap bw fw j -> j <= k)
  \/ (k = 0 /\ forall j, ~ is_overlap bw fw j).

(** The merge as the specification words it, for an overlap of [k] words. *)
Definition merge_spec (buffer fragment : str) (k : nat) : str :=
  let fragment := _clean_word_loops fragment in
  let appended :=
    if k =? 0 then fragment else join space (skipn k (split fragment)) in
  strip (_clean_word_loops (buffer ++ space ++ appended)).

Definition new_car : str := py "new new new new car".

(** No word occurs three or more times in a row (words compared by
    [loop_key]: lower-cased, trailing [,.!?;:] removed). *)
Fixpoint no_triple (ws : list str) : bool :=
  match ws with
  | [] => true
  | w :: rest => (count_run (loop_key w) rest <? 2) && no_triple rest
  end.

(** No word is followed by an equal one. *)
Fixpoint no_double (ws : list str) : bool :=
  match ws with
  | [] => true
  | w :: rest => (count_run (loop_key w) rest =? 0) && no_double rest
  end.

Definition within (b x : Q) : Prop := (- b <= x /\ x <= b)%Q.

Definition sample_ok (s : Z) : Prop := (Z.abs s <= 32767)%Z.

(** The float array that [mix_audio_arrays] normalises: the two scaled
    inputs, each padded with zeros to the longer length, added entry by
    entry. *)
Definition mix_sum (rnd : Q -> Q) (config : MixerConfig)
           (original translation : list Z) : list Q :=
  let max_len := Nat.max (length original) (length translation) in
  add_arrays rnd
    (pad_zeros (scaled rnd original (original_volume config))
               (max_len - length original))
    (pad_zeros (scaled rnd translation (translation_volume config))
               (max_len - length translation)).

(** The float array that [overlay_translation] normalises, for a delay that
    is not negative: zeros, plus the scaled original from index 0, plus the
    scaled translation from index [delay_samples]. *)
Definition overlay_sum (rnd : Q -> Q) (config : MixerConfig)
           (original translation : list Z) (delay_samples : Z) : list Q :=
  let total_length :=
    Z.max (Z.of_nat (length original))
          (delay_samples + Z.of_nat (length translation)) in
  add_from rnd
    (add_from rnd (repeat 0%Q (Z.to_nat total_length)) 0
              (scaled rnd original (original_volume config)))
    (Z.to_nat delay_samples)
    (scaled rnd translation (translation_volume config)).

(** Uniform gain reduction, as the specification words it: [peak] is the
    largest magnitude in [mixed]; when it exceeds 32767 every entry is
    multiplied by the one factor [32767 / peak] before the conversion to
    [int16], and otherwise the entries are converted as they are. *)
Definition uniform_gain (rnd rnd_quot : Q -> Q)
           (mixed : list Q) (out : list Z) : Prop :=
  exists peak,
    In peak (map Qabsv mixed)
    /\ Forall (within peak) mixed
    /\ out = if Qgtb peak 32767
             then map (fun x => to_int16 (rnd (x * rnd_quot (32767 / peak))%Q))
                      mixed
             else map to_int16 mixed.

(** ** Further parts of the program *)

(** [self.similarity_threshold] (main.py 194) *)
Definition similarity_threshold : Q := 7 # 10.

(** [_is_duplicate] (main.py 536-546) *)
Definition _is_duplicate (st : AppState) (text : str) : bool :=
  let text_clean := strip (lower text) in
  existsb (fun recent =>
             Qle_bool similarity_threshold
                      (_calculate_similarity text_clean recent))
          (recent_transcriptions st).

(** [a] is [b] with some of its words left out, order kept. *)
Inductive subseq : list str -> list str -> Prop :=
| subseq_nil : subseq [] []
| subseq_skip w a b : subseq a b -> subseq a (w :: b)
| subseq_keep w a b : subseq a b -> subseq (w :: a) (w :: b).

(** The cleaner on a word list: lists of fewer than three words pass. *)
Definition clean_if_long (ws : list str) : list str :=
  if length ws <? 3 then ws else clean_words ws.

(** No surrounding whitespace. *)
Definition stripped (t : str) : Prop := strip t = t.

(** ** The rest of the mixer (audio_mixer.py 202-234, 286-347, 362-377,
    402-434) *)

(** Python's [min(a, b)] and [max(a, b)]: the first argument wins a tie. *)
Definition py_min (a b : Q) : Q := if Qgtb a b then b else a.
Definition py_max (a b : Q) : Q := if Qgtb b a then b else a.

(** [set_volumes] (audio_mixer.py 362-377); [None] leaves a volume alone. *)
Definition set_volumes (config : MixerConfig)
           (original translation : option Q) : MixerConfig :=
  let config :=
    match original with
    | Some v => mkConfig (py_max 0 (py_min 1 v)) (translation_volume config)
                         (sample_rate config)
    | None => config
    end in
  match translation with
  | Some v => mkConfig (original_volume config) (py_max 0 (py_min 1 v))
                       (sample_rate config)
  | None => config
  end.

(** What one round of the playback code hands to the output stream. *)
Inductive loop_output : Type :=
| NoChunk
| Played (mixed : list Z)
| Logged.

(** The two variables of [_continuous_mix_loop]. *)
Record MixLoop := mkLoop {
  current_translation : option (list Z);
  translation_position : nat
}.

Section MixerRest.

Variable rnd : Q -> Q.
Variable rnd_quot : Q -> Q.

(** [(original_chunk.astype(np.float32) * original_volume).astype(np.int16)] *)
Definition attenuate (config : MixerConfig) (original_chunk : list Z) : list Z :=
  map to_int16 (scaled rnd original_chunk (original_volume config)).

(** One round of the [while] of [_continuous_mix_loop] (audio_mixer.py
    293-345).  [original_chunk] is what [original_callback()] returned and
    [queued] what [translation_queue.get_nowait()] gave ([None]: the queue
    was empty).  An exception inside the round is caught and logged. *)
Definition mix_loop_step (config : MixerConfig) (st : MixLoop)
           (original_chunk : option (list Z)) (queued : option (list Z))
  : MixLoop * loop_output :=
  match original_chunk with
  | None => (st, NoChunk)
  | Some original_chunk =>
      let st :=
        match queued with
        | Some translation => mkLoop (Some translation) 0
        | None => st
        end in
      match current_translation st with
      | Some current =>
          let chunk_len := length original_chunk in
          let translation_chunk :=
            firstn chunk_len (skipn (translation_position st) current) in
          if 0 <? length translation_chunk then
            let translation_chunk :=
              if length translation_chunk <? chunk_len
              then translation_chunk
                   ++ repeat 0%Z (chunk_len - length translation_chunk)
              else translation_chunk in
            match mix_audio_arrays rnd rnd_quot config
                                   original_chunk translation_chunk with
            | Raised => (st, Logged)
            | Returned mixed =>
                let position := translation_position st + chunk_len in
                (if length current <=? position
                 then mkLoop None position
                 else mkLoop (Some current) position,
                 Played mixed)
            end
          else (st, Played (attenuate config original_chunk))
      | None => (st, Played (attenuate config original_chunk))
      end
  end.

(** Rounds in a row, each with a chunk and nothing new in the queue. *)
Fixpoint mix_loop_run (config : MixerConfig) (st : MixLoop)
         (chunks : list (list Z)) : MixLoop :=
  match chunks with
  | [] => st
  | chunk :: chunks' =>
      mix_loop_run config (fst (mix_loop_step config st (Some chunk) None)) chunks'
  end.

(** [play_translation_only] (audio_mixer.py 202-234): the samples written,
    or [Logged] when the [try] block raised. *)
Definition play_translation_only (config : MixerConfig)
           (translation : list Z) : loop_output :=
  match normalize rnd rnd_quot
          (scaled rnd translation (translation_volume config)) with
  | Returned samples => Played samples
  | Raised => Logged
  end.

End MixerRest.

(** The round mixes a translation in: one is current once the queue has
    been read, samples of it are left, and the chunk is not empty. *)
Definition mixes_translation (st : MixLoop) (queued : option (list Z))
           (original_chunk : list Z) : bool :=
  let st :=
    match queued with
    | Some translation => mkLoop (Some translation) 0
    | None => st
    end in
  match current_translation st with
  | Some current =>
      (translation_position st <? length current) && (0 <? length original_chunk)
  | None => false
  end.

(** Sample [s] is sample [x] turned down: no larger in magnitude and not
    of the opposite sign. *)
Definition no_louder (s x : Z) : Prop :=
  (Z.abs s <= Z.abs x)%Z /\ (0 <= s * x)%Z.

Section Fade.

(** [rnd] rounds to [float32] and [rnd64] to [float64]: [np.linspace]
    works in [float64], and the in-place product of a [float32] array with
    a [float64] curve is computed in [float64] and stored as [float32]. *)
Variable rnd : Q -> Q.
Variable rnd64 : Q -> Q.

(** [np.linspace(start, stop, num)]: [arange(num)] times the step, plus
    [start], the last entry set to [stop] when there are two or more.  (With
    a step that rounds to zero NumPy divides first and multiplies after.) *)
Definition linspace (start stop : Q) (num : nat) : list Q :=
  let div := inject_Z (Z.of_nat (num - 1)) in
  let delta := rnd64 (stop - start) in
  let step := rnd64 (delta / div) in
  let scaled_index (i : nat) : Q :=
    let y := inject_Z (Z.of_nat i) in
    if 1 <? num then
      if Qeq_bool step 0 then rnd64 (rnd64 (y / div) * delta)
      else rnd64 (y * step)
    else rnd64 (y * delta) in
  map (fun i => if (1 <? num) && (i =? num - 1) then stop
                else rnd64 (scaled_index i + start))
      (seq 0 num).

(** [dst[k:k+len(curve)] *= curve] for a slice that lies inside [dst]. *)
Fixpoint mul_from (dst : list Q) (k : nat) (curve : list Q) : list Q :=
  match k, dst with
  | O, _ =>
      match dst, curve with
      | x :: dst', c :: curve' => rnd (rnd64 (x * c)) :: mul_from dst' O curve'
      | _, _ => dst
      end
  | S k', x :: dst' => x :: mul_from dst' k' curve
  | S _, [] => []
  end.

(** [create_fade_effect] (audio_mixer.py 402-434) for the sample counts
    that lines 419-420 computed. *)
Definition create_fade_effect (audio : list Z)
           (fade_in_samples fade_out_samples : Z) : list Z :=
  let audio_float := map (fun n => rnd (inject_Z n)) audio in
  let len := Z.of_nat (length audio_float) in
  let audio_float :=
    if (0 <? fade_in_samples)%Z && (fade_in_samples <? len)%Z then
      mul_from audio_float 0 (linspace 0 1 (Z.to_nat fade_in_samples))
    else audio_float in
  let audio_float :=
    if (0 <? fade_out_samples)%Z && (fade_out_samples <? len)%Z then
      mul_from audio_float (Z.to_nat (len - fade_out_samples))
               (linspace 1 0 (Z.to_nat fade_out_samples))
    else audio_float in
  map to_int16 audio_float.

End Fade.

(** ** The transcriber's side (stt_handler_fast.py 120-238)

    [on_transcription] is the callback of [FastSTTHandler]; this is the
    part of the handler that feeds it. *)

(** [add_audio_chunk]: [self.audio_buffer.extend(audio_data.tolist())] *)
Definition add_audio_chunk (audio_buffer chunk : list Z) : list Z :=
  audio_buffer ++ chunk.

(** One round of [_processing_loop] on the buffer, for the
    [required_samples] of line 163: the audio handed to [_transcribe] and
    the buffer kept, or [None] when the round only sleeps. *)
Definition take_window (required_samples : nat) (audio_buffer : list Z)
  : option (list Z * list Z) :=
  if required_samples <=? length audio_buffer then
    let audio_to_process := firstn required_samples audio_buffer in
    let overlap := required_samples / 2 in
    Some (audio_to_process, skipn (required_samples - overlap) audio_buffer)
  else None.

(** The text [_transcribe] returns for the segment texts of the model
    (lines 221-236): [None] stands for Python's [None]. *)
Definition combine_segments (segment_texts : list str) : option str :=
  let text_parts := map strip segment_texts in
  let text := strip (join space text_parts) in
  if isnil text then None else Some text.

(** ** The speaker's side (tts_handler.py 69-138)

    [_translate_and_display] hands every translation to [speak_text]. *)

Record TTSState := mkTTS {
  _recent_texts : list str;
  _last_text : str
}.

Definition _max_recent : nat := 5.

(** [_is_similar] (tts_handler.py 80-97) *)
Definition _is_similar (text1 text2 : str) (threshold : Q) : bool :=
  if isnil text1 || isnil text2 then false
  else
    let words1 := word_set (split (lower text1)) in
    let words2 := word_set (split (lower text2)) in
    if isnil words1 || isnil words2 then false
    else
      let intersection := length (set_inter words1 words2) in
      let union := length (set_union words1 words2) in
      let similarity :=
        if 0 <? union then (Z.of_nat intersection # Pos.of_nat union)%Q
        else 0%Q in
      Qle_bool threshold similarity.

(** [speak_text] (tts_handler.py 99-138) with [queue_size] the value of
    [self.tts_queue.qsize()]: the next state and the text put on the queue,
    if any. *)
Definition speak_text (st : TTSState) (queue_size : nat) (text : str)
  : TTSState * option str :=
  if isnil text || isnil (strip text) then (st, None)
  else if length (strip text) <? 15 then (st, None)
  else
    let text_clean := lower (strip text) in
    if existsb (str_eqb text_clean) (map lower (_recent_texts st))
    then (st, None)
    else if existsb (fun recent => _is_similar text recent (85 # 100))
                    (_recent_texts st)
    then (st, None)
    else
      let recent := _recent_texts st ++ [text] in
      let recent := if _max_recent <? length recent then tl recent else recent in
      let st := mkTTS recent text in
      if queue_size <? 1 then (st, Some text) else (st, None).

(** The function only looks at the lower-cased, stripped arguments. *)
Definition similarity_of_clean (s1_clean s2_clean : str) : Q :=
  if isnil s1_clean || isnil s2_clean then 0%Q
  else if str_eqb s1_clean s2_clean then 1%Q
  else
    let words1 := word_set (split s1_clean) in
    let words2 := word_set (split s2_clean) in
    if isnil words1 || isnil words2 then 0%Q
    else
      let intersection := length (set_inter words1 words2) in
      let union := length (set_union words1 words2) in
      if 0 <? union
      then (Z.of_nat intersection # Pos.of_nat union)%Q
      else 0%Q.

(** What holds of the state between calls. *)
Definition state_ok (st : AppState) : Prop :=
  stripped (sentence_buffer st)
  /\ length (recent_transcriptions st) <= max_recent_transcriptions
  /\ Forall (fun e => lower e = e /\ 20 <= length e /\ stripped e)
            (recent_transcriptions st).

Definition slow_talk : str :=
  py "so what we are going to look at today is the way that".

Definition clamp01 (v : Q) : Q := py_max 0 (py_min 1 v).

(** * Properties *)

(** ** Equality tests *)

Lemma str_eqb_spec (a b : str) : str_eqb a b = true <-> a = b.
Proof.
  revert b; induction a as [|x a IH]; intros [|y b]; simpl; split;
    try congruence; try reflexivity.
  - rewrite andb_true_iff, Ascii.eqb_eq, IH. intros [-> ->]; reflexivity.
  - intros H; injection H as -> ->.
    rewrite Ascii.eqb_refl; simpl. apply IH; reflexivity.
Qed.

Lemma str_eqb_refl (a : str) : str_eqb a a = true.
Proof. apply str_eqb_spec; reflexivity. Qed.

Lemma words_eqb_spec (a b : list str) : words_eqb a b = true <-> a = b.
Proof.
  revert b; induction a as [|x a IH]; intros [|y b]; simpl; split;
    try congruence; try reflexivity.
  - rewrite andb_true_iff, str_eqb_spec, IH. intros [-> ->]; reflexivity.
  - intros H; injection H as -> ->.
    rewrite str_eqb_refl; simpl. apply IH; reflexivity.
Qed.

Lemma isnil_true {A} (l : list A) : isnil l = true <-> l = [].
Proof. destruct l; simpl; split; congruence. Qed.

Lemma isnil_false {A} (l : list A) : isnil l = false <-> l <> [].
Proof. destruct l; simpl; split; congruence. Qed.

(** ** Stripping *)

Lemma lstrip_by_length p t : length (lstrip_by p t) <= length t.
Proof.
  induction t as [|c t IH]; simpl; [lia|].
  destruct (p c); simpl; lia.
Qed.

Lemma lstrip_by_suffix p t : exists pre, t = pre ++ lstrip_by p t.
Proof.
  induction t as [|c t [pre IH]]; simpl.
  - exists []; reflexivity.
  - destruct (p c).
    + exists (c :: pre). simpl. f_equal. exact IH.
    + exists []. reflexivity.
Qed.

Lemma lstrip_by_idem p t : lstrip_by p (lstrip_by p t) = lstrip_by p t.
Proof.
  induction t as [|c t IH]; simpl; [reflexivity|].
  destruct (p c) eqn:E; [exact IH|]. simpl. rewrite E. reflexivity.
Qed.

Lemma lstrip_by_app_stop p a c b :
  p c = false -> lstrip_by p (a ++ c :: b) = lstrip_by p a ++ c :: b.
Proof.
  intros Hc. induction a as [|x a IH]; simpl.
  - rewrite Hc. reflexivity.
  - destruct (p x); [exact IH | reflexivity].
Qed.

Lemma rstrip_by_length p t : length (rstrip_by p t) <= length t.
Proof.
  unfold rstrip_by. rewrite length_rev.
  etransitivity; [apply lstrip_by_length|]. rewrite length_rev. lia.
Qed.

Lemma rstrip_by_last p a c : p c = false -> rstrip_by p (a ++ [c]) = a ++ [c].
Proof.
  intros H. unfold rstrip_by. rewrite rev_app_distr. simpl. rewrite H.
  simpl. rewrite rev_involutive. reflexivity.
Qed.

Lemma strip_length t : length (strip t) <= length t.
Proof.
  unfold strip, lstrip, rstrip.
  etransitivity; [apply lstrip_by_length | apply rstrip_by_length].
Qed.

(** ** Suffix tests and slices *)

Lemma endswith_app (a suf : str) : endswith (a ++ suf) suf = true.
Proof.
  unfold endswith. rewrite length_app.
  replace (length a + length suf - length suf) with (length a) by lia.
  rewrite skipn_app, skipn_all, Nat.sub_diag. simpl.
  rewrite str_eqb_refl, andb_true_r. apply Nat.leb_le. lia.
Qed.

Lemma endswith_inv (t suf : str) :
  endswith t suf = true -> exists pre, t = pre ++ suf.
Proof.
  unfold endswith. rewrite andb_true_iff, str_eqb_spec. intros [_ H].
  exists (firstn (length t - length suf) t).
  rewrite <- H at 2. symmetry. apply firstn_skipn.
Qed.

Lemma drop_last_app (a suf : str) : drop_last (length suf) (a ++ suf) = a.
Proof.
  unfold drop_last. rewrite length_app.
  replace (length a + length suf - length suf) with (length a) by lia.
  rewrite firstn_app, Nat.sub_diag, firstn_all. simpl. apply app_nil_r.
Qed.

Lemma last_char_app (a : str) (c : ascii) : last_char (a ++ [c]) = Some c.
Proof. unfold last_char. rewrite rev_app_distr. reflexivity. Qed.

Lemma last_char_app_ne (a b : str) : b <> [] -> last_char (a ++ b) = last_char b.
Proof.
  intros H. unfold last_char. rewrite rev_app_distr.
  destruct (rev b) eqn:E; [|reflexivity].
  apply (f_equal (@rev ascii)) in E. rewrite rev_involutive in E.
  simpl in E. contradiction.
Qed.

(** ** The ellipsis loop: enough rounds, and its defining equation *)

Lemma ends_ellipsis_length t : ends_ellipsis t = true -> 3 <= length t.
Proof.
  unfold ends_ellipsis. rewrite orb_true_iff.
  intros [H|H]; apply endswith_inv in H; destruct H as [pre ->];
    rewrite length_app; simpl; lia.
Qed.

Lemma ellipsis_step_shorter t :
  ends_ellipsis t = true -> length (ellipsis_step t) < length t.
Proof.
  intros H. apply ends_ellipsis_length in H. unfold ellipsis_step.
  eapply Nat.le_lt_trans; [apply strip_length|].
  unfold drop_last. rewrite length_firstn. lia.
Qed.

Lemma strip_ellipsis_loop_stable fuel1 fuel2 t :
  length t <= fuel1 -> length t <= fuel2 ->
  strip_ellipsis_loop fuel1 t = strip_ellipsis_loop fuel2 t.
Proof.
  revert fuel2 t. induction fuel1 as [|fuel1 IH]; intros fuel2 t H1 H2.
  - destruct t; [|simpl in H1; lia]. destruct fuel2; reflexivity.
  - destruct fuel2 as [|fuel2].
    + destruct t; [reflexivity | simpl in H2; lia].
    + simpl. destruct (ends_ellipsis t) eqn:E; [|reflexivity].
      pose proof (ellipsis_step_shorter t E). apply IH; lia.
Qed.

Lemma strip_ellipsis_loop_enough fuel t :
  length t <= fuel -> strip_ellipsis_loop fuel t = strip_ellipsis t.
Proof.
  intros H. unfold strip_ellipsis. apply strip_ellipsis_loop_stable; lia.
Qed.

Lemma strip_ellipsis_eq t :
  strip_ellipsis t =
  if ends_ellipsis t then strip_ellipsis (ellipsis_step t) else t.
Proof.
  destruct (ends_ellipsis t) eqn:E.
  - pose proof (ellipsis_step_shorter t E) as Hs.
    unfold strip_ellipsis at 1.
    destruct (length t) as [|n] eqn:En; [lia|]. simpl. rewrite E.
    apply strip_ellipsis_loop_enough. lia.
  - unfold strip_ellipsis.
    destruct (length t) as [|n]; [reflexivity|]. simpl. rewrite E.
    reflexivity.
Qed.

Lemma strip_ellipsis_stop t : ends_ellipsis t = false -> strip_ellipsis t = t.
Proof. intros H. rewrite strip_ellipsis_eq, H. reflexivity. Qed.

(** ** Texts that end in four dots *)

Lemma last_nonempty_default {A} (x d d' : A) (q : list A) :
  last (x :: q) d = last (x :: q) d'.
Proof.
  revert x. induction q as [|y q IH]; intros x; [reflexivity|].
  change (last (y :: q) d = last (y :: q) d'). apply IH.
Qed.

Lemma last_cons_default {A} (c d : A) (q : list A) :
  last (c :: q) d = last q c.
Proof.
  destruct q as [|x q]; [reflexivity|].
  change (last (x :: q) d = last (x :: q) c). apply last_nonempty_default.
Qed.

Lemma strip_keeps_tail (p : str) (c : ascii) (q : str) :
  isspace c = false -> isspace (last q c) = false ->
  strip (p ++ c :: q) = lstrip p ++ c :: q.
Proof.
  intros Hc Hl. unfold strip.
  assert (Hr : rstrip (p ++ c :: q) = p ++ c :: q).
  { destruct (exists_last (l := c :: q)) as [a [z Hz]]; [discriminate|].
    assert (z = last q c).
    { rewrite <- (last_cons_default c c q), Hz. symmetry. apply last_last. }
    subst z. rewrite Hz, app_assoc. apply rstrip_by_last. exact Hl. }
  rewrite Hr. apply lstrip_by_app_stop. exact Hc.
Qed.

Lemma lstrip_last_char (p : str) :
  lstrip p <> [] -> last_char (lstrip p) = last_char p.
Proof.
  intros H. destruct (lstrip_by_suffix isspace p) as [pre E].
  rewrite E at 2. symmetry. apply last_char_app_ne. exact H.
Qed.

Lemma no_dot_no_ellipsis (p : str) :
  last_char p <> Some dot -> ends_ellipsis (lstrip p ++ [dot]) = false.
Proof.
  intros Hp. unfold ends_ellipsis.
  assert (K : forall pre, lstrip p ++ [dot] <> (pre ++ [dot]) ++ [dot; dot]).
  { intros pre E.
    change [dot; dot] with ([dot] ++ [dot]) in E.
    rewrite app_assoc in E. apply app_inj_tail in E. destruct E as [E _].
    assert (Hne : lstrip p <> []).
    { rewrite E. destruct pre; discriminate. }
    apply Hp. rewrite <- (lstrip_last_char p Hne), E.
    apply last_char_app. }
  apply orb_false_iff; split.
  - destruct (endswith (lstrip p ++ [dot]) (py "...")) eqn:E; [|reflexivity].
    apply endswith_inv in E. destruct E as [pre E].
    exfalso. apply (K pre). rewrite E. rewrite <- !app_assoc. reflexivity.
  - destruct (endswith (lstrip p ++ [dot]) (py "....")) eqn:E; [|reflexivity].
    apply endswith_inv in E. destruct E as [pre E].
    exfalso. apply (K (pre ++ [dot])). rewrite E. rewrite <- !app_assoc.
    reflexivity.
Qed.

Lemma strip_four_dots (p : str) :
  strip (p ++ py "....") = lstrip p ++ py "....".
Proof. apply strip_keeps_tail; reflexivity. Qed.

Lemma strip_one_dot (p : str) :
  strip (lstrip p ++ [dot]) = lstrip p ++ [dot].
Proof.
  rewrite (strip_keeps_tail (lstrip p) dot []) by reflexivity.
  unfold lstrip. rewrite lstrip_by_idem. reflexivity.
Qed.

Lemma four_dots_step (p : str) :
  ellipsis_step (lstrip p ++ py "....") = lstrip p ++ [dot].
Proof.
  unfold ellipsis_step.
  change (py "....") with ([dot] ++ py "...").
  rewrite app_assoc.
  transitivity (strip (lstrip p ++ [dot])); [|apply strip_one_dot].
  f_equal. exact (drop_last_app (lstrip p ++ [dot]) (py "...")).
Qed.

(** C10.  Each round of the ellipsis loop cuts the last three characters
    (and strips the rest), and a round runs only while the text ends with
    three dots.  For a text that ends in exactly four dots (what precedes
    them does not end in a dot) one round leaves one dot and the loop stops:
    the cleaned fragment keeps a final period, and [_is_sentence_complete]
    answers [True]. *)
Theorem four_dots_keep_period (p : str) :
  last_char p <> Some dot ->
  let t := p ++ py "...." in
  (forall u, strip_ellipsis u =
             if ends_ellipsis u then strip_ellipsis (strip (drop_last 3 u))
             else u)
  /\ (forall u, ends_ellipsis u = true -> length (drop_last 3 u) + 3 = length u)
  /\ ends_ellipsis (strip t) = true
  /\ ellipsis_step (strip t) = lstrip p ++ [dot]
  /\ length (ellipsis_step (strip t)) + 3 = length (strip t)
  /\ ends_ellipsis (ellipsis_step (strip t)) = false
  /\ clean_fragment t = lstrip p ++ [dot]
  /\ last_char (clean_fragment t) = Some dot
  /\ _is_sentence_complete t = true.
Proof.
  intros Hp t. subst t.
  assert (E1 : ends_ellipsis (strip (p ++ py "....")) = true).
  { rewrite strip_four_dots. unfold ends_ellipsis.
    rewrite (endswith_app (lstrip p) (py "....")). apply orb_true_r. }
  assert (E2 : ellipsis_step (strip (p ++ py "....")) = lstrip p ++ [dot]).
  { rewrite strip_four_dots. apply four_dots_step. }
  assert (E3 : clean_fragment (p ++ py "....") = lstrip p ++ [dot]).
  { unfold clean_fragment. rewrite strip_ellipsis_eq, E1, E2.
    apply strip_ellipsis_stop. apply no_dot_no_ellipsis. exact Hp. }
  split; [exact strip_ellipsis_eq|].
  split.
  { intros u Hu. apply ends_ellipsis_length in Hu.
    unfold drop_last. rewrite length_firstn. lia. }
  repeat split.
  - exact E1.
  - exact E2.
  - rewrite E2, strip_four_dots, !length_app. simpl. lia.
  - rewrite E2. apply no_dot_no_ellipsis. exact Hp.
  - exact E3.
  - rewrite E3. apply last_char_app.
  - unfold _is_sentence_complete.
    destruct (isnil (strip (p ++ py "...."))) eqn:N.
    + apply isnil_true in N. rewrite strip_four_dots in N.
      destruct (lstrip p); discriminate.
    + fold (clean_fragment (p ++ py "....")). rewrite E3, last_char_app.
      reflexivity.
Qed.

Lemma four_dots_keep_period_witness :
  clean_fragment (py "word....") = py "word."
  /\ _is_sentence_complete (py "word....") = true.
Proof.
  assert (H : last_char (py "word") <> Some dot) by (vm_compute; discriminate).
  pose proof (four_dots_keep_period (py "word") H) as K.
  cbv zeta in K. destruct K as (_ & _ & _ & _ & _ & _ & K5 & _ & K7).
  split; [exact K5 | exact K7].
Defined.

(** ** Words: what [split] returns and how it meets [join] and [strip] *)

Lemma split_cons_space c t : isspace c = true -> split (c :: t) = split t.
Proof. intros H. simpl. rewrite H. reflexivity. Qed.

Lemma split_cons_nonempty c t : isspace c = false -> split (c :: t) <> [].
Proof.
  intros H. simpl. rewrite H. destruct t as [|d t]; [discriminate|].
  destruct (isspace d); [discriminate|].
  destruct (split (d :: t)); discriminate.
Qed.

Lemma split_all_space t : forallb isspace t = true <-> split t = [].
Proof.
  induction t as [|c t IH]; [simpl; tauto|].
  destruct (isspace c) eqn:E.
  - rewrite split_cons_space by exact E. simpl. rewrite E. exact IH.
  - simpl forallb. rewrite E. simpl. split; [discriminate|].
    intros H. exfalso. exact (split_cons_nonempty c t E H).
Qed.

Lemma split_word_sep w c t :
  is_word w -> isspace c = true -> split (w ++ c :: t) = w :: split t.
Proof.
  intros [Hne Hw] Hc. induction w as [|x w IH]; [contradiction|].
  simpl in Hw. apply andb_true_iff in Hw. destruct Hw as [Hx Hw].
  apply negb_true_iff in Hx.
  destruct w as [|y w].
  - simpl. rewrite Hx, Hc. reflexivity.
  - assert (Hy : isspace y = false).
    { simpl in Hw. apply andb_true_iff in Hw. destruct Hw as [Hy _].
      apply negb_true_iff in Hy. exact Hy. }
    change (split ((x :: y :: w) ++ c :: t))
      with (if isspace x then split ((y :: w) ++ c :: t)
            else if isspace y then [x] :: split ((y :: w) ++ c :: t)
                 else match split ((y :: w) ++ c :: t) with
                      | w0 :: ws => (x :: w0) :: ws
                      | [] => [[x]]
                      end).
    rewrite Hx, Hy, IH; [reflexivity | discriminate | exact Hw].
Qed.

Lemma split_word w : is_word w -> split w = [w].
Proof.
  intros [Hne Hw]. induction w as [|x w IH]; [contradiction|].
  simpl in Hw. apply andb_true_iff in Hw. destruct Hw as [Hx Hw].
  apply negb_true_iff in Hx.
  destruct w as [|y w].
  - simpl. rewrite Hx. reflexivity.
  - assert (Hy : isspace y = false).
    { simpl in Hw. apply andb_true_iff in Hw. destruct Hw as [Hy _].
      apply negb_true_iff in Hy. exact Hy. }
    change (split (x :: y :: w))
      with (if isspace x then split (y :: w)
            else if isspace y then [x] :: split (y :: w)
                 else match split (y :: w) with
                      | w0 :: ws => (x :: w0) :: ws
                      | [] => [[x]]
                      end).
    rewrite Hx, Hy, IH; [reflexivity | discriminate | exact Hw].
Qed.

Lemma split_app_space a c b :
  isspace c = true -> split (a ++ c :: b) = split a ++ split b.
Proof.
  intros Hc. induction a as [|x a IH].
  - simpl. rewrite Hc. reflexivity.
  - destruct (isspace x) eqn:Hx.
    + rewrite <- app_comm_cons, !split_cons_space by exact Hx. exact IH.
    + destruct a as [|d a].
      * simpl. rewrite Hx, Hc. reflexivity.
      * change (split ((x :: d :: a) ++ c :: b))
          with (if isspace x then split ((d :: a) ++ c :: b)
                else if isspace d then [x] :: split ((d :: a) ++ c :: b)
                     else match split ((d :: a) ++ c :: b) with
                          | w0 :: ws => (x :: w0) :: ws
                          | [] => [[x]]
                          end).
        change (split (x :: d :: a))
          with (if isspace x then split (d :: a)
                else if isspace d then [x] :: split (d :: a)
                     else match split (d :: a) with
                          | w0 :: ws => (x :: w0) :: ws
                          | [] => [[x]]
                          end).
        rewrite Hx, IH. destruct (isspace d) eqn:Hd; [reflexivity|].
        pose proof (split_cons_nonempty d a Hd) as Hn.
        destruct (split (d :: a)); [contradiction | reflexivity].
Qed.

Lemma split_app_spaces a suf :
  forallb isspace suf = true -> split (a ++ suf) = split a.
Proof.
  intros Hs. destruct suf as [|c suf]; [rewrite app_nil_r; reflexivity|].
  simpl in Hs. apply andb_true_iff in Hs. destruct Hs as [Hc Hs].
  rewrite split_app_space by exact Hc.
  apply split_all_space in Hs. rewrite Hs. apply app_nil_r.
Qed.

Lemma split_spaces_app pre t :
  forallb isspace pre = true -> split (pre ++ t) = split t.
Proof.
  induction pre as [|c pre IH]; intros H; [reflexivity|].
  simpl in H. apply andb_true_iff in H. destruct H as [Hc H].
  rewrite <- app_comm_cons, split_cons_space by exact Hc. apply IH. exact H.
Qed.

Lemma split_words t : Forall is_word (split t).
Proof.
  induction t as [|c t IH]; [constructor|].
  destruct (isspace c) eqn:Hc.
  - rewrite split_cons_space by exact Hc. exact IH.
  - assert (Hone : is_word [c]).
    { split; [discriminate|]. simpl. rewrite Hc. reflexivity. }
    simpl. rewrite Hc. destruct t as [|d t]; [constructor; [exact Hone | constructor]|].
    destruct (isspace d) eqn:Hd; [constructor; assumption|].
    destruct (split (d :: t)) as [|w ws]; [constructor; [exact Hone | constructor]|].
    inversion IH as [|? ? [Hw1 Hw2] Hws]; subst.
    constructor; [|exact Hws]. split; [discriminate|].
    simpl. rewrite Hc. exact Hw2.
Qed.

Lemma split_join ws : Forall is_word ws -> split (join space ws) = ws.
Proof.
  induction ws as [|w ws IH]; intros H; [reflexivity|].
  inversion H as [|? ? Hw Hws]; subst.
  destruct ws as [|w2 ws].
  - simpl. apply split_word. exact Hw.
  - change (join space (w :: w2 :: ws))
      with (w ++ " "%char :: join space (w2 :: ws)).
    rewrite split_word_sep by (exact Hw || reflexivity).
    f_equal. apply IH. exact Hws.
Qed.

Lemma lstrip_by_split p t :
  exists pre, t = pre ++ lstrip_by p t /\ forallb p pre = true.
Proof.
  induction t as [|c t [pre [IH1 IH2]]]; simpl.
  - exists []; split; reflexivity.
  - destruct (p c) eqn:E.
    + exists (c :: pre). simpl. rewrite E, IH2. split; [|reflexivity].
      f_equal. exact IH1.
    + exists []. split; reflexivity.
Qed.

Lemma rstrip_by_split p t :
  exists suf, t = rstrip_by p t ++ suf /\ forallb p suf = true.
Proof.
  unfold rstrip_by. destruct (lstrip_by_split p (rev t)) as [pre [H1 H2]].
  exists (rev pre). split.
  - rewrite <- rev_app_distr, <- H1, rev_involutive. reflexivity.
  - rewrite forallb_forall in *. intros x Hx. apply H2.
    apply in_rev. exact Hx.
Qed.

Lemma split_strip t : split (strip t) = split t.
Proof.
  unfold strip, lstrip, rstrip.
  destruct (rstrip_by_split isspace t) as [suf [H1 H2]].
  destruct (lstrip_by_split isspace (rstrip_by isspace t)) as [pre [H3 H4]].
  rewrite H1 at 2. rewrite split_app_spaces by exact H2.
  rewrite H3 at 2. rewrite split_spaces_app by exact H4. reflexivity.
Qed.

Lemma strip_nil_iff t : strip t = [] <-> split t = [].
Proof.
  rewrite <- split_strip. split; [intros ->; reflexivity|].
  intros H. apply split_all_space in H.
  unfold strip, lstrip in *.
  destruct (lstrip_by isspace (rstrip t)) as [|c r] eqn:E; [reflexivity|].
  exfalso.
  assert (Hc : isspace c = false).
  { destruct (rstrip t) as [|x u] eqn:Er; [discriminate|].
    clear -E. revert E. generalize (x :: u). intros l.
    induction l as [|y l IH]; simpl; [discriminate|].
    destruct (isspace y) eqn:Ey; [exact IH|]. intros K. congruence. }
  simpl in H. rewrite Hc in H. discriminate.
Qed.

Lemma strip_nonempty_iff t : strip t <> [] <-> split t <> [].
Proof. rewrite strip_nil_iff. tauto. Qed.

(** ** The word-loop cleaner: enough rounds, and its defining equation *)

Lemma clean_loop_stable fuel1 fuel2 ws :
  length ws <= fuel1 -> length ws <= fuel2 ->
  clean_loop fuel1 ws = clean_loop fuel2 ws.
Proof.
  revert fuel2 ws. induction fuel1 as [|fuel1 IH]; intros fuel2 ws H1 H2.
  - destruct ws; [|simpl in H1; lia]. destruct fuel2; reflexivity.
  - destruct fuel2 as [|fuel2].
    + destruct ws; [reflexivity | simpl in H2; lia].
    + destruct ws as [|word rest]; [reflexivity|].
      simpl in H1, H2. cbn -[skipn].
      assert (Hs : forall n, length (skipn n rest) <= length rest).
      { intros n. rewrite length_skipn. lia. }
      destruct (count_run (loop_key word) rest) as [|[|n]]; cbn -[skipn].
      * f_equal. apply IH; lia.
      * f_equal. apply IH; specialize (Hs 1); lia.
      * f_equal. f_equal.
        apply IH; specialize (Hs (S (S n))); lia.
Qed.

(** One round of the outer loop, on [words[i:] = word :: rest]. *)
Lemma clean_words_cons word rest :
  clean_words (word :: rest) =
  match count_run (loop_key word) rest with
  | 0 => word :: clean_words rest
  | 1 => word :: clean_words (skipn 1 rest)
  | S (S n) =>
      word :: match rest with next :: _ => [next] | [] => [] end
           ++ clean_words (skipn (S (S n)) rest)
  end.
Proof.
  unfold clean_words. cbn -[skipn].
  assert (Hs : forall n, length (skipn n rest) <= length rest).
  { intros n. rewrite length_skipn. lia. }
  destruct (count_run (loop_key word) rest) as [|[|n]]; cbn -[skipn].
  - reflexivity.
  - f_equal. apply clean_loop_stable; [specialize (Hs 1); lia|lia].
  - f_equal. f_equal.
    apply clean_loop_stable; [specialize (Hs (S (S n))); lia | lia].
Qed.

Lemma clean_words_nonempty ws : ws <> [] -> clean_words ws <> [].
Proof.
  destruct ws as [|w rest]; [contradiction|]. intros _.
  rewrite clean_words_cons.
  destruct (count_run (loop_key w) rest) as [|[|n]]; discriminate.
Qed.

Lemma Forall_skipn {A} (P : A -> Prop) n (l : list A) :
  Forall P l -> Forall P (skipn n l).
Proof.
  intros H. rewrite <- (firstn_skipn n l) in H.
  apply Forall_app in H. tauto.
Qed.

Lemma clean_words_Forall (P : str -> Prop) ws :
  Forall P ws -> Forall P (clean_words ws).
Proof.
  remember (length ws) as n eqn:En. revert ws En.
  induction n as [n IH] using lt_wf_ind. intros ws En H.
  destruct ws as [|w rest]; [constructor|].
  inversion H as [|? ? Hw Hrest]; subst.
  assert (Hs : forall k, length (skipn k rest) <= length rest).
  { intros k. rewrite length_skipn. lia. }
  rewrite clean_words_cons.
  destruct (count_run (loop_key w) rest) as [|[|k]].
  - constructor; [exact Hw|]. eapply IH; [|reflexivity|exact Hrest]. simpl; lia.
  - constructor; [exact Hw|].
    eapply IH; [|reflexivity|apply Forall_skipn; exact Hrest].
    specialize (Hs 1). cbn -[skipn] in *. lia.
  - constructor; [exact Hw|]. apply Forall_app. split.
    + destruct rest; [constructor|]. inversion Hrest; subst.
      constructor; [assumption|constructor].
    + eapply IH; [|reflexivity|apply Forall_skipn; exact Hrest].
      specialize (Hs (S (S k))). cbn -[skipn] in *. lia.
Qed.

(** What [_clean_word_loops] returns has the cleaned words as its words. *)
Lemma split_clean text :
  split (_clean_word_loops text) =
  if length (split text) <? 3 then split text else clean_words (split text).
Proof.
  unfold _clean_word_loops. destruct (length (split text) <? 3); [reflexivity|].
  apply split_join. apply clean_words_Forall. apply split_words.
Qed.

Lemma split_clean_nonempty text :
  split text <> [] -> split (_clean_word_loops text) <> [].
Proof.
  intros H. rewrite split_clean.
  destruct (length (split text) <? 3); [exact H|].
  apply clean_words_nonempty. exact H.
Qed.

Lemma nonblank_nonempty t : split t <> [] -> t <> [].
Proof. intros H ->. apply H. reflexivity. Qed.

(** ** The overlap search *)

Lemma scan_all_le bw fw m : scan_all bw fw m <= m.
Proof.
  unfold scan_all.
  assert (G : forall l acc b, acc <= b -> Forall (fun i => i <= b) l ->
            fold_left (fun o i => if overlap_at bw fw i then i else o) l acc <= b).
  { induction l as [|i l IH]; intros acc b Ha Hl; simpl; [exact Ha|].
    inversion Hl; subst. apply IH; [|assumption].
    destruct (overlap_at bw fw i); assumption. }
  apply G; [lia|]. apply Forall_forall. intros i Hi.
  apply in_seq in Hi. lia.
Qed.

Lemma scan_first_le bw fw l acc b :
  acc <= b -> Forall (fun i => i <= b) l -> scan_first bw fw l acc <= b.
Proof.
  induction l as [|i l IH]; intros Ha Hl; simpl; [exact Ha|].
  inversion Hl; subst. destruct (overlap_at bw fw i).
  - apply Nat.max_lub; assumption.
  - apply IH; assumption.
Qed.

Lemma find_overlap_le bw fw :
  find_overlap bw fw <= Nat.min (length bw) (length fw).
Proof.
  unfold find_overlap. apply scan_first_le; [apply scan_all_le|].
  apply Forall_forall. intros i Hi. apply in_seq in Hi. lia.
Qed.

(** ** A merge with a non-blank fragment is never empty *)

Lemma clean_nonempty text : split text <> [] -> _clean_word_loops text <> [].
Proof.
  intros H. apply nonblank_nonempty. apply split_clean_nonempty. exact H.
Qed.

Lemma merge_nonempty buffer fragment :
  split fragment <> [] -> _merge_fragments buffer fragment <> [].
Proof.
  intros Hf. unfold _merge_fragments.
  destruct (isnil buffer) eqn:Eb; [apply clean_nonempty; exact Hf|].
  apply isnil_false in Eb.
  destruct (Qgtb _ _).
  - destruct (_ <? _); [exact Eb | apply clean_nonempty; exact Hf].
  - apply strip_nonempty_iff. apply split_clean_nonempty.
    pose proof (find_overlap_le (split buffer) (split (_clean_word_loops fragment))) as Hle.
    assert (Hsp : forall x, split buffer <> [] \/ split x <> [] ->
                  split (buffer ++ space ++ x) <> []).
    { intros x Hx. change (space ++ x) with (" "%char :: x).
      rewrite split_app_space by reflexivity.
      intros E. apply app_eq_nil in E. tauto. }
    destruct (0 <? find_overlap _ _) eqn:Eo.
    + apply Hsp. left. apply Nat.ltb_lt in Eo.
      destruct (split buffer); [simpl in Hle; lia | discriminate].
    + destruct (last_word_is_first _ _) eqn:El.
      * apply Hsp. left. unfold last_word_is_first in El.
        destruct (split buffer); [discriminate El | discriminate].
      * apply Hsp. right. apply split_clean_nonempty. exact Hf.
Qed.

(** ** The accumulator, one call at a time *)

Lemma on_transcription_eq st text now :
  on_transcription st text now =
  if accepted st text then
    if completion_test st text now then
      if length (candidate st text) <? 20 then
        (mkState (is_translating st) [] None None (recent_transcriptions st), [])
      else
        (mkState (is_translating st) [] None None
           (remember (recent_transcriptions st) (lower (candidate st text))),
         [candidate st text])
    else
      (mkState (is_translating st) (merged_buffer st text) (started st now)
               (Some now) (recent_transcriptions st), [])
  else (st, []).
Proof.
  unfold on_transcription, accepted, completion_test, candidate,
    merged_buffer, started, clear_buffer.
  destruct (isnil (strip text)); [reflexivity|].
  destruct (isnil (clean_fragment text)); [reflexivity|].
  destruct (str_eqb _ _); [reflexivity|]. simpl.
  destruct (_ || _); [|reflexivity].
  destruct (_ <? 20); reflexivity.
Qed.

Lemma strip_ellipsis_loop_stripped fuel u :
  exists v, strip_ellipsis_loop fuel (strip u) = strip v.
Proof.
  revert u. induction fuel as [|fuel IH]; intros u; [exists u; reflexivity|].
  simpl. destruct (ends_ellipsis (strip u)); [|exists u; reflexivity].
  unfold ellipsis_step. apply IH.
Qed.

Lemma clean_fragment_nonblank text :
  clean_fragment text <> [] -> split (clean_fragment text) <> [].
Proof.
  unfold clean_fragment, strip_ellipsis.
  destruct (strip_ellipsis_loop_stripped (length (strip text)) text) as [v ->].
  rewrite split_strip. apply strip_nonempty_iff.
Qed.

Lemma accepted_merge_nonempty st text :
  accepted st text = true -> merged_buffer st text <> [].
Proof.
  unfold accepted. rewrite !andb_true_iff, !negb_true_iff.
  intros [[_ H] _]. apply merge_nonempty. apply clean_fragment_nonblank.
  apply isnil_false. exact H.
Qed.

Lemma in_chars_In cs c : in_chars cs c = true <-> In c cs.
Proof.
  unfold in_chars. rewrite existsb_exists. split.
  - intros [x [Hx E]]. apply Ascii.eqb_eq in E. subst. exact Hx.
  - intros H. exists c. split; [exact H | apply Ascii.eqb_refl].
Qed.

Lemma is_sentence_complete_iff t :
  _is_sentence_complete t = true <->
  ends_sentence (strip_ellipsis (strip t)).
Proof.
  unfold _is_sentence_complete, ends_sentence.
  destruct (isnil (strip t)) eqn:E.
  - apply isnil_true in E. rewrite E. simpl. split; [discriminate|].
    intros [c [H _]]. discriminate.
  - destruct (last_char (strip_ellipsis (strip t))) as [c|].
    + rewrite in_chars_In. split.
      * intros H; exists c; split; [reflexivity | exact H].
      * intros [c' [H1 H2]]. injection H1 as ->. exact H2.
    + split; [discriminate|]. intros [c [H _]]. discriminate.
Qed.

(** ** States the program can be in *)

(** A buffer that is left standing between calls never passes the
    punctuation test: the call that completed it also emptied it. *)
Lemma reachable_not_complete st :
  reachable st -> _is_sentence_complete (sentence_buffer st) = false.
Proof.
  induction 1 as [|st _ IH|st text now _ IH|st _ IH].
  - reflexivity.
  - unfold start_translation_process. destruct (is_translating st); exact IH.
  - rewrite on_transcription_eq.
    destruct (accepted st text); [|exact IH].
    destruct (completion_test st text now) eqn:E.
    + destruct (_ <? 20); reflexivity.
    + unfold completion_test in E. apply orb_false_iff in E. apply E.
  - unfold stop_translation_process.
    destruct (negb (is_translating st)); [exact IH | reflexivity].
Qed.

(** ** The buffer and its two time stamps *)

Lemma buffer_inv_cleared tr recent : buffer_inv (mkState tr [] None None recent).
Proof. split; simpl; tauto. Qed.

Lemma on_transcription_inv st text now :
  buffer_inv st -> buffer_inv (fst (on_transcription st text now)).
Proof.
  intros Hinv. rewrite on_transcription_eq.
  destruct (accepted st text) eqn:Ha; [|exact Hinv].
  destruct (completion_test st text now).
  - destruct (_ <? 20); apply buffer_inv_cleared.
  - pose proof (accepted_merge_nonempty st text Ha) as Hne.
    destruct Hinv as [H1 H2]. unfold started.
    split; simpl.
    + destruct (isnil (sentence_buffer st)) eqn:En.
      * split; [contradiction | discriminate].
      * apply isnil_false in En. split; [contradiction|].
        intros K. apply H1 in K. contradiction.
    + destruct (isnil (sentence_buffer st)) eqn:En.
      * split; discriminate.
      * apply isnil_false in En. split; [|discriminate].
        intros K. apply H1 in K. contradiction.
Qed.

Lemma flush_pending_inv st : buffer_inv (fst (flush_pending st)).
Proof. apply buffer_inv_cleared. Qed.

Lemma stop_translation_process_inv st :
  buffer_inv st -> buffer_inv (fst (stop_translation_process st)).
Proof.
  intros H. unfold stop_translation_process.
  destruct (negb (is_translating st)); [exact H | apply buffer_inv_cleared].
Qed.

Lemma start_translation_process_inv st :
  buffer_inv st -> buffer_inv (start_translation_process st).
Proof.
  intros H. unfold start_translation_process.
  destruct (is_translating st); exact H.
Qed.

(** C7.  The buffer text is empty exactly when [buffer_start_time] is
    [None], exactly when [last_fragment_time] is [None]: this holds after
    [__init__], every [on_transcription] call keeps it (early returns,
    too-short discard, emission and plain accumulation alike), and so does
    the flush of [stop_translation_process]. *)
Theorem buffer_invariant :
  buffer_inv init_state
  /\ (forall st text now,
        buffer_inv st -> buffer_inv (fst (on_transcription st text now)))
  /\ (forall st, buffer_inv st -> buffer_inv (fst (flush_pending st)))
  /\ (forall st,
        buffer_inv st -> buffer_inv (fst (stop_translation_process st)))
  /\ (forall st, reachable st -> buffer_inv st).
Proof.
  split; [apply buffer_inv_cleared|].
  split; [exact on_transcription_inv|].
  split; [intros st _; apply flush_pending_inv|].
  split; [exact stop_translation_process_inv|].
  induction 1 as [|st _ IH|st text now _ IH|st _ IH].
  - apply buffer_inv_cleared.
  - apply start_translation_process_inv; exact IH.
  - apply on_transcription_inv; exact IH.
  - apply stop_translation_process_inv; exact IH.
Qed.

Lemma buffer_invariant_witness :
  buffer_inv (fst (on_transcription init_state (py "hello there") 1)).
Proof.
  apply (proj1 (proj2 buffer_invariant)). apply (proj1 buffer_invariant).
Defined.

(** ** Emission *)

Lemma remember_appends recent x :
  exists older, remember recent x = older ++ [x].
Proof.
  unfold remember. destruct (_ <? _) eqn:E.
  - destruct recent as [|a r]; [discriminate E|].
    exists r. reflexivity.
  - exists recent. reflexivity.
Qed.

Lemma remember_bounded recent x :
  length recent <= max_recent_transcriptions ->
  length (remember recent x) <= max_recent_transcriptions.
Proof.
  unfold remember. intros H.
  destruct (_ <? _) eqn:E.
  - destruct recent as [|a r]; simpl in *; [lia|].
    rewrite length_app in *. simpl in *. lia.
  - apply Nat.ltb_ge in E. exact E.
Qed.

(** C1.  In every state the program can be in, a call of [on_transcription]
    after whose merge the buffer, stripped of trailing ellipses, is
    non-empty, ends in one of [. ! ? ;] and has at least 20 characters,
    hands exactly that text, once, to the translation stage, appends its
    lower-cased form to [recent_transcriptions], and leaves the buffer empty
    with both time stamps [None]. *)
Theorem sentence_completion_emits st text now :
  reachable st ->
  let c := strip_ellipsis (strip (buffer_after_merge st text)) in
  c <> [] -> ends_sentence c -> 20 <= length c ->
  on_transcription st text now =
    (mkState (is_translating st) [] None None
       (remember (recent_transcriptions st) (lower c)), [c])
  /\ exists older,
       recent_transcriptions (fst (on_transcription st text now))
       = older ++ [lower c].
Proof.
  intros Hr c Hne Hend Hlen. subst c.
  unfold buffer_after_merge in *.
  destruct (accepted st text) eqn:Ha.
  - assert (E : on_transcription st text now =
      (mkState (is_translating st) [] None None
         (remember (recent_transcriptions st)
            (lower (strip_ellipsis (strip (merged_buffer st text))))),
       [strip_ellipsis (strip (merged_buffer st text))])).
    { rewrite on_transcription_eq, Ha.
      unfold completion_test.
      apply is_sentence_complete_iff in Hend. rewrite Hend. simpl.
      unfold candidate.
      destruct (_ <? 20) eqn:El; [apply Nat.ltb_lt in El; lia | reflexivity]. }
    split; [exact E|]. rewrite E. simpl. apply remember_appends.
  - exfalso. apply is_sentence_complete_iff in Hend.
    rewrite (reachable_not_complete st Hr) in Hend. discriminate.
Qed.

Lemma sentence_completion_emits_witness :
  let st := fst (on_transcription init_state (py "This is a complete") 1) in
  sentence_buffer st = py "This is a complete"
  /\ on_transcription st (py "a complete sentence.") 2 =
       (mkState false [] None None [py "this is a complete sentence."],
        [py "This is a complete sentence."]).
Proof.
  intros st. split; [reflexivity|].
  assert (Hr : reachable st) by (apply reach_fragment, reach_init).
  assert (H1 : strip_ellipsis (strip (buffer_after_merge st (py "a complete sentence."))) <> [])
    by (vm_compute; discriminate).
  assert (H2 : ends_sentence (strip_ellipsis (strip (buffer_after_merge st (py "a complete sentence."))))).
  { exists dot. split; [reflexivity | simpl; tauto]. }
  assert (H3 : 20 <= length (strip_ellipsis (strip (buffer_after_merge st (py "a complete sentence.")))))
    by (vm_compute; lia).
  exact (proj1 (sentence_completion_emits st (py "a complete sentence.") 2 Hr H1 H2 H3)).
Defined.

(** C6.  No sentence of fewer than 20 characters reaches the translation
    stage, from [on_transcription] or from the stop-time flush, and no call
    emits more than one.  A merged buffer that passes the test of line 690
    but whose ellipsis-stripped text has fewer than 20 characters is dropped:
    nothing is emitted, [recent_transcriptions] is untouched, and the buffer
    and its time stamps are cleared. *)
Theorem emitted_sentences_long_enough :
  (forall st text now s,
      In s (snd (on_transcription st text now)) -> 20 <= length s)
  /\ (forall st text now, length (snd (on_transcription st text now)) <= 1)
  /\ (forall st s, In s (snd (flush_pending st)) -> 20 <= length s)
  /\ (forall st s, In s (snd (stop_translation_process st)) -> 20 <= length s)
  /\ (forall st text now,
        accepted st text = true ->
        completion_test st text now = true ->
        length (candidate st text) < 20 ->
        on_transcription st text now =
          (mkState (is_translating st) [] None None (recent_transcriptions st),
           [])).
Proof.
  assert (Hf : forall st s, In s (snd (flush_pending st)) -> 20 <= length s).
  { intros st s. unfold flush_pending. cbn [snd].
    destruct (_ && _) eqn:E; [|contradiction].
    apply andb_true_iff in E. destruct E as [_ E]. apply Nat.leb_le in E.
    unfold min_sentence_length in E.
    intros [<-|[]]. lia. }
  split; [|split; [|split; [exact Hf|split]]].
  - intros st text now s. rewrite on_transcription_eq.
    destruct (accepted st text); [|contradiction].
    destruct (completion_test st text now); [|contradiction].
    destruct (_ <? 20) eqn:El; [contradiction|].
    apply Nat.ltb_ge in El. intros [<-|[]]. exact El.
  - intros st text now. rewrite on_transcription_eq.
    destruct (accepted st text); [|simpl; lia].
    destruct (completion_test st text now); [|simpl; lia].
    destruct (_ <? 20); simpl; lia.
  - intros st s. unfold stop_translation_process.
    destruct (negb (is_translating st)); [contradiction|]. apply Hf.
  - intros st text now Ha Hc Hl. rewrite on_transcription_eq, Ha, Hc.
    apply Nat.ltb_lt in Hl. rewrite Hl. reflexivity.
Qed.

Lemma emitted_sentences_long_enough_witness :
  on_transcription init_state (py "Too short.") 1
  = (mkState false [] None None [], []).
Proof.
  apply (proj2 (proj2 (proj2 (proj2 emitted_sentences_long_enough)))).
  - reflexivity.
  - reflexivity.
  - vm_compute. lia.
Defined.

(** ** The stop-time flush *)

Lemma pending_state_buffer :
  sentence_buffer pending_state
  = py "the meeting will start after lunch in the main hall ...".
Proof. reflexivity. Qed.

Lemma flush_runs_emission_procedure_counterexample :
  reachable pending_state
  /\ sentence_buffer pending_state <> []
  /\ min_sentence_length <= length (sentence_buffer pending_state)
  /\ snd (flush_pending pending_state)
     <> [strip_ellipsis (strip (sentence_buffer pending_state))]
  /\ recent_transcriptions (fst (flush_pending pending_state))
     <> remember (recent_transcriptions pending_state)
          (lower (strip_ellipsis (strip (sentence_buffer pending_state)))).
Proof.
  split; [apply reach_fragment, reach_init|].
  split; [vm_compute; discriminate|].
  split; [vm_compute; lia|].
  split; vm_compute; discriminate.
Qed.

(** C4, as the code has it.  When the buffer holds something other than
    whitespace and has at least [min_sentence_length] (50) characters, the
    flush hands exactly one sentence to the translation stage, the buffer
    text as it stands (no ellipsis stripping on this path), leaves
    [recent_transcriptions] as it was, and clears the buffer and both time
    stamps. *)
Theorem flush_emits_buffer_as_is st :
  strip (sentence_buffer st) <> [] ->
  min_sentence_length <= length (sentence_buffer st) ->
  flush_pending st =
    (mkState (is_translating st) [] None None (recent_transcriptions st),
     [sentence_buffer st])
  /\ (is_translating st = true ->
      stop_translation_process st =
        (mkState false [] None None (recent_transcriptions st),
         [sentence_buffer st])).
Proof.
  intros Hb Hl.
  assert (E : negb (isnil (strip (sentence_buffer st)))
              && (min_sentence_length <=? length (sentence_buffer st)) = true).
  { apply andb_true_iff. split.
    - apply negb_true_iff, isnil_false. exact Hb.
    - apply Nat.leb_le. exact Hl. }
  split.
  - unfold flush_pending, clear_buffer. rewrite E. reflexivity.
  - intros Ht. unfold stop_translation_process. rewrite Ht. cbn [negb].
    unfold flush_pending, clear_buffer.
    cbn [sentence_buffer is_translating recent_transcriptions].
    rewrite E. reflexivity.
Qed.

Lemma flush_emits_buffer_as_is_witness :
  flush_pending pending_state =
    (mkState false [] None None [],
     [py "the meeting will start after lunch in the main hall ..."]).
Proof.
  apply (flush_emits_buffer_as_is pending_state).
  - vm_compute. discriminate.
  - vm_compute. lia.
Defined.

(** ** Merging: the near-restatement shortcut *)

Lemma similarity_empty_buffer fragment : _calculate_similarity [] fragment = 0%Q.
Proof. reflexivity. Qed.

Lemma merge_similar_eq buffer fragment :
  Qgtb (_calculate_similarity buffer (_clean_word_loops fragment)) (8 # 10) = true ->
  _merge_fragments buffer fragment =
  if length (_clean_word_loops fragment) <? length buffer then buffer
  else _clean_word_loops fragment.
Proof.
  intros H. unfold _merge_fragments.
  destruct buffer as [|c buffer].
  - rewrite similarity_empty_buffer in H. discriminate.
  - cbn [isnil]. rewrite H. reflexivity.
Qed.

Lemma merge_near_restatement_counterexample :
  ~ (Qgtb (_calculate_similarity hello_today (_clean_word_loops hello_todai))
          (8 # 10) = true
     /\ (_merge_fragments hello_today hello_todai = hello_today
         \/ _merge_fragments hello_today hello_todai = hello_todai)).
Proof.
  intros [H _]. vm_compute in H. discriminate.
Qed.

(** C5, as the code has it.  Whenever the word-set similarity between the
    buffer and the loop-cleaned fragment exceeds 0.8, the merge returns one
    of the two unchanged, without concatenating: the buffer when it is
    strictly longer, the loop-cleaned fragment otherwise.
    ["hello world today"] and ["hello world todai"] share two of four
    distinct words, similarity 1/2, so they are not such a case: their merge
    is the concatenation. *)
Theorem merge_near_restatement buffer fragment :
  Qgtb (_calculate_similarity buffer (_clean_word_loops fragment)) (8 # 10) = true ->
  (_merge_fragments buffer fragment =
     if length (_clean_word_loops fragment) <? length buffer then buffer
     else _clean_word_loops fragment)
  /\ length (_merge_fragments buffer fragment)
     = Nat.max (length buffer) (length (_clean_word_loops fragment))
  /\ _calculate_similarity hello_today (_clean_word_loops hello_todai) = (2 # 4)%Q
  /\ _merge_fragments hello_today hello_todai
     = py "hello world today hello world todai".
Proof.
  intros H. rewrite (merge_similar_eq buffer fragment H).
  split; [reflexivity|]. split; [|split; reflexivity].
  destruct (_ <? _) eqn:E.
  - apply Nat.ltb_lt in E. lia.
  - apply Nat.ltb_ge in E. lia.
Qed.

Lemma merge_near_restatement_witness :
  _merge_fragments (py "we will meet again on monday")
                   (py "we will meet again on monday morning")
  = py "we will meet again on monday morning"
  /\ _merge_fragments (py "we will meet again on monday morning")
                      (py "we will meet again on monday")
     = py "we will meet again on monday morning".
Proof.
  split.
  - refine (proj1 (merge_near_restatement (py "we will meet again on monday")
                     (py "we will meet again on monday morning") _)).
    reflexivity.
  - refine (proj1 (merge_near_restatement
                     (py "we will meet again on monday morning")
                     (py "we will meet again on monday") _)).
    reflexivity.
Defined.

(** ** Merging: the overlap of buffer tail and fragment head *)

Lemma overlap_at_spec bw fw i :
  overlap_at bw fw i = true <-> skipn (length bw - i) bw = firstn i fw.
Proof. unfold overlap_at. apply words_eqb_spec. Qed.

Lemma scan_all_S bw fw m :
  scan_all bw fw (S m) =
  if overlap_at bw fw (S m) then S m else scan_all bw fw m.
Proof.
  unfold scan_all. rewrite seq_S, fold_left_app. reflexivity.
Qed.

Lemma scan_all_spec bw fw m :
  (scan_all bw fw m = 0
   /\ forall i, 1 <= i <= m -> overlap_at bw fw i = false)
  \/ (1 <= scan_all bw fw m <= m
      /\ overlap_at bw fw (scan_all bw fw m) = true
      /\ forall i, scan_all bw fw m < i <= m -> overlap_at bw fw i = false).
Proof.
  induction m as [|m IH].
  - left. split; [reflexivity|]. intros i Hi. lia.
  - rewrite scan_all_S. destruct (overlap_at bw fw (S m)) eqn:E.
    + right. split; [lia|]. split; [exact E|]. intros i Hi. lia.
    + destruct IH as [[H0 Hn]|[Hr [Ht Hn]]].
      * left. split; [exact H0|]. intros i Hi.
        destruct (Nat.eq_dec i (S m)) as [->|Hne]; [exact E|].
        apply Hn. lia.
      * right. split; [lia|]. split; [exact Ht|]. intros i Hi.
        destruct (Nat.eq_dec i (S m)) as [->|Hne]; [exact E|].
        apply Hn. lia.
Qed.

Lemma scan_first_keeps bw fw l acc :
  (forall i, In i l -> overlap_at bw fw i = true -> i <= acc) ->
  scan_first bw fw l acc = acc.
Proof.
  induction l as [|i l IH]; intros H; [reflexivity|]. simpl.
  destruct (overlap_at bw fw i) eqn:E.
  - apply Nat.max_l. apply H; [left; reflexivity | exact E].
  - apply IH. intros j Hj. apply H. right. exact Hj.
Qed.

(** The second scan never changes what the first one found. *)
Lemma find_overlap_scan_all bw fw :
  find_overlap bw fw = scan_all bw fw (Nat.min (length bw) (length fw)).
Proof.
  unfold find_overlap. apply scan_first_keeps.
  intros i Hi Ht. apply in_seq in Hi.
  destruct (scan_all_spec bw fw (Nat.min (length bw) (length fw)))
    as [[_ Hn]|[_ [_ Hn]]].
  - rewrite Hn in Ht by lia. discriminate.
  - destruct (Nat.le_gt_cases i (scan_all bw fw (Nat.min (length bw) (length fw))))
      as [Hle|Hgt]; [exact Hle|].
    rewrite Hn in Ht by lia. discriminate.
Qed.

Lemma find_overlap_largest bw fw : largest_overlap bw fw (find_overlap bw fw).
Proof.
  rewrite find_overlap_scan_all. unfold largest_overlap, is_overlap.
  destruct (scan_all_spec bw fw (Nat.min (length bw) (length fw)))
    as [[H0 Hn]|[Hr [Ht Hn]]].
  - right. split; [exact H0|]. intros j [Hj Hm].
    apply overlap_at_spec in Hm. rewrite Hn in Hm by exact Hj. discriminate.
  - left. split.
    + split; [exact Hr | apply overlap_at_spec; exact Ht].
    + intros j [Hj Hm]. apply overlap_at_spec in Hm.
      destruct (Nat.le_gt_cases j (scan_all bw fw (Nat.min (length bw) (length fw))))
        as [Hle|Hgt]; [exact Hle|].
      rewrite Hn in Hm by lia. discriminate.
Qed.

(** With no overlap found, the single-word test of line 639 cannot fire. *)
Lemma last_word_is_first_overlap bw fw :
  last_word_is_first bw fw = true -> is_overlap bw fw 1.
Proof.
  unfold last_word_is_first, is_overlap.
  destruct (rev bw) as [|b r] eqn:Er; [discriminate|].
  destruct fw as [|f fw]; [discriminate|].
  intros H. apply str_eqb_spec in H. subst f.
  apply (f_equal (@rev str)) in Er. rewrite rev_involutive in Er.
  simpl in Er. subst bw. rewrite length_app. simpl. split; [lia|].
  replace (length (rev r) + 1 - 1) with (length (rev r)) by lia.
  rewrite skipn_app, skipn_all, Nat.sub_diag. reflexivity.
Qed.

(** C2.  For a non-empty buffer and a fragment whose similarity to it
    (after loop-cleaning the fragment) is at most 0.8, the merge is the
    loop-cleaned, stripped concatenation of the buffer, one space, and the
    fragment's words without the first [k], where [k] is the largest length
    in [1 .. min] at which the buffer's last words equal the fragment's first
    words, or, with [k = 0] when there is none, the whole fragment. *)
Theorem merge_drops_largest_overlap buffer fragment :
  buffer <> [] ->
  Qgtb (_calculate_similarity buffer (_clean_word_loops fragment)) (8 # 10) = false ->
  let bw := split buffer in
  let fw := split (_clean_word_loops fragment) in
  largest_overlap bw fw (find_overlap bw fw)
  /\ _merge_fragments buffer fragment
     = merge_spec buffer fragment (find_overlap bw fw).
Proof.
  intros Hb Hs bw fw. split; [apply find_overlap_largest|].
  unfold _merge_fragments, merge_spec.
  apply isnil_false in Hb. rewrite Hb, Hs.
  fold bw fw.
  pose proof (find_overlap_largest bw fw) as Hk.
  destruct (find_overlap bw fw) as [|k] eqn:Ek.
  - cbn [Nat.ltb Nat.leb Nat.eqb].
    destruct (last_word_is_first bw fw) eqn:El; [|reflexivity].
    exfalso. apply last_word_is_first_overlap in El.
    destruct Hk as [[[Hk _] _]|[_ Hk]]; [lia | exact (Hk 1 El)].
  - reflexivity.
Qed.

Lemma merge_drops_largest_overlap_witness :
  _merge_fragments (py "I went to the") (py "to the store")
  = py "I went to the store"
  /\ find_overlap (split (py "I went to the")) (split (py "to the store")) = 2.
Proof.
  split; [|reflexivity].
  assert (H1 : py "I went to the" <> []) by discriminate.
  assert (H2 : Qgtb (_calculate_similarity (py "I went to the")
                       (_clean_word_loops (py "to the store"))) (8 # 10) = false)
    by reflexivity.
  rewrite (proj2 (merge_drops_largest_overlap (py "I went to the")
                    (py "to the store") H1 H2)).
  reflexivity.
Defined.

(** ** Cleaning twice *)

Lemma clean_word_loops_idempotent_counterexample :
  _clean_word_loops new_car = py "new new car"
  /\ _clean_word_loops (_clean_word_loops new_car) = py "new car"
  /\ _clean_word_loops (_clean_word_loops new_car) <> _clean_word_loops new_car.
Proof.
  split; [reflexivity|]. split; [reflexivity|]. vm_compute. discriminate.
Qed.

Lemma clean_words_head w rest :
  exists tail, clean_words (w :: rest) = w :: tail.
Proof.
  rewrite clean_words_cons.
  destruct (count_run (loop_key w) rest) as [|[|n]]; eexists; reflexivity.
Qed.

Lemma count_run_clean_words key ws :
  count_run key ws = 0 -> count_run key (clean_words ws) = 0.
Proof.
  destruct ws as [|w rest]; [reflexivity|].
  destruct (clean_words_head w rest) as [tail ->]. simpl.
  destruct (str_eqb (loop_key w) key); [discriminate | reflexivity].
Qed.

Lemma no_double_fixed ws : no_double ws = true -> clean_words ws = ws.
Proof.
  induction ws as [|w rest IH]; intros H; [reflexivity|].
  simpl in H. apply andb_true_iff in H. destruct H as [H0 Hr].
  apply Nat.eqb_eq in H0. rewrite clean_words_cons, H0.
  f_equal. apply IH. exact Hr.
Qed.

Lemma no_triple_cleaned ws :
  no_triple ws = true -> no_double (clean_words ws) = true.
Proof.
  remember (length ws) as n eqn:En. revert ws En.
  induction n as [n IH] using lt_wf_ind. intros ws En H.
  destruct ws as [|w rest]; [reflexivity|].
  simpl in H. apply andb_true_iff in H. destruct H as [Hc Hr].
  apply Nat.ltb_lt in Hc. rewrite clean_words_cons.
  destruct (count_run (loop_key w) rest) as [|[|k]] eqn:Ec; [| |lia].
  - simpl. rewrite (count_run_clean_words _ _ Ec). simpl.
    apply (IH (length rest)); [subst n; simpl; lia | reflexivity | exact Hr].
  - destruct rest as [|r rest']; [discriminate Ec|].
    simpl in Ec. destruct (str_eqb (loop_key r) (loop_key w)); [|discriminate].
    injection Ec as Ec. simpl in Hr. apply andb_true_iff in Hr.
    destruct Hr as [_ Hr]. cbn [skipn no_double].
    rewrite (count_run_clean_words _ _ Ec). simpl.
    apply (IH (length rest')); [subst n; simpl; lia | reflexivity | exact Hr].
Qed.

(** C3, as the code has it.  On a text in which no word occurs three or
    more times in a row, cleaning is idempotent.  (Where a word does, a
    second pass can still change the text: of the run of four in [new_car]
    the first pass keeps two words and the second one.) *)
Theorem clean_word_loops_idempotent (x : str) :
  no_triple (split x) = true ->
  _clean_word_loops (_clean_word_loops x) = _clean_word_loops x.
Proof.
  intros H. remember (_clean_word_loops x) as y eqn:Ey.
  unfold _clean_word_loops in Ey.
  destruct (length (split x) <? 3) eqn:E; subst y.
  - unfold _clean_word_loops. rewrite E. reflexivity.
  - unfold _clean_word_loops.
    rewrite split_join by (apply clean_words_Forall, split_words).
    rewrite (no_double_fixed _ (no_triple_cleaned _ H)).
    destruct (length (clean_words (split x)) <? 3); reflexivity.
Qed.

Lemma clean_word_loops_idempotent_witness :
  _clean_word_loops (py "the the cat sat sat down") = py "the cat sat down"
  /\ _clean_word_loops (_clean_word_loops (py "the the cat sat sat down"))
     = _clean_word_loops (py "the the cat sat sat down").
Proof.
  split; [reflexivity|].
  apply (clean_word_loops_idempotent (py "the the cat sat sat down")).
  reflexivity.
Defined.

(** ** Sample bounds under rounding *)

Lemma Qle_bool_false x y : Qle_bool x y = false -> (y < x)%Q.
Proof.
  intros H. apply Qnot_le_lt. intros K. apply Qle_bool_iff in K. congruence.
Qed.

Lemma Qgtb_true x y : Qgtb x y = true <-> (y < x)%Q.
Proof.
  unfold Qgtb. rewrite negb_true_iff. split.
  - apply Qle_bool_false.
  - intros H. destruct (Qle_bool x y) eqn:E; [|reflexivity].
    apply Qle_bool_iff in E. exfalso. exact (Qlt_not_le _ _ H E).
Qed.

Lemma Qgtb_false x y : Qgtb x y = false <-> (x <= y)%Q.
Proof.
  unfold Qgtb. rewrite negb_false_iff. apply Qle_bool_iff.
Qed.

Lemma Qabsv_nonneg x : (0 <= Qabsv x)%Q.
Proof.
  unfold Qabsv. destruct (Qle_bool 0 x) eqn:E.
  - apply Qle_bool_iff. exact E.
  - apply Qle_bool_false in E. lra.
Qed.

Lemma within_Qabsv x : within (Qabsv x) x.
Proof.
  unfold within, Qabsv. destruct (Qle_bool 0 x) eqn:E.
  - apply Qle_bool_iff in E. lra.
  - apply Qle_bool_false in E. lra.
Qed.

Lemma Qabsv_within b x : within b x -> (Qabsv x <= b)%Q.
Proof.
  unfold within, Qabsv. intros [H1 H2]. destruct (Qle_bool 0 x); lra.
Qed.

Lemma within_weaken a b x : (a <= b)%Q -> within a x -> within b x.
Proof. unfold within. intros H [H1 H2]. lra. Qed.

Lemma Qmaxb_l x y : (x <= Qmaxb x y)%Q.
Proof.
  unfold Qmaxb. destruct (Qle_bool x y) eqn:E.
  - apply Qle_bool_iff. exact E.
  - lra.
Qed.

Lemma Qmaxb_r x y : (y <= Qmaxb x y)%Q.
Proof.
  unfold Qmaxb. destruct (Qle_bool x y) eqn:E.
  - lra.
  - apply Qle_bool_false in E. lra.
Qed.

Lemma Qmaxb_lub x y b : (x <= b)%Q -> (y <= b)%Q -> (Qmaxb x y <= b)%Q.
Proof. unfold Qmaxb. destruct (Qle_bool x y); tauto. Qed.

Lemma fold_max_spec xs m0 :
  let p := fold_left (fun m y => Qmaxb m (Qabsv y)) xs m0 in
  (m0 <= p)%Q /\ Forall (within p) xs
  /\ forall b, (m0 <= b)%Q -> Forall (within b) xs -> (p <= b)%Q.
Proof.
  revert m0. induction xs as [|x xs IH]; intros m0; simpl.
  - split; [lra|]. split; [constructor|]. intros b H _. exact H.
  - destruct (IH (Qmaxb m0 (Qabsv x))) as [H1 [H2 H3]].
    pose proof (Qmaxb_l m0 (Qabsv x)). pose proof (Qmaxb_r m0 (Qabsv x)).
    split; [lra|]. split.
    + constructor; [|exact H2].
      apply (within_weaken (Qabsv x)); [lra | apply within_Qabsv].
    + intros b Hb Hall. inversion Hall; subst. apply H3; [|assumption].
      apply Qmaxb_lub; [exact Hb | apply Qabsv_within; assumption].
Qed.

(** What [np.abs(xs).max()] returns bounds every entry, is not negative,
    and is below every bound of the entries. *)
Lemma abs_max_spec xs p :
  abs_max xs = Returned p ->
  (0 <= p)%Q /\ Forall (within p) xs
  /\ forall b, Forall (within b) xs -> (p <= b)%Q.
Proof.
  destruct xs as [|x xs]; [discriminate|]. simpl. intros H.
  injection H as <-.
  destruct (fold_max_spec xs (Qabsv x)) as [H1 [H2 H3]].
  pose proof (Qabsv_nonneg x).
  split; [lra|]. split.
  - constructor; [|exact H2].
    apply (within_weaken (Qabsv x)); [exact H1 | apply within_Qabsv].
  - intros b Hall. inversion Hall; subst. apply H3; [|assumption].
    apply Qabsv_within. assumption.
Qed.

Lemma abs_max_returns xs : xs <> [] -> exists p, abs_max xs = Returned p.
Proof. destruct xs; [contradiction|]. intros _. eexists. reflexivity. Qed.

Lemma wrap16_id z : (-32768 <= z <= 32767)%Z -> wrap16 z = z.
Proof.
  intros H. unfold wrap16. rewrite Z.mod_small by lia. lia.
Qed.

Lemma Qtrunc_within q : within (65535 # 2) q -> (-32767 <= Qtrunc q <= 32767)%Z.
Proof.
  destruct q as [n d]. unfold within, Qtrunc, Qle. simpl.
  intros [H1 H2].
  assert (Hd : (0 < Z.pos d)%Z) by lia.
  pose proof (Z.quot_rem' n (Z.pos d)) as E.
  destruct (Z.le_gt_cases 0 n) as [Hn|Hn].
  - pose proof (Z.rem_bound_pos n (Z.pos d) Hn Hd).
    pose proof (Z.quot_pos n (Z.pos d) Hn Hd). nia.
  - assert (Hn' : (n <= 0)%Z) by lia.
    pose proof (Z.rem_bound_pos_neg n (Z.pos d) Hd Hn'). nia.
Qed.

Lemma to_int16_ok q : within (65535 # 2) q -> sample_ok (to_int16 q).
Proof.
  intros H. apply Qtrunc_within in H. unfold to_int16, sample_ok.
  rewrite wrap16_id by lia. lia.
Qed.

Section FloatBounds.

Local Open Scope Q_scope.

(** What the bounds need of the two roundings.  Round-to-nearest on
    [float32] is monotone and odd, and it leaves integers up to [2^24] and
    the half-integer 32767.5 alone (they are representable).  The rounding
    of the quotient keeps the sign, and on [1/4, 1] its relative error is
    below [2^-23], whether it rounds once or twice. *)
Variable rnd : Q -> Q.
Hypothesis rnd_mono : forall x y, x <= y -> rnd x <= rnd y.
Hypothesis rnd_opp : forall x, rnd (- x) == - rnd x.
Hypothesis rnd_int :
  forall n : Z, (Z.abs n <= 16777216)%Z -> rnd (inject_Z n) == inject_Z n.
Hypothesis rnd_half : rnd (65535 # 2) == 65535 # 2.
Variable rnd_quot : Q -> Q.
Hypothesis rnd_quot_nonneg : forall x, 0 <= x -> 0 <= rnd_quot x.
Hypothesis rnd_quot_rel :
  forall x, 1 # 4 <= x -> x <= 1 -> rnd_quot x <= x * (1 + (1 # 8388608)).

Lemma rnd_within b x : rnd b == b -> within b x -> within b (rnd x).
Proof.
  unfold within. intros Hb [H1 H2]. split.
  - rewrite <- Hb at 1. rewrite <- rnd_opp. apply rnd_mono. exact H1.
  - rewrite <- Hb. apply rnd_mono. exact H2.
Qed.

Lemma rnd_fix_int (n : Z) : (Z.abs n <= 16777216)%Z -> rnd (n # 1) == n # 1.
Proof. exact (rnd_int n). Qed.

Lemma rnd_unit v : 0 <= v <= 1 -> 0 <= rnd v <= 1.
Proof.
  intros [H0 H1]. split.
  - rewrite <- (rnd_fix_int 0) by (simpl; lia). apply rnd_mono. exact H0.
  - rewrite <- (rnd_fix_int 1) by (simpl; lia). apply rnd_mono. exact H1.
Qed.

Lemma within_mul_unit b x v : 0 <= v <= 1 -> within b x -> within b (x * v).
Proof. unfold within. intros [H0 H1] [H2 H3]. split; nra. Qed.

Lemma sample_within n : int16 n -> within 32768 (rnd (inject_Z n)).
Proof.
  intros [H1 H2]. unfold within. rewrite rnd_int by lia.
  unfold inject_Z, Qle. simpl. lia.
Qed.

Lemma scaled_within samples v :
  Forall int16 samples -> 0 <= v <= 1 ->
  Forall (within 32768) (scaled rnd samples v).
Proof.
  intros Hs Hv. unfold scaled. apply Forall_map.
  apply (Forall_impl _ (P := int16)); [|exact Hs].
  intros n Hn. unfold fmul.
  apply rnd_within; [apply (rnd_fix_int 32768); simpl; lia|].
  apply within_mul_unit; [apply rnd_unit; exact Hv | apply sample_within; exact Hn].
Qed.

Lemma fadd_within a b c x y :
  rnd c == c -> a + b <= c -> within a x -> within b y ->
  within c (fadd rnd x y).
Proof.
  intros Hc Hab [H1 H2] [H3 H4]. unfold fadd. apply rnd_within; [exact Hc|].
  unfold within. split; lra.
Qed.

Lemma zero_within : within 0 0.
Proof. unfold within. split; lra. Qed.

Lemma pad_zeros_within b xs n :
  0 <= b -> Forall (within b) xs -> Forall (within b) (pad_zeros xs n).
Proof.
  intros Hb H. unfold pad_zeros. apply Forall_app. split; [exact H|].
  apply Forall_forall. intros x Hx. apply repeat_spec in Hx. subst.
  unfold within. split; lra.
Qed.

Lemma add_arrays_within a b c xs ys :
  rnd c == c -> a + b <= c ->
  Forall (within a) xs -> Forall (within b) ys ->
  Forall (within c) (add_arrays rnd xs ys).
Proof.
  intros Hc Hab Hx. revert ys. induction Hx as [|x xs Hx0 Hx IH]; intros ys Hy.
  - constructor.
  - destruct ys as [|y ys]; [constructor|]. inversion Hy; subst. simpl.
    constructor; [|apply IH; assumption].
    apply (fadd_within a b); assumption.
Qed.

Lemma add_from_within a b c dst k src :
  rnd c == c -> a + b <= c -> a <= c ->
  Forall (within a) dst -> Forall (within b) src ->
  Forall (within c) (add_from rnd dst k src).
Proof.
  intros Hc Hab Hac Hd. revert k src.
  induction Hd as [|x dst Hx Hd IH]; intros k src Hs.
  - destruct k; constructor.
  - destruct k as [|k].
    + destruct src as [|y src].
      * simpl. constructor.
        -- apply (within_weaken a); assumption.
        -- apply (Forall_impl _ (P := within a)); [|exact Hd].
           intros z. apply within_weaken. exact Hac.
      * inversion Hs; subst. simpl. constructor.
        -- apply (fadd_within a b); assumption.
        -- apply (IH O). assumption.
    + simpl. constructor.
      * apply (within_weaken a); assumption.
      * apply IH. exact Hs.
Qed.

Lemma add_slice_within a b c dst start stop src out :
  rnd c == c -> a + b <= c -> a <= c ->
  Forall (within a) dst -> Forall (within b) src ->
  add_slice rnd dst start stop src = Returned out ->
  Forall (within c) out.
Proof.
  intros Hc Hab Hac Hd Hs. unfold add_slice.
  destruct (_ =? length src)%nat.
  - intros E. injection E as <-. apply (add_from_within a b); assumption.
  - destruct src as [|y [|? ?]]; try discriminate.
    intros E. injection E as <-. apply (add_from_within a b); try assumption.
    inversion Hs; subst. apply Forall_forall. intros z Hz.
    apply repeat_spec in Hz. subst. assumption.
Qed.

(** The scale factor [32767 / max_val] of a peak above 32767 brings every
    entry to at most 32767.5 in magnitude, rounding included. *)
Lemma rescaled_within p x :
  32767 < p -> p <= 65536 -> within p x ->
  within (65535 # 2) (fmul rnd x (fdiv rnd_quot 32767 p)).
Proof.
  intros Hp1 Hp2 [H1 H2]. unfold fmul, fdiv.
  apply rnd_within; [exact rnd_half|].
  assert (Hq : 32767 / p * p == 32767) by (field; lra).
  assert (Hlo : 1 # 4 <= 32767 / p).
  { apply Qle_shift_div_l; lra. }
  assert (Hhi : 32767 / p <= 1).
  { apply Qle_shift_div_r; lra. }
  pose proof (rnd_quot_rel _ Hlo Hhi) as Hf.
  assert (Hf0 : 0 <= rnd_quot (32767 / p)) by (apply rnd_quot_nonneg; lra).
  set (f := rnd_quot (32767 / p)) in *. set (q := 32767 / p) in *.
  assert (Hpf : p * f <= 65535 # 2) by nra.
  unfold within. split; nra.
Qed.

Lemma normalize_ok mixed out :
  Forall (within 65536) mixed ->
  normalize rnd rnd_quot mixed = Returned out -> Forall sample_ok out.
Proof.
  intros Hm. unfold normalize.
  destruct (abs_max mixed) as [p|] eqn:Ep; [|discriminate].
  destruct (abs_max_spec mixed p Ep) as [Hp0 [Hall Hlub]].
  specialize (Hlub 65536 Hm).
  intros E. injection E as <-. apply Forall_map.
  destruct (Qgtb p 32767) eqn:Eg.
  - apply Qgtb_true in Eg. apply Forall_map.
    apply (Forall_impl _ (P := within p)); [|exact Hall].
    intros x Hx. apply to_int16_ok. apply rescaled_within; assumption.
  - apply Qgtb_false in Eg.
    apply (Forall_impl _ (P := within p)); [|exact Hall].
    intros x Hx. apply to_int16_ok.
    apply (within_weaken p); [lra | exact Hx].
Qed.

Lemma mix_sum_within config original translation :
  Forall int16 original -> Forall int16 translation ->
  0 <= original_volume config <= 1 ->
  0 <= translation_volume config <= 1 ->
  forall out,
    mix_audio_arrays rnd rnd_quot config original translation = Returned out ->
    Forall sample_ok out.
Proof.
  intros Ho Ht Hv1 Hv2 out. unfold mix_audio_arrays.
  apply normalize_ok.
  apply (add_arrays_within 32768 32768);
    [apply (rnd_fix_int 65536); simpl; lia | lra | |].
  - destruct (_ <? _)%nat;
      [apply pad_zeros_within; [lra|] |]; apply scaled_within; assumption.
  - destruct (_ <? _)%nat;
      [apply pad_zeros_within; [lra|] |]; apply scaled_within; assumption.
Qed.

Lemma overlay_sum_within config original translation delay_samples :
  Forall int16 original -> Forall int16 translation ->
  0 <= original_volume config <= 1 ->
  0 <= translation_volume config <= 1 ->
  forall out,
    overlay_at rnd rnd_quot config original translation delay_samples = Returned out ->
    Forall sample_ok out.
Proof.
  intros Ho Ht Hv1 Hv2 out. unfold overlay_at.
  destruct (add_slice rnd (repeat 0 _) 0 _ _) as [m1|] eqn:E1; [|discriminate].
  destruct (add_slice rnd m1 _ _ _) as [m2|] eqn:E2; [|discriminate].
  apply normalize_ok.
  apply (add_slice_within 32768 32768 65536) in E2;
    [exact E2 | apply (rnd_fix_int 65536); simpl; lia | lra | lra | |
     apply scaled_within; assumption].
  apply (add_slice_within 0 32768 32768) in E1;
    [exact E1 | apply (rnd_fix_int 32768); simpl; lia | lra | lra | |
     apply scaled_within; assumption].
  apply Forall_forall. intros x Hx. apply repeat_spec in Hx. subst.
  apply zero_within.
Qed.

End FloatBounds.

(** ** Lengths and outcomes of the mixer, for any rounding *)

Lemma scaled_length rnd samples v : length (scaled rnd samples v) = length samples.
Proof. unfold scaled. apply length_map. Qed.

Lemma add_arrays_length rnd xs ys :
  length (add_arrays rnd xs ys) = Nat.min (length xs) (length ys).
Proof.
  revert ys. induction xs as [|x xs IH]; intros [|y ys]; simpl; try reflexivity.
  rewrite IH. reflexivity.
Qed.

Lemma pad_zeros_length xs n : length (pad_zeros xs n) = length xs + n.
Proof. unfold pad_zeros. rewrite length_app, repeat_length. reflexivity. Qed.

Lemma pad_zeros_0 xs : pad_zeros xs 0 = xs.
Proof. unfold pad_zeros. simpl. apply app_nil_r. Qed.

Lemma add_from_length rnd dst k src : length (add_from rnd dst k src) = length dst.
Proof.
  revert k src. induction dst as [|x dst IH]; intros k src.
  - destruct k; reflexivity.
  - destruct k as [|k].
    + destruct src as [|y src]; [reflexivity|]. simpl. rewrite (IH O). reflexivity.
    + simpl. rewrite IH. reflexivity.
Qed.

Lemma normalize_returns rnd rnd_quot mixed :
  mixed <> [] ->
  exists out, normalize rnd rnd_quot mixed = Returned out /\ length out = length mixed.
Proof.
  intros H. unfold normalize.
  destruct (abs_max_returns mixed H) as [p ->].
  eexists. split; [reflexivity|].
  rewrite length_map. destruct (Qgtb p 32767); [apply length_map | reflexivity].
Qed.

Lemma nonempty_length {A} (l : list A) : l <> [] <-> 0 < length l.
Proof.
  destruct l; simpl; split; intros H; try lia; try congruence; discriminate.
Qed.

(** The two guarded [np.pad] calls amount to padding both arrays up to the
    longer length. *)
Lemma mix_audio_arrays_eq rnd rnd_quot config original translation :
  mix_audio_arrays rnd rnd_quot config original translation =
  let max_len := Nat.max (length original) (length translation) in
  normalize rnd rnd_quot
    (add_arrays rnd
       (pad_zeros (scaled rnd original (original_volume config))
                  (max_len - length original))
       (pad_zeros (scaled rnd translation (translation_volume config))
                  (max_len - length translation))).
Proof.
  unfold mix_audio_arrays. rewrite !scaled_length. cbv zeta.
  set (m := Nat.max (length original) (length translation)).
  destruct (length original <? m) eqn:E1; destruct (length translation <? m) eqn:E2;
    try reflexivity.
  - apply Nat.ltb_ge in E2.
    replace (m - length translation) with 0 by lia.
    rewrite pad_zeros_0. reflexivity.
  - apply Nat.ltb_ge in E1.
    replace (m - length original) with 0 by lia.
    rewrite pad_zeros_0. reflexivity.
  - apply Nat.ltb_ge in E1. apply Nat.ltb_ge in E2.
    replace (m - length original) with 0 by lia.
    replace (m - length translation) with 0 by lia.
    rewrite !pad_zeros_0. reflexivity.
Qed.

Lemma mix_returns rnd rnd_quot config original translation :
  original <> [] \/ translation <> [] ->
  exists out,
    mix_audio_arrays rnd rnd_quot config original translation = Returned out
    /\ length out = Nat.max (length original) (length translation).
Proof.
  intros H. rewrite mix_audio_arrays_eq. cbv zeta.
  set (m := Nat.max (length original) (length translation)).
  assert (Hm : 0 < m).
  { destruct H as [H|H]; apply nonempty_length in H; lia. }
  match goal with |- context [normalize rnd rnd_quot ?l] => set (mixed := l) end.
  assert (Hl : length mixed = m).
  { unfold mixed. rewrite add_arrays_length, !pad_zeros_length, !scaled_length. lia. }
  destruct (normalize_returns rnd rnd_quot mixed) as [out [E1 E2]].
  { apply nonempty_length. lia. }
  exists out. split; [exact E1 | lia].
Qed.

Lemma norm_index_inside len i : (0 <= i <= len)%Z -> norm_index len i = i.
Proof.
  intros H. unfold norm_index.
  destruct (i <? 0)%Z eqn:E; [apply Z.ltb_lt in E; lia | lia].
Qed.

Lemma add_slice_inside rnd dst start src :
  (0 <= start)%Z ->
  (start + Z.of_nat (length src) <= Z.of_nat (length dst))%Z ->
  add_slice rnd dst start (start + Z.of_nat (length src)) src
  = Returned (add_from rnd dst (Z.to_nat start) src).
Proof.
  intros H0 H1. unfold add_slice.
  rewrite !norm_index_inside by lia.
  replace (Z.to_nat (Z.max 0 (start + Z.of_nat (length src) - start)))
    with (length src) by lia.
  rewrite Nat.eqb_refl. reflexivity.
Qed.

Lemma overlay_returns rnd rnd_quot config original translation delay_samples :
  (0 <= delay_samples)%Z ->
  original <> [] \/ translation <> [] \/ (0 < delay_samples)%Z ->
  exists out,
    overlay_at rnd rnd_quot config original translation delay_samples = Returned out
    /\ Z.of_nat (length out)
       = Z.max (Z.of_nat (length original))
               (delay_samples + Z.of_nat (length translation)).
Proof.
  intros Hd Hne. unfold overlay_at.
  set (oa := scaled rnd original (original_volume config)).
  set (ta := scaled rnd translation (translation_volume config)).
  assert (Lo : length oa = length original) by apply scaled_length.
  assert (Lt : length ta = length translation) by apply scaled_length.
  set (total := Z.max (Z.of_nat (length oa)) (delay_samples + Z.of_nat (length ta))).
  assert (Hz : length (repeat 0%Q (Z.to_nat total)) = Z.to_nat total)
    by apply repeat_length.
  pose proof (add_slice_inside rnd (repeat 0%Q (Z.to_nat total)) 0 oa) as E1.
  simpl (0 + _)%Z in E1. rewrite E1 by lia. clear E1.
  set (m1 := add_from rnd (repeat 0%Q (Z.to_nat total)) (Z.to_nat 0) oa).
  assert (L1 : length m1 = Z.to_nat total).
  { unfold m1. rewrite add_from_length. exact Hz. }
  rewrite (add_slice_inside rnd m1 delay_samples ta) by lia.
  set (m2 := add_from rnd m1 (Z.to_nat delay_samples) ta).
  assert (L2 : length m2 = Z.to_nat total).
  { unfold m2. rewrite add_from_length. exact L1. }
  assert (Hpos : (0 < total)%Z).
  { destruct Hne as [H|[H|H]]; [apply nonempty_length in H | apply nonempty_length in H |];
      lia. }
  destruct (normalize_returns rnd rnd_quot m2) as [out [E1 E2]].
  { apply nonempty_length. lia. }
  exists out. split; [exact E1|]. lia.
Qed.

(** ** What the normalisation returns *)

Lemma fold_max_in xs m0 :
  let p := fold_left (fun m y => Qmaxb m (Qabsv y)) xs m0 in
  p = m0 \/ In p (map Qabsv xs).
Proof.
  revert m0. induction xs as [|x xs IH]; intros m0; simpl; [left; reflexivity|].
  destruct (IH (Qmaxb m0 (Qabsv x))) as [H|H].
  - rewrite H. unfold Qmaxb. destruct (Qle_bool m0 (Qabsv x)).
    + right. left. reflexivity.
    + left. reflexivity.
  - right. right. exact H.
Qed.

Lemma abs_max_in xs p : abs_max xs = Returned p -> In p (map Qabsv xs).
Proof.
  destruct xs as [|x xs]; [discriminate|]. simpl. intros H. injection H as <-.
  destruct (fold_max_in xs (Qabsv x)) as [H|H].
  - left. symmetry. exact H.
  - right. exact H.
Qed.

Lemma normalize_uniform rnd rnd_quot mixed out :
  normalize rnd rnd_quot mixed = Returned out ->
  uniform_gain rnd rnd_quot mixed out.
Proof.
  unfold normalize. destruct (abs_max mixed) as [p|] eqn:Ep; [|discriminate].
  intros E. injection E as <-. exists p.
  split; [apply abs_max_in; exact Ep|].
  split; [apply (abs_max_spec mixed p Ep)|].
  destruct (Qgtb p 32767); [|reflexivity].
  rewrite map_map. reflexivity.
Qed.

Lemma mix_audio_arrays_sum rnd rnd_quot config original translation :
  mix_audio_arrays rnd rnd_quot config original translation
  = normalize rnd rnd_quot (mix_sum rnd config original translation).
Proof. rewrite mix_audio_arrays_eq. reflexivity. Qed.

Lemma overlay_at_sum rnd rnd_quot config original translation delay_samples :
  (0 <= delay_samples)%Z ->
  overlay_at rnd rnd_quot config original translation delay_samples
  = normalize rnd rnd_quot
      (overlay_sum rnd config original translation delay_samples).
Proof.
  intros Hd. unfold overlay_at, overlay_sum. rewrite !scaled_length.
  set (oa := scaled rnd original (original_volume config)).
  set (ta := scaled rnd translation (translation_volume config)).
  assert (Lo : length oa = length original) by apply scaled_length.
  assert (Lt : length ta = length translation) by apply scaled_length.
  set (total := Z.max (Z.of_nat (length original))
                      (delay_samples + Z.of_nat (length translation))).
  assert (Hz : length (repeat 0%Q (Z.to_nat total)) = Z.to_nat total)
    by apply repeat_length.
  pose proof (add_slice_inside rnd (repeat 0%Q (Z.to_nat total)) 0 oa) as E1.
  simpl (0 + _)%Z in E1. rewrite Lo in E1. rewrite E1 by lia. clear E1.
  set (m1 := add_from rnd (repeat 0%Q (Z.to_nat total)) (Z.to_nat 0) oa).
  assert (L1 : length m1 = Z.to_nat total).
  { unfold m1. rewrite add_from_length. exact Hz. }
  pose proof (add_slice_inside rnd m1 delay_samples ta) as E2.
  rewrite Lt in E2. rewrite E2 by lia. reflexivity.
Qed.

Lemma round_half_even_nonneg num den :
  (0 <= num)%Z -> (0 < den)%Z -> (0 <= round_half_even num den)%Z.
Proof.
  intros Hn Hd. unfold round_half_even.
  pose proof (Z.div_pos num den Hn Hd).
  destruct (2 * (num mod den) ?= den)%Z; [destruct (Z.even _)| |]; lia.
Qed.

Lemma round64_nonneg x : (0 <= x)%Q -> (0 <= round64 x)%Q.
Proof.
  intros H. unfold round64.
  destruct (Qnum x =? 0)%Z eqn:E0; [apply Qle_refl|].
  apply Z.eqb_neq in E0.
  assert (Hn : (0 < Qnum x)%Z).
  { unfold Qle in H. simpl in H. lia. }
  replace (Qnum x <? 0)%Z with false by (symmetry; apply Z.ltb_ge; lia).
  set (e := float_exponent (Z.abs (Qnum x)) (Z.pos (Qden x))).
  destruct (0 <=? e)%Z eqn:Ee.
  - apply Z.leb_le in Ee.
    assert (Hp : (0 < 2 ^ e)%Z) by (apply Z.pow_pos_nonneg; lia).
    pose proof (round_half_even_nonneg (Z.abs (Qnum x)) (Z.pos (Qden x) * 2 ^ e)
                  ltac:(lia) ltac:(lia)) as Hm.
    set (m := round_half_even _ _) in *. clearbody m.
    set (p := (2 ^ e)%Z) in *. clearbody p.
    unfold Qle, inject_Z. cbn [Qnum Qden]. nia.
  - apply Z.leb_gt in Ee.
    assert (Hp : (0 < 2 ^ (- e))%Z) by (apply Z.pow_pos_nonneg; lia).
    pose proof (round_half_even_nonneg (Z.abs (Qnum x) * 2 ^ (- e)) (Z.pos (Qden x))
                  ltac:(nia) ltac:(lia)) as Hm.
    set (m := round_half_even _ _) in *. clearbody m.
    unfold Qle. cbn [Qnum Qden]. lia.
Qed.

Lemma Qtrunc_nonneg q : (0 <= q)%Q -> (0 <= Qtrunc q)%Z.
Proof.
  intros H. unfold Qtrunc. apply Z.quot_pos; [|lia].
  unfold Qle in H. simpl in H. lia.
Qed.

Lemma delay_samples_of_nonneg config delay_ms :
  (0 <= delay_ms)%Z -> (0 <= sample_rate config)%Z ->
  (0 <= delay_samples_of config delay_ms)%Z.
Proof.
  intros Hd Hs. unfold delay_samples_of. apply Qtrunc_nonneg.
  apply round64_nonneg.
  apply Qmult_le_0_compat; apply round64_nonneg.
  - apply Qle_shift_div_l; [reflexivity|].
    unfold Qle, inject_Z. simpl. lia.
  - unfold Qle, inject_Z. simpl. lia.
Qed.

(** Exact arithmetic has what the bounds ask of a rounding. *)

Lemma exact_mono x y : (x <= y)%Q -> (exact x <= exact y)%Q.
Proof. intros H. exact H. Qed.

Lemma exact_opp x : (exact (- x) == - exact x)%Q.
Proof. reflexivity. Qed.

Lemma exact_int (n : Z) :
  (Z.abs n <= 16777216)%Z -> (exact (inject_Z n) == inject_Z n)%Q.
Proof. intros _. reflexivity. Qed.

Lemma exact_half : (exact (65535 # 2) == 65535 # 2)%Q.
Proof. reflexivity. Qed.

Lemma exact_nonneg x : (0 <= x)%Q -> (0 <= exact x)%Q.
Proof. intros H. exact H. Qed.

Lemma exact_half_zero : (exact 0 == 0)%Q.
Proof. reflexivity. Qed.

Lemma exact_rel x :
  (1 # 4 <= x)%Q -> (x <= 1)%Q -> (exact x <= x * (1 + (1 # 8388608)))%Q.
Proof. intros H1 H2. unfold exact. lra. Qed.

(** The delay is a float computation: 9 ms at 24000 Hz is 215 samples,
    where the exact product is 216. *)
Lemma delay_samples_of_rounds :
  delay_samples_of (mkConfig (3 # 10) 1 24000) 9 = 215%Z
  /\ Qtrunc (inject_Z 9 / 1000 * inject_Z 24000) = 216%Z.
Proof. split; vm_compute; reflexivity. Qed.

(** ** The mixer claims *)

Lemma mix_total_counterexample :
  mix_audio_arrays exact exact default_config [] [] = Raised.
Proof. reflexivity. Qed.

(** C9, as the code has it.  For every pair of sample sequences that are
    not both empty, of equal or different lengths, one of them possibly
    empty, [mix_audio_arrays] returns, and what it returns has the length of
    the longer input: the sum it normalises is taken over the two scaled
    arrays, each padded with zeros up to that length. *)
Theorem mix_total_unless_both_empty rnd rnd_quot config original translation :
  original <> [] \/ translation <> [] ->
  (exists out,
     mix_audio_arrays rnd rnd_quot config original translation = Returned out
     /\ length out = Nat.max (length original) (length translation))
  /\ mix_audio_arrays rnd rnd_quot config original translation =
     normalize rnd rnd_quot
       (add_arrays rnd
          (pad_zeros (scaled rnd original (original_volume config))
             (Nat.max (length original) (length translation) - length original))
          (pad_zeros (scaled rnd translation (translation_volume config))
             (Nat.max (length original) (length translation) - length translation))).
Proof.
  intros H. split; [apply mix_returns; exact H | apply mix_audio_arrays_eq].
Qed.

Lemma mix_total_unless_both_empty_witness :
  exists out,
    mix_audio_arrays exact exact default_config [100; -200; 32767]%Z [] = Returned out
    /\ length out = 3.
Proof.
  refine (proj1 (mix_total_unless_both_empty exact exact default_config
                   [100; -200; 32767]%Z [] _)).
  left. discriminate.
Defined.

(** C8.  For [int16] inputs and volumes in [0, 1], every sample that
    [mix_audio_arrays] or [overlay_translation] returns has magnitude at
    most 32767, whatever the delay.  Both functions return a buffer
    whenever there is at least one sample to mix (for the overlay, with a
    delay that is not negative): the mix has the length of the longer input
    and the overlay [max(len(original), delay_samples + len(translation))]
    samples.  What they return is the float sum under uniform gain: when
    the peak of the sum exceeds 32767, every entry is multiplied by the one
    factor [32767 / peak] before the conversion to [int16], and the scaled
    entries stay within 32767.5 under any rounding that behaves as
    [float32] round-to-nearest does; otherwise the sum is converted as it
    is. *)
Theorem mixer_output_in_range
  (rnd : Q -> Q)
  (rnd_mono : forall x y, (x <= y)%Q -> (rnd x <= rnd y)%Q)
  (rnd_opp : forall x, (rnd (- x) == - rnd x)%Q)
  (rnd_int : forall n : Z,
      (Z.abs n <= 16777216)%Z -> (rnd (inject_Z n) == inject_Z n)%Q)
  (rnd_half : (rnd (65535 # 2) == 65535 # 2)%Q)
  (rnd_quot : Q -> Q)
  (rnd_quot_nonneg : forall x, (0 <= x)%Q -> (0 <= rnd_quot x)%Q)
  (rnd_quot_rel : forall x,
      (1 # 4 <= x)%Q -> (x <= 1)%Q ->
      (rnd_quot x <= x * (1 + (1 # 8388608)))%Q)
  (config : MixerConfig) (original translation : list Z) :
  Forall int16 original -> Forall int16 translation ->
  (0 <= original_volume config <= 1)%Q ->
  (0 <= translation_volume config <= 1)%Q ->
  (forall out,
      mix_audio_arrays rnd rnd_quot config original translation = Returned out ->
      Forall sample_ok out)
  /\ (forall delay_samples out,
        overlay_at rnd rnd_quot config original translation delay_samples = Returned out ->
        Forall sample_ok out)
  /\ (forall delay_ms out,
        overlay_translation rnd rnd_quot config original translation delay_ms = Returned out ->
        Forall sample_ok out)
  /\ (original <> [] \/ translation <> [] ->
      exists out,
        mix_audio_arrays rnd rnd_quot config original translation = Returned out
        /\ length out = Nat.max (length original) (length translation)
        /\ uniform_gain rnd rnd_quot
             (mix_sum rnd config original translation) out
        /\ Forall sample_ok out)
  /\ (forall delay_samples,
        (0 <= delay_samples)%Z -> original <> [] \/ translation <> [] ->
        exists out,
          overlay_at rnd rnd_quot config original translation delay_samples = Returned out
          /\ Z.of_nat (length out)
             = Z.max (Z.of_nat (length original))
                     (delay_samples + Z.of_nat (length translation))
          /\ uniform_gain rnd rnd_quot
               (overlay_sum rnd config original translation delay_samples) out
          /\ Forall sample_ok out)
  /\ (forall delay_ms,
        (0 <= delay_ms)%Z -> (0 <= sample_rate config)%Z ->
        original <> [] \/ translation <> [] ->
        (0 <= delay_samples_of config delay_ms)%Z
        /\ exists out,
             overlay_translation rnd rnd_quot config original translation delay_ms
             = Returned out
             /\ Z.of_nat (length out)
                = Z.max (Z.of_nat (length original))
                        (delay_samples_of config delay_ms
                         + Z.of_nat (length translation))
             /\ uniform_gain rnd rnd_quot
                  (overlay_sum rnd config original translation
                               (delay_samples_of config delay_ms)) out
             /\ Forall sample_ok out).
Proof.
  intros Ho Ht Hv1 Hv2.
  assert (Hmix : forall out,
             mix_audio_arrays rnd rnd_quot config original translation = Returned out ->
             Forall sample_ok out).
  { apply mix_sum_within; assumption. }
  assert (Hover : forall delay_samples out,
             overlay_at rnd rnd_quot config original translation delay_samples
             = Returned out -> Forall sample_ok out).
  { intros d. apply overlay_sum_within; assumption. }
  assert (Hat : forall delay_samples,
             (0 <= delay_samples)%Z -> original <> [] \/ translation <> [] ->
             exists out,
               overlay_at rnd rnd_quot config original translation delay_samples
               = Returned out
               /\ Z.of_nat (length out)
                  = Z.max (Z.of_nat (length original))
                          (delay_samples + Z.of_nat (length translation))
               /\ uniform_gain rnd rnd_quot
                    (overlay_sum rnd config original translation delay_samples) out
               /\ Forall sample_ok out).
  { intros d Hd H.
    destruct (overlay_returns rnd rnd_quot config original translation d Hd)
      as [out [E L]]; [tauto|].
    exists out. split; [exact E|]. split; [exact L|]. split.
    - apply normalize_uniform. rewrite <- overlay_at_sum by exact Hd. exact E.
    - apply (Hover d). exact E. }
  split; [exact Hmix|]. split; [exact Hover|]. split; [|split; [|split]].
  - intros d. unfold overlay_translation. apply Hover.
  - intros H.
    destruct (mix_returns rnd rnd_quot config original translation H) as [out [E L]].
    exists out. split; [exact E|]. split; [exact L|]. split.
    + apply normalize_uniform. rewrite <- mix_audio_arrays_sum. exact E.
    + apply Hmix. exact E.
  - exact Hat.
  - intros d Hd Hs H.
    pose proof (delay_samples_of_nonneg config d Hd Hs) as Hn.
    split; [exact Hn|]. unfold overlay_translation. apply Hat; assumption.
Qed.

Lemma mixer_output_in_range_witness :
  (mix_audio_arrays exact exact default_config [100; -200; 32767]%Z [32767; -32768]%Z
   = Returned [32736; -32767; 9811]%Z
   /\ Forall sample_ok [32736; -32767; 9811]%Z)
  /\ exists out,
       overlay_translation exact exact default_config
                           [100; -200; 32767]%Z [32767; -32768]%Z 1
       = Returned out
       /\ Z.of_nat (length out) = 18%Z.
Proof.
  pose proof (mixer_output_in_range exact exact_mono exact_opp exact_int
                exact_half exact exact_nonneg exact_rel default_config
                [100; -200; 32767]%Z [32767; -32768]%Z) as H.
  assert (Ho : Forall int16 [100; -200; 32767]%Z)
    by (repeat constructor; unfold int16; lia).
  assert (Ht : Forall int16 [32767; -32768]%Z)
    by (repeat constructor; unfold int16; lia).
  assert (Hv1 : (0 <= original_volume default_config <= 1)%Q)
    by (simpl; split; lra).
  assert (Hv2 : (0 <= translation_volume default_config <= 1)%Q)
    by (simpl; split; lra).
  specialize (H Ho Ht Hv1 Hv2).
  destruct H as (Hmix & _ & _ & _ & _ & Hdelay).
  split.
  - split; [reflexivity|]. apply Hmix. reflexivity.
  - destruct (Hdelay 1%Z) as (_ & out & E & L & _).
    + lia.
    + simpl. lia.
    + left. discriminate.
    + exists out. split; [exact E|]. rewrite L. vm_compute. reflexivity.
Defined.

(** * Further properties *)

(** ** Case and whitespace *)

Lemma isspace_lower c : isspace (lower_char c) = isspace c.
Proof.
  destruct c as [b0 b1 b2 b3 b4 b5 b6 b7].
  destruct b0, b1, b2, b3, b4, b5, b6, b7; reflexivity.
Qed.

Lemma lower_char_idem c : lower_char (lower_char c) = lower_char c.
Proof.
  destruct c as [b0 b1 b2 b3 b4 b5 b6 b7].
  destruct b0, b1, b2, b3, b4, b5, b6, b7; reflexivity.
Qed.

Lemma lower_idem t : lower (lower t) = lower t.
Proof.
  unfold lower. rewrite map_map. apply map_ext. apply lower_char_idem.
Qed.

Lemma lower_length t : length (lower t) = length t.
Proof. apply length_map. Qed.

Lemma lower_all_space t : forallb isspace (lower t) = forallb isspace t.
Proof.
  induction t as [|c t IH]; [reflexivity|]. simpl.
  rewrite isspace_lower, IH. reflexivity.
Qed.

Lemma lstrip_by_first p t c r : lstrip_by p t = c :: r -> p c = false.
Proof.
  induction t as [|x t IH]; simpl; [discriminate|].
  destruct (p x) eqn:E; [exact IH|]. intros H. injection H as <- _. exact E.
Qed.

Lemma rstrip_by_final p t a z : rstrip_by p t = a ++ [z] -> p z = false.
Proof.
  unfold rstrip_by. intros H.
  apply (f_equal (@rev ascii)) in H. rewrite rev_involutive, rev_app_distr in H.
  simpl in H. exact (lstrip_by_first _ _ _ _ H).
Qed.

Lemma rstrip_by_app_all p a suf :
  forallb p suf = true -> rstrip_by p (a ++ suf) = rstrip_by p a.
Proof.
  intros H. unfold rstrip_by. rewrite rev_app_distr. f_equal.
  assert (Hr : forallb p (rev suf) = true).
  { rewrite forallb_forall in *. intros x Hx. apply H. apply in_rev. exact Hx. }
  induction (rev suf) as [|x l IH]; [reflexivity|].
  simpl in Hr. apply andb_true_iff in Hr. destruct Hr as [Hx Hl].
  simpl. rewrite Hx. apply IH. exact Hl.
Qed.

Lemma lstrip_by_all p pre t :
  forallb p pre = true -> lstrip_by p (pre ++ t) = lstrip_by p t.
Proof.
  induction pre as [|x pre IH]; intros H; [reflexivity|].
  simpl in H. apply andb_true_iff in H. destruct H as [Hx H].
  simpl. rewrite Hx. apply IH. exact H.
Qed.

(** A text between two runs of whitespace that itself starts and ends with
    something else is what [strip] returns. *)
Lemma strip_parts pre c q suf :
  forallb isspace pre = true -> forallb isspace suf = true ->
  isspace c = false -> isspace (last q c) = false ->
  strip (pre ++ (c :: q) ++ suf) = c :: q.
Proof.
  intros Hpre Hsuf Hc Hl. unfold strip, rstrip, lstrip.
  rewrite app_assoc, rstrip_by_app_all by exact Hsuf.
  assert (Hr : rstrip_by isspace (pre ++ c :: q) = pre ++ c :: q).
  { destruct (exists_last (l := c :: q)) as [a [z Hz]]; [discriminate|].
    assert (z = last q c).
    { rewrite <- (last_cons_default c c q), Hz. symmetry. apply last_last. }
    subst z. rewrite Hz, app_assoc. apply rstrip_by_last. exact Hl. }
  rewrite Hr, lstrip_by_all by exact Hpre.
  simpl. rewrite Hc. reflexivity.
Qed.

(** Every text is whitespace only, or whitespace around such a core. *)
Lemma strip_cases t :
  (forallb isspace t = true /\ strip t = [])
  \/ (exists pre c q suf,
        t = pre ++ (c :: q) ++ suf
        /\ forallb isspace pre = true /\ forallb isspace suf = true
        /\ isspace c = false /\ isspace (last q c) = false
        /\ strip t = c :: q).
Proof.
  destruct (rstrip_by_split isspace t) as [suf [H1 H2]].
  destruct (lstrip_by_split isspace (rstrip_by isspace t)) as [pre [H3 H4]].
  fold (rstrip t) in *. fold (lstrip (rstrip t)) in H3. fold (strip t) in H3.
  destruct (strip t) as [|c q] eqn:Es.
  - left. split; [|reflexivity]. rewrite H1, H3, app_nil_r, forallb_app, H4, H2.
    reflexivity.
  - right. exists pre, c, q, suf.
    assert (Hc : isspace c = false).
    { unfold strip, lstrip in Es. exact (lstrip_by_first _ _ _ _ Es). }
    assert (Hl : isspace (last q c) = false).
    { destruct (exists_last (l := c :: q)) as [a [z Hz]]; [discriminate|].
      assert (z = last q c).
      { rewrite <- (last_cons_default c c q), Hz. symmetry. apply last_last. }
      subst z. apply (rstrip_by_final isspace t (pre ++ a)).
      fold (rstrip t). rewrite H3, Hz, app_assoc. reflexivity. }
    repeat split; try assumption.
    rewrite H1 at 1. rewrite H3. rewrite <- app_assoc. reflexivity.
Qed.

Lemma strip_idem t : strip (strip t) = strip t.
Proof.
  destruct (strip_cases t) as [[_ ->]|(pre & c & q & suf & _ & _ & _ & Hc & Hl & ->)];
    [reflexivity|].
  pose proof (strip_parts [] c q [] eq_refl eq_refl Hc Hl) as K.
  simpl in K. rewrite app_nil_r in K. exact K.
Qed.

Lemma lstrip_by_nil_all p t : forallb p t = true -> lstrip_by p t = [].
Proof.
  induction t as [|x t IH]; intros H; [reflexivity|].
  simpl in H. apply andb_true_iff in H. destruct H as [Hx H].
  simpl. rewrite Hx. apply IH. exact H.
Qed.

Lemma strip_lstrip t : strip (lstrip t) = strip t.
Proof.
  destruct (strip_cases t) as [[Ha ->]|(pre & c & q & suf & E & Hp & Hs & Hc & Hl & ->)].
  - unfold lstrip. apply lstrip_by_nil_all in Ha. rewrite Ha. reflexivity.
  - rewrite E at 1. unfold lstrip. rewrite lstrip_by_all by exact Hp.
    simpl lstrip_by. rewrite Hc.
    exact (strip_parts [] c q suf eq_refl Hs Hc Hl).
Qed.

Lemma last_map {A B} (f : A -> B) (q : list A) (c : A) :
  last (map f q) (f c) = f (last q c).
Proof.
  revert c. induction q as [|x q IH]; intros c; [reflexivity|].
  destruct q as [|y q]; [reflexivity|].
  change (last (map f (y :: q)) (f c) = f (last (y :: q) c)). apply IH.
Qed.

Lemma strip_lower t : strip (lower t) = lower (strip t).
Proof.
  destruct (strip_cases t) as [[Ha Hs]|(pre & c & q & suf & E & Hp & Hs & Hc & Hl & Hst)].
  - rewrite Hs. simpl.
    destruct (strip_cases (lower t)) as [[_ K]|(pre & c & q & suf & E & _ & _ & Hc & _ & _)];
      [exact K|].
    rewrite <- lower_all_space in Ha. rewrite E in Ha.
    rewrite !forallb_app in Ha. simpl in Ha. rewrite Hc in Ha.
    rewrite andb_false_r in Ha. discriminate.
  - rewrite Hst. rewrite E at 1. unfold lower. rewrite !map_app. simpl map.
    apply strip_parts.
    + fold (lower pre). rewrite lower_all_space. exact Hp.
    + fold (lower suf). rewrite lower_all_space. exact Hs.
    + rewrite isspace_lower. exact Hc.
    + rewrite last_map, isspace_lower. exact Hl.
Qed.

Lemma stripped_strip t : stripped (strip t).
Proof. apply strip_idem. Qed.

Lemma stripped_nonblank t : stripped t -> t <> [] -> split t <> [].
Proof.
  unfold stripped. intros Hs Hne. apply strip_nonempty_iff.
  rewrite Hs. exact Hne.
Qed.

(** ** Word-set similarity *)

Lemma mem_In w l : mem w l = true <-> In w l.
Proof.
  unfold mem. rewrite existsb_exists. split.
  - intros [x [Hx E]]. apply str_eqb_spec in E. subst. exact Hx.
  - intros H. exists w. split; [exact H | apply str_eqb_refl].
Qed.

Lemma set_inter_In a b x : In x (set_inter a b) <-> In x a /\ In x b.
Proof. unfold set_inter. rewrite filter_In, mem_In. tauto. Qed.

Lemma set_inter_NoDup a b : NoDup a -> NoDup (set_inter a b).
Proof. apply NoDup_filter. Qed.

Lemma set_union_In a b x : In x (set_union a b) <-> In x a \/ In x b.
Proof. unfold set_union. rewrite nodup_In, in_app_iff. tauto. Qed.

Lemma NoDup_same_length (l l' : list str) :
  NoDup l -> NoDup l' -> (forall x, In x l <-> In x l') -> length l = length l'.
Proof.
  intros H1 H2 H. apply Nat.le_antisymm; apply NoDup_incl_length;
    try assumption; intros x Hx; apply H; exact Hx.
Qed.

Lemma set_inter_length_comm a b :
  NoDup a -> NoDup b -> length (set_inter a b) = length (set_inter b a).
Proof.
  intros Ha Hb. apply NoDup_same_length; try (apply set_inter_NoDup; assumption).
  intros x. rewrite !set_inter_In. tauto.
Qed.

Lemma set_union_length_comm a b :
  length (set_union a b) = length (set_union b a).
Proof.
  apply NoDup_same_length; try apply NoDup_nodup.
  intros x. rewrite !set_union_In. tauto.
Qed.

Lemma set_inter_le_union a b :
  NoDup a -> length (set_inter a b) <= length (set_union a b).
Proof.
  intros Ha. apply NoDup_incl_length; [apply set_inter_NoDup; exact Ha|].
  intros x Hx. apply set_inter_In in Hx. apply set_union_In. tauto.
Qed.

Lemma str_eqb_sym a b : str_eqb a b = str_eqb b a.
Proof.
  destruct (str_eqb a b) eqn:E1, (str_eqb b a) eqn:E2; try reflexivity.
  - apply str_eqb_spec in E1. subst. rewrite str_eqb_refl in E2. discriminate.
  - apply str_eqb_spec in E2. subst. rewrite str_eqb_refl in E1. discriminate.
Qed.

Lemma similarity_unfold s1 s2 :
  _calculate_similarity s1 s2
  = similarity_of_clean (strip (lower s1)) (strip (lower s2)).
Proof. reflexivity. Qed.

Lemma similarity_of_clean_sym a b :
  similarity_of_clean a b = similarity_of_clean b a.
Proof.
  unfold similarity_of_clean.
  rewrite (orb_comm (isnil a)), (str_eqb_sym a b).
  rewrite (orb_comm (isnil (word_set (split a)))).
  rewrite (set_inter_length_comm (word_set (split a)) (word_set (split b)))
    by apply NoDup_nodup.
  rewrite (set_union_length_comm (word_set (split a)) (word_set (split b))).
  reflexivity.
Qed.

Lemma ratio_range i u : i <= u -> 0 < u ->
  (0 <= Z.of_nat i # Pos.of_nat u)%Q /\ (Z.of_nat i # Pos.of_nat u <= 1)%Q.
Proof.
  intros Hiu Hu. unfold Qle. simpl.
  destruct u as [|u]; [lia|].
  rewrite <- Pos.of_nat_succ, Zpos_P_of_succ_nat. lia.
Qed.

Lemma similarity_of_clean_range a b :
  (0 <= similarity_of_clean a b)%Q /\ (similarity_of_clean a b <= 1)%Q.
Proof.
  unfold similarity_of_clean.
  destruct (isnil a || isnil b); [split; discriminate|].
  destruct (str_eqb a b); [split; discriminate|].
  destruct (isnil _ || isnil _); [split; discriminate|].
  destruct (0 <? _) eqn:E; [|split; discriminate].
  apply Nat.ltb_lt in E. apply ratio_range; [|exact E].
  apply set_inter_le_union. apply NoDup_nodup.
Qed.

Lemma similarity_of_clean_blank a b :
  a = [] \/ b = [] -> similarity_of_clean a b = 0%Q.
Proof.
  unfold similarity_of_clean. intros [->| ->]; [reflexivity|].
  rewrite orb_true_r. reflexivity.
Qed.

(** X1.  The similarity lies between 0 and 1, does not depend on the order
    of its arguments, and is 0 unless both texts hold something other than
    whitespace. *)
Theorem similarity_range_symmetric (s1 s2 : str) :
  (0 <= _calculate_similarity s1 s2)%Q
  /\ (_calculate_similarity s1 s2 <= 1)%Q
  /\ _calculate_similarity s1 s2 = _calculate_similarity s2 s1
  /\ (_calculate_similarity s1 s2 = 0%Q \/ (strip s1 <> [] /\ strip s2 <> [])).
Proof.
  rewrite !similarity_unfold.
  split; [apply similarity_of_clean_range|].
  split; [apply similarity_of_clean_range|].
  split; [apply similarity_of_clean_sym|].
  rewrite !strip_lower.
  destruct (strip s1) as [|c1 r1]; [left; apply similarity_of_clean_blank; left; reflexivity|].
  destruct (strip s2) as [|c2 r2]; [left; apply similarity_of_clean_blank; right; reflexivity|].
  right. split; discriminate.
Qed.

(** X2.  Letter case and surrounding whitespace of an argument do not
    matter, and a text compared with itself scores 1, or 0 when it is blank. *)
Theorem similarity_normalises (s1 s2 : str) :
  _calculate_similarity (lower s1) s2 = _calculate_similarity s1 s2
  /\ _calculate_similarity (strip s1) s2 = _calculate_similarity s1 s2
  /\ _calculate_similarity s1 s1 = (if isnil (strip s1) then 0%Q else 1%Q).
Proof.
  rewrite !similarity_unfold. split; [|split].
  - rewrite lower_idem. reflexivity.
  - rewrite <- strip_lower, strip_idem. reflexivity.
  - rewrite strip_lower. unfold similarity_of_clean.
    destruct (strip s1) as [|c r]; [reflexivity|].
    simpl isnil. simpl orb. rewrite str_eqb_refl. reflexivity.
Qed.

(** ** What the accumulator emits and keeps *)

Lemma strip_ellipsis_loop_clean fuel t :
  length t <= fuel -> ends_ellipsis (strip_ellipsis_loop fuel t) = false.
Proof.
  revert t. induction fuel as [|fuel IH]; intros t Hl.
  - destruct t; [reflexivity | simpl in Hl; lia].
  - simpl. destruct (ends_ellipsis t) eqn:E; [|exact E].
    apply IH. pose proof (ellipsis_step_shorter t E). lia.
Qed.

Lemma strip_ellipsis_clean t : ends_ellipsis (strip_ellipsis t) = false.
Proof. apply strip_ellipsis_loop_clean. lia. Qed.

Lemma strip_ellipsis_stripped u : stripped (strip_ellipsis (strip u)).
Proof.
  unfold strip_ellipsis.
  destruct (strip_ellipsis_loop_stripped (length (strip u)) u) as [v ->].
  apply stripped_strip.
Qed.

Lemma clean_fragment_stripped text : stripped (clean_fragment text).
Proof. apply strip_ellipsis_stripped. Qed.

Lemma last_app_nonempty {A} (a b : list A) (d : A) :
  b <> [] -> last (a ++ b) d = last b d.
Proof.
  intros Hb. induction a as [|x a IH]; [reflexivity|].
  simpl app. destruct (a ++ b) eqn:E.
  - apply app_eq_nil in E. destruct E as [_ E]. contradiction.
  - rewrite <- E in *. rewrite <- IH. rewrite E. reflexivity.
Qed.

Lemma last_in_nonempty {A} (l : list A) (d : A) : l <> [] -> In (last l d) l.
Proof.
  induction l as [|x l IH]; intros H; [contradiction|].
  destruct l as [|y l]; [left; reflexivity|].
  right. apply IH. discriminate.
Qed.

Lemma word_ends w : is_word w ->
  exists c q, w = c :: q /\ isspace c = false /\ isspace (last q c) = false.
Proof.
  intros [Hne Hw]. destruct w as [|c q]; [contradiction|].
  exists c, q. split; [reflexivity|].
  unfold nospace in Hw. rewrite forallb_forall in Hw.
  split.
  - apply negb_true_iff. apply Hw. left. reflexivity.
  - apply negb_true_iff. apply Hw.
    destruct q as [|y q]; [left; reflexivity|].
    right. apply last_in_nonempty. discriminate.
Qed.

Lemma join_ends ws :
  Forall is_word ws -> ws <> [] ->
  exists c q, join space ws = c :: q
              /\ isspace c = false /\ isspace (last q c) = false.
Proof.
  induction ws as [|w ws IH]; intros H Hne; [contradiction|].
  inversion H as [|? ? Hw Hws]; subst.
  destruct (word_ends w Hw) as (c & q & -> & Hc & Hl).
  destruct ws as [|w2 ws].
  - exists c, q. simpl. tauto.
  - destruct (IH Hws) as (c2 & q2 & E2 & Hc2 & Hl2); [discriminate|].
    exists c, (q ++ space ++ join space (w2 :: ws)).
    split; [reflexivity|]. split; [exact Hc|].
    rewrite E2. rewrite app_assoc.
    rewrite last_app_nonempty by discriminate.
    rewrite last_cons_default. exact Hl2.
Qed.

Lemma join_stripped ws : Forall is_word ws -> stripped (join space ws).
Proof.
  intros H. destruct ws as [|w ws]; [reflexivity|].
  destruct (join_ends (w :: ws) H) as (c & q & E & Hc & Hl); [discriminate|].
  unfold stripped. rewrite E.
  pose proof (strip_parts [] c q [] eq_refl eq_refl Hc Hl) as K.
  simpl in K. rewrite app_nil_r in K. exact K.
Qed.

Lemma clean_stripped t : stripped t -> stripped (_clean_word_loops t).
Proof.
  intros H. unfold _clean_word_loops.
  destruct (_ <? 3); [exact H|].
  apply join_stripped. apply clean_words_Forall. apply split_words.
Qed.

Lemma merge_stripped buffer fragment :
  stripped buffer -> stripped fragment ->
  stripped (_merge_fragments buffer fragment).
Proof.
  intros Hb Hf. unfold _merge_fragments.
  destruct (isnil buffer); [apply clean_stripped; exact Hf|].
  destruct (Qgtb _ _).
  - destruct (_ <? _); [exact Hb | apply clean_stripped; exact Hf].
  - apply stripped_strip.
Qed.

Lemma remember_Forall (P : str -> Prop) recent x :
  Forall P recent -> P x -> Forall P (remember recent x).
Proof.
  intros Hr Hx. unfold remember.
  assert (H : Forall P (recent ++ [x])).
  { apply Forall_app. split; [exact Hr | constructor; [exact Hx | constructor]]. }
  destruct (_ <? _); [|exact H].
  destruct (recent ++ [x]); [constructor|]. inversion H; assumption.
Qed.

Lemma on_transcription_state_ok st text now :
  state_ok st -> state_ok (fst (on_transcription st text now)).
Proof.
  intros (Hb & Hl & Hf). rewrite on_transcription_eq.
  destruct (accepted st text); [|repeat split; assumption].
  destruct (completion_test st text now).
  - destruct (length (candidate st text) <? 20) eqn:E.
    + repeat split; simpl; assumption || reflexivity.
    + apply Nat.ltb_ge in E. split; [reflexivity|]. simpl. split.
      * apply remember_bounded. exact Hl.
      * apply remember_Forall; [exact Hf|].
        split; [apply lower_idem|]. split; [rewrite lower_length; exact E|].
        unfold stripped. rewrite strip_lower. f_equal.
        apply strip_ellipsis_stripped.
  - split; [|split; assumption]. simpl.
    apply merge_stripped; [exact Hb | apply clean_fragment_stripped].
Qed.

Lemma reachable_state_ok st : reachable st -> state_ok st.
Proof.
  induction 1 as [|st _ IH|st text now _ IH|st _ IH].
  - repeat split; simpl; try lia. constructor.
  - unfold start_translation_process. destruct (is_translating st); exact IH.
  - apply on_transcription_state_ok. exact IH.
  - unfold stop_translation_process.
    destruct (negb (is_translating st)); [exact IH|].
    destruct IH as (Hb & Hl & Hf). repeat split; simpl; assumption || reflexivity.
Qed.

(** X3.  In every state the program can be in, the buffer that stands
    between calls has no surrounding whitespace and does not pass the
    punctuation test. *)
Theorem standing_buffer_shape st :
  reachable st ->
  strip (sentence_buffer st) = sentence_buffer st
  /\ _is_sentence_complete (sentence_buffer st) = false.
Proof.
  intros H. split.
  - apply (reachable_state_ok st H).
  - apply reachable_not_complete. exact H.
Qed.

Lemma standing_buffer_shape_witness :
  strip (sentence_buffer pending_state) = sentence_buffer pending_state
  /\ _is_sentence_complete (sentence_buffer pending_state) = false.
Proof.
  apply standing_buffer_shape. apply reach_fragment, reach_init.
Defined.

(** X4.  [recent_transcriptions] never holds more than ten entries, and
    each entry is a lower-cased text of at least 20 characters. *)
Theorem history_bounded st :
  reachable st ->
  length (recent_transcriptions st) <= 10
  /\ Forall (fun e => lower e = e /\ 20 <= length e) (recent_transcriptions st).
Proof.
  intros H. destruct (reachable_state_ok st H) as (_ & Hl & Hf).
  split; [exact Hl|].
  apply (Forall_impl _ (P := fun e => lower e = e /\ 20 <= length e /\ stripped e));
    [|exact Hf].
  intros e (H1 & H2 & _). split; assumption.
Qed.

Lemma history_bounded_witness :
  let st := fst (on_transcription
                   (fst (on_transcription init_state (py "This is a complete") 1))
                   (py "a complete sentence.") 2) in
  recent_transcriptions st = [py "this is a complete sentence."]
  /\ length (recent_transcriptions st) <= 10.
Proof.
  intros st. split; [reflexivity|].
  apply (history_bounded st). apply reach_fragment, reach_fragment, reach_init.
Defined.


Lemma candidate_self_similar c :
  stripped c -> c <> [] ->
  _calculate_similarity (strip (lower c)) (lower c) = 1%Q.
Proof.
  intros Hs Hne. rewrite similarity_unfold.
  rewrite (strip_lower c), Hs, lower_idem, strip_lower, Hs.
  unfold similarity_of_clean.
  destruct c as [|x c]; [contradiction|]. simpl isnil. simpl orb.
  rewrite str_eqb_refl. reflexivity.
Qed.

(** X5.  A sentence that [on_transcription] has just emitted is a duplicate
    for [_is_duplicate] in the state the call leaves. *)
Theorem emitted_is_duplicate st text now st' c :
  on_transcription st text now = (st', [c]) ->
  _is_duplicate st' c = true.
Proof.
  rewrite on_transcription_eq.
  destruct (accepted st text); [|discriminate].
  destruct (completion_test st text now); [|discriminate].
  destruct (length (candidate st text) <? 20) eqn:El; [discriminate|].
  intros E. injection E as <- <-. apply Nat.ltb_ge in El.
  unfold _is_duplicate. simpl recent_transcriptions.
  apply existsb_exists. exists (lower (candidate st text)). split.
  - destruct (remember_appends (recent_transcriptions st) (lower (candidate st text)))
      as [older ->].
    apply in_or_app. right. left. reflexivity.
  - rewrite candidate_self_similar; [reflexivity | apply strip_ellipsis_stripped |].
    intros K. rewrite K in El. simpl in El. lia.
Qed.

Lemma emitted_is_duplicate_witness :
  _is_duplicate (mkState false [] None None [py "this is a complete sentence."])
                (py "This is a complete sentence.") = true.
Proof.
  apply (emitted_is_duplicate
           (fst (on_transcription init_state (py "This is a complete") 1))
           (py "a complete sentence.") 2).
  vm_compute. reflexivity.
Defined.

(** X6.  Every sentence that [on_transcription] emits has no surrounding
    whitespace and does not end in an ellipsis. *)
Theorem emitted_sentence_shape st text now s :
  In s (snd (on_transcription st text now)) ->
  strip s = s /\ ends_ellipsis s = false /\ s <> [].
Proof.
  rewrite on_transcription_eq.
  destruct (accepted st text); [|contradiction].
  destruct (completion_test st text now); [|contradiction].
  destruct (length (candidate st text) <? 20) eqn:El; [contradiction|].
  apply Nat.ltb_ge in El. intros [<-|[]]. split; [|split].
  - apply strip_ellipsis_stripped.
  - apply strip_ellipsis_clean.
  - intros K. rewrite K in El. simpl in El. lia.
Qed.

Lemma emitted_sentence_shape_witness :
  strip (py "This is a complete sentence.") = py "This is a complete sentence."
  /\ ends_ellipsis (py "This is a complete sentence.") = false.
Proof.
  refine (let H := emitted_sentence_shape
                     (fst (on_transcription init_state (py "This is a complete") 1))
                     (py "a complete sentence.") 2
                     (py "This is a complete sentence.") _ in
          conj (proj1 H) (proj1 (proj2 H))).
  vm_compute. left. reflexivity.
Defined.

Lemma round64_zero x : (x == 0)%Q -> round64 x = 0%Q.
Proof.
  intros H. unfold Qeq in H. simpl in H. rewrite Z.mul_1_r in H.
  unfold round64. rewrite H. reflexivity.
Qed.

Lemma timeout_reached_true t0 now :
  ~ (t0 == 0)%Q -> (sentence_timeout < round64 (now - t0))%Q ->
  timeout_reached (Some t0) now = true.
Proof.
  intros H0 Hlt. unfold timeout_reached.
  destruct (Qeq_bool t0 0) eqn:E; [apply Qeq_bool_iff in E; contradiction|].
  apply Qgtb_true. exact Hlt.
Qed.

(** X7.  Timeout flush: when the buffer was opened at a clock reading
    [t0] other than 0.0, the float difference [now - t0] exceeds 2.5 seconds
    and the merged text has at least 50 characters, a call emits it
    (stripped of trailing ellipses, if at least 20 characters remain) even
    without a sentence mark, records it and clears the buffer. *)
Theorem timeout_emits st text now t0 :
  accepted st text = true ->
  sentence_buffer st <> [] ->
  buffer_start_time st = Some t0 ->
  ~ (t0 == 0)%Q ->
  (sentence_timeout < round64 (now - t0))%Q ->
  min_sentence_length <= length (merged_buffer st text) ->
  20 <= length (candidate st text) ->
  on_transcription st text now =
    (mkState (is_translating st) [] None None
       (remember (recent_transcriptions st) (lower (candidate st text))),
     [candidate st text]).
Proof.
  intros Ha Hb Ht H0 Hlt Hlen Hc.
  rewrite on_transcription_eq, Ha.
  assert (Hs : started st now = Some t0).
  { unfold started. apply isnil_false in Hb. rewrite Hb. exact Ht. }
  unfold completion_test. rewrite Hs, (timeout_reached_true t0 now H0 Hlt).
  apply Nat.leb_le in Hlen. rewrite Hlen, orb_true_r.
  destruct (_ <? 20) eqn:E; [apply Nat.ltb_lt in E; lia | reflexivity].
Qed.

Lemma timeout_emits_witness :
  let st := fst (on_transcription init_state slow_talk 1) in
  sentence_buffer st = slow_talk
  /\ on_transcription st (py "the way that sound") 4 =
       (mkState false [] None None
          [py "so what we are going to look at today is the way that sound"],
        [py "so what we are going to look at today is the way that sound"]).
Proof.
  intros st. split; [reflexivity|].
  apply (timeout_emits st (py "the way that sound") 4 1).
  - vm_compute. reflexivity.
  - vm_compute. discriminate.
  - vm_compute. reflexivity.
  - intros K. discriminate K.
  - vm_compute. reflexivity.
  - vm_compute. lia.
  - vm_compute. lia.
Defined.

(** X8.  The call that opens a buffer never emits by timeout: starting from
    an empty buffer, a sentence is emitted only if the merged text passes
    the punctuation test. *)
Theorem first_fragment_needs_punctuation st text now :
  sentence_buffer st = [] ->
  snd (on_transcription st text now) <> [] ->
  _is_sentence_complete (merged_buffer st text) = true.
Proof.
  intros Hb. rewrite on_transcription_eq.
  destruct (accepted st text); [|intros K; contradiction K; reflexivity].
  destruct (completion_test st text now) eqn:E;
    [|intros K; contradiction K; reflexivity].
  intros _. unfold completion_test in E.
  destruct (_is_sentence_complete (merged_buffer st text)); [reflexivity|].
  exfalso. simpl in E. apply andb_true_iff in E. destruct E as [E _].
  unfold started in E. rewrite Hb in E. simpl in E.
  destruct (Qeq_bool now 0); [discriminate|].
  apply Qgtb_true in E. rewrite round64_zero in E by ring.
  unfold sentence_timeout in E. lra.
Qed.

Lemma first_fragment_needs_punctuation_witness :
  _is_sentence_complete
    (merged_buffer init_state (py "Nobody expected the result at all.")) = true.
Proof.
  apply (first_fragment_needs_punctuation init_state
           (py "Nobody expected the result at all.") 7).
  - vm_compute. reflexivity.
  - vm_compute. discriminate.
Defined.



(** ** More on the word-loop cleaner *)

Lemma count_run_after_run key rest :
  count_run key (skipn (count_run key rest) rest) = 0.
Proof.
  induction rest as [|r rest IH]; [reflexivity|]. simpl.
  destruct (str_eqb (loop_key r) key) eqn:E; [exact IH|].
  simpl. rewrite E. reflexivity.
Qed.

Lemma subseq_refl l : subseq l l.
Proof. induction l; [constructor | apply subseq_keep; assumption]. Qed.

Lemma subseq_skipn n a l : subseq a (skipn n l) -> subseq a l.
Proof.
  revert l. induction n as [|n IH]; intros l H; [exact H|].
  destruct l as [|x l]; [exact H|]. apply subseq_skip. apply IH. exact H.
Qed.

Lemma subseq_length a b : subseq a b -> length a <= length b.
Proof. induction 1; simpl; lia. Qed.

Lemma clean_words_subseq ws : subseq (clean_words ws) ws.
Proof.
  remember (length ws) as n eqn:En. revert ws En.
  induction n as [n IH] using lt_wf_ind. intros ws En.
  destruct ws as [|w rest]; [constructor|].
  assert (Hs : forall k, length (skipn k rest) <= length rest).
  { intros k. rewrite length_skipn. lia. }
  rewrite clean_words_cons.
  destruct (count_run (loop_key w) rest) as [|[|k]] eqn:Ec.
  - apply subseq_keep.
    apply (IH (length rest)); [subst n; simpl; lia | reflexivity].
  - apply subseq_keep. apply (subseq_skipn 1).
    apply (IH (length (skipn 1 rest))); [|reflexivity].
    specialize (Hs 1). subst n. cbn -[skipn] in *. lia.
  - apply subseq_keep. destruct rest as [|next rest']; [discriminate Ec|].
    cbn [app skipn]. apply subseq_keep. apply (subseq_skipn (S k)).
    apply (IH (length (skipn (S k) rest'))); [|reflexivity].
    subst n. rewrite length_skipn. simpl. lia.
Qed.

Lemma clean_words_no_triple ws : no_triple (clean_words ws) = true.
Proof.
  remember (length ws) as n eqn:En. revert ws En.
  induction n as [n IH] using lt_wf_ind. intros ws En.
  destruct ws as [|w rest]; [reflexivity|].
  assert (Hs : forall k, length (skipn k rest) <= length rest).
  { intros k. rewrite length_skipn. lia. }
  pose proof (count_run_after_run (loop_key w) rest) as Hrun.
  rewrite clean_words_cons.
  destruct (count_run (loop_key w) rest) as [|[|k]] eqn:Ec.
  - simpl. rewrite (count_run_clean_words _ _ Ec). simpl.
    apply (IH (length rest)); [subst n; simpl; lia | reflexivity].
  - cbn [no_triple].
    rewrite (count_run_clean_words _ _ Hrun). simpl.
    apply (IH (length (skipn 1 rest))); [|reflexivity].
    specialize (Hs 1). subst n. cbn -[skipn] in *. lia.
  - destruct rest as [|next rest']; [discriminate Ec|].
    assert (Hk : loop_key next = loop_key w).
    { simpl in Ec. destruct (str_eqb (loop_key next) (loop_key w)) eqn:E;
        [apply str_eqb_spec in E; exact E | discriminate]. }
    cbn [app no_triple count_run]. rewrite Hk, str_eqb_refl.
    rewrite (count_run_clean_words _ _ Hrun). simpl.
    apply (IH (length (skipn (S (S k)) (next :: rest')))); [|reflexivity].
    specialize (Hs (S (S k))). subst n. cbn -[skipn] in *. lia.
Qed.

Lemma clean_if_long_split text :
  split (_clean_word_loops text) = clean_if_long (split text).
Proof. apply split_clean. Qed.

Lemma clean_if_long_no_triple ws :
  no_triple ws = true \/ 3 <= length ws -> no_triple (clean_if_long ws) = true.
Proof.
  unfold clean_if_long. intros H.
  destruct (length ws <? 3) eqn:E; [|apply clean_words_no_triple].
  apply Nat.ltb_lt in E. destruct H as [H|H]; [exact H | lia].
Qed.

Lemma short_no_triple ws : length ws < 3 -> no_triple ws = true.
Proof.
  destruct ws as [|a [|b [|c ws]]]; simpl; intros H; try lia; try reflexivity.
  - destruct (str_eqb (loop_key b) (loop_key a)); reflexivity.
Qed.

(** X10.  Cleaning only drops words: the words of the result are the words
    of the text with some left out, in the same order, and among them no
    word stands three or more times in a row. *)
Theorem clean_word_loops_drops_only (text : str) :
  subseq (split (_clean_word_loops text)) (split text)
  /\ length (split (_clean_word_loops text)) <= length (split text)
  /\ no_triple (split (_clean_word_loops text)) = true.
Proof.
  rewrite clean_if_long_split. unfold clean_if_long.
  destruct (length (split text) <? 3) eqn:E.
  - apply Nat.ltb_lt in E. split; [apply subseq_refl|]. split; [lia|].
    apply short_no_triple. exact E.
  - split; [apply clean_words_subseq|]. split.
    + apply subseq_length, clean_words_subseq.
    + apply clean_words_no_triple.
Qed.

Lemma clean_idem_no_triple x :
  no_triple (split x) = true ->
  _clean_word_loops (_clean_word_loops x) = _clean_word_loops x.
Proof.
  intros H. remember (_clean_word_loops x) as y eqn:Ey.
  unfold _clean_word_loops in Ey.
  destruct (length (split x) <? 3) eqn:E; subst y.
  - unfold _clean_word_loops. rewrite E. reflexivity.
  - unfold _clean_word_loops.
    rewrite split_join by (apply clean_words_Forall, split_words).
    rewrite (no_double_fixed _ (no_triple_cleaned _ H)).
    destruct (length (clean_words (split x)) <? 3); reflexivity.
Qed.

(** X11.  Two passes of the cleaner reach a fixed point: a third pass
    changes nothing, for every text. *)
Theorem clean_word_loops_settles (text : str) :
  _clean_word_loops (_clean_word_loops (_clean_word_loops text))
  = _clean_word_loops (_clean_word_loops text).
Proof.
  apply clean_idem_no_triple.
  rewrite clean_if_long_split. unfold clean_if_long.
  destruct (length (split text) <? 3) eqn:E.
  - apply short_no_triple. apply Nat.ltb_lt. exact E.
  - apply clean_words_no_triple.
Qed.

(** ** More on the punctuation test *)

Lemma strip_three_dots p : strip (p ++ py "...") = lstrip p ++ py "...".
Proof. apply strip_keeps_tail; reflexivity. Qed.

Lemma strip_ellipsis_three_dots p :
  strip_ellipsis (strip (p ++ py "...")) = strip_ellipsis (strip p).
Proof.
  rewrite strip_three_dots, strip_ellipsis_eq.
  assert (E : ends_ellipsis (lstrip p ++ py "...") = true).
  { unfold ends_ellipsis. rewrite (endswith_app (lstrip p) (py "...")). reflexivity. }
  rewrite E. unfold ellipsis_step.
  change (drop_last 3 (lstrip p ++ py "..."))
    with (drop_last (length (py "...")) (lstrip p ++ py "...")).
  rewrite (drop_last_app (lstrip p) (py "...")), strip_lstrip. reflexivity.
Qed.

(** X12.  Surrounding whitespace and a trailing ellipsis are transparent to
    the punctuation test: [text], [text.strip()] and [text + "..."] are
    judged alike, and so are the fragments cleaned from them. *)
Theorem ellipsis_transparent (text : str) :
  _is_sentence_complete (text ++ py "...") = _is_sentence_complete text
  /\ _is_sentence_complete (strip text) = _is_sentence_complete text
  /\ clean_fragment (text ++ py "...") = clean_fragment text
  /\ clean_fragment (strip text) = clean_fragment text.
Proof.
  split; [|split; [|split]].
  - unfold _is_sentence_complete.
    rewrite strip_ellipsis_three_dots, strip_three_dots.
    destruct (lstrip text ++ py "...") eqn:E.
    { apply app_eq_nil in E. destruct E as [_ E]. discriminate. }
    simpl isnil. destruct (strip text) as [|c r] eqn:Es; [reflexivity|].
    reflexivity.
  - unfold _is_sentence_complete. rewrite strip_idem. reflexivity.
  - unfold clean_fragment. apply strip_ellipsis_three_dots.
  - unfold clean_fragment. rewrite strip_idem. reflexivity.
Qed.

(** ** More on merging *)

Lemma merge_overlap_eq buffer fragment :
  buffer <> [] ->
  Qgtb (_calculate_similarity buffer (_clean_word_loops fragment)) (8 # 10) = false ->
  _merge_fragments buffer fragment
  = merge_spec buffer fragment
      (find_overlap (split buffer) (split (_clean_word_loops fragment))).
Proof.
  intros Hb Hs. unfold _merge_fragments, merge_spec.
  apply isnil_false in Hb. rewrite Hb, Hs.
  set (bw := split buffer). set (fw := split (_clean_word_loops fragment)).
  pose proof (find_overlap_largest bw fw) as Hk.
  destruct (find_overlap bw fw) as [|k] eqn:Ek; [|reflexivity].
  cbn [Nat.ltb Nat.leb Nat.eqb].
  destruct (last_word_is_first bw fw) eqn:El; [|reflexivity].
  exfalso. apply last_word_is_first_overlap in El.
  destruct Hk as [[[Hk _] _]|[_ Hk]]; [lia | exact (Hk 1 El)].
Qed.

(** X13.  Word by word: outside the near-restatement shortcut, the words of
    the merged text are the buffer's words followed by the fragment's words
    beyond the overlap, passed through the cleaner; whitespace inside either
    text plays no part. *)
Theorem merge_words buffer fragment :
  buffer <> [] ->
  Qgtb (_calculate_similarity buffer (_clean_word_loops fragment)) (8 # 10) = false ->
  let bw := split buffer in
  let fw := split (_clean_word_loops fragment) in
  split (_merge_fragments buffer fragment)
  = clean_if_long (bw ++ skipn (find_overlap bw fw) fw).
Proof.
  intros Hb Hs bw fw. rewrite (merge_overlap_eq buffer fragment Hb Hs).
  unfold merge_spec. fold bw fw.
  rewrite split_strip, clean_if_long_split. f_equal.
  change (space ++ ?x) with (" "%char :: x).
  rewrite split_app_space by reflexivity. fold bw. f_equal.
  destruct (find_overlap bw fw) as [|k]; [reflexivity|].
  cbn [Nat.eqb]. apply split_join. apply Forall_skipn. apply split_words.
Qed.

Lemma merge_words_witness :
  split (_merge_fragments (py "I went   to the") (py "to the store  today"))
  = [py "I"; py "went"; py "to"; py "the"; py "store"; py "today"].
Proof.
  refine (eq_trans (merge_words (py "I went   to the") (py "to the store  today") _ _) _).
  - discriminate.
  - vm_compute. reflexivity.
  - vm_compute. reflexivity.
Defined.

(** ** Volume setting *)

Lemma clamp01_range v : (0 <= clamp01 v <= 1)%Q.
Proof.
  unfold clamp01, py_max, py_min.
  destruct (Qgtb 1 v) eqn:E1.
  - apply Qgtb_true in E1. destruct (Qgtb v 0) eqn:E2.
    + apply Qgtb_true in E2. lra.
    + lra.
  - destruct (Qgtb 1 0) eqn:E2; lra.
Qed.

Lemma clamp01_inside v : (0 <= v <= 1)%Q -> (clamp01 v == v)%Q.
Proof.
  intros [H0 H1]. unfold clamp01, py_max, py_min.
  destruct (Qgtb 1 v) eqn:E1.
  - destruct (Qgtb v 0) eqn:E2; [reflexivity|].
    apply Qgtb_false in E2. lra.
  - apply Qgtb_false in E1. change (Qgtb 1 0) with true. cbv iota. lra.
Qed.

Lemma clamp01_above v : (1 <= v)%Q -> (clamp01 v == 1)%Q.
Proof.
  intros H. unfold clamp01, py_max, py_min.
  destruct (Qgtb 1 v) eqn:E1.
  - apply Qgtb_true in E1. lra.
  - reflexivity.
Qed.

Lemma clamp01_below v : (v <= 0)%Q -> (clamp01 v == 0)%Q.
Proof.
  intros H. unfold clamp01, py_max, py_min.
  destruct (Qgtb 1 v) eqn:E1.
  - destruct (Qgtb v 0) eqn:E2; [apply Qgtb_true in E2; lra | reflexivity].
  - apply Qgtb_false in E1. lra.
Qed.

(** X14.  [set_volumes] clamps each volume it is given: whatever is asked
    for, both volumes end in [0, 1]; for either volume a value already in
    [0, 1] is kept, a value of 1 or more gives 1 and a value of 0 or less
    gives 0; an argument left out keeps the old volume, and the sample rate
    is untouched. *)
Theorem set_volumes_clamps (config : MixerConfig) (v1 v2 : Q) :
  let c := set_volumes config (Some v1) (Some v2) in
  (0 <= original_volume c <= 1)%Q
  /\ (0 <= translation_volume c <= 1)%Q
  /\ ((0 <= v1 <= 1)%Q -> (original_volume c == v1)%Q)
  /\ ((1 <= v1)%Q -> (original_volume c == 1)%Q)
  /\ ((v1 <= 0)%Q -> (original_volume c == 0)%Q)
  /\ ((0 <= v2 <= 1)%Q -> (translation_volume c == v2)%Q)
  /\ ((1 <= v2)%Q -> (translation_volume c == 1)%Q)
  /\ ((v2 <= 0)%Q -> (translation_volume c == 0)%Q)
  /\ original_volume (set_volumes config None (Some v2)) = original_volume config
  /\ translation_volume (set_volumes config None (Some v2))
     = translation_volume c
  /\ translation_volume (set_volumes config (Some v1) None)
     = translation_volume config
  /\ original_volume (set_volumes config (Some v1) None) = original_volume c
  /\ set_volumes config None None = config
  /\ sample_rate c = sample_rate config.
Proof.
  cbv zeta. unfold set_volumes. simpl.
  fold (clamp01 v1). fold (clamp01 v2).
  split; [apply clamp01_range|]. split; [apply clamp01_range|].
  split; [apply clamp01_inside|].
  split; [apply clamp01_above|]. split; [apply clamp01_below|].
  split; [apply clamp01_inside|].
  split; [apply clamp01_above|]. split; [apply clamp01_below|].
  repeat split.
Qed.

Lemma set_volumes_clamps_witness :
  (original_volume (set_volumes default_config (Some (1 # 2)) (Some 3)) == 1 # 2)%Q
  /\ (translation_volume (set_volumes default_config (Some (1 # 2)) (Some 3)) == 1)%Q.
Proof.
  pose proof (set_volumes_clamps default_config (1 # 2) 3) as H.
  cbv zeta in H.
  destruct H as (_ & _ & H1 & _ & _ & _ & H2 & _).
  split.
  - apply H1. split; unfold Qle; simpl; lia.
  - apply H2. unfold Qle; simpl; lia.
Defined.

(** ** Continuous mixing, round by round *)

Lemma attenuate_length rnd config chunk :
  length (attenuate rnd config chunk) = length chunk.
Proof. unfold attenuate. rewrite length_map. apply scaled_length. Qed.

Lemma translation_chunk_length (current : list Z) pos chunk_len :
  length (firstn chunk_len (skipn pos current))
  = Nat.min chunk_len (length current - pos).
Proof. rewrite length_firstn, length_skipn. reflexivity. Qed.

Lemma padded_chunk_length (tc : list Z) chunk_len :
  length tc <= chunk_len ->
  length (if length tc <? chunk_len
          then tc ++ repeat 0%Z (chunk_len - length tc) else tc) = chunk_len.
Proof.
  intros H. destruct (length tc <? chunk_len) eqn:E.
  - rewrite length_app, repeat_length. lia.
  - apply Nat.ltb_ge in E. lia.
Qed.

Lemma mix_loop_step_cases rnd rnd_quot config st chunk queued :
  let st0 := match queued with
             | Some translation => mkLoop (Some translation) 0
             | None => st
             end in
  (exists mixed,
      mix_loop_step rnd rnd_quot config st (Some chunk) queued
      = (st0, Played mixed)
      /\ mixed = attenuate rnd config chunk
      /\ (current_translation st0 = None
          \/ exists current, current_translation st0 = Some current
               /\ (length current <= translation_position st0 \/ chunk = [])))
  \/ (exists current tc mixed,
        current_translation st0 = Some current
        /\ translation_position st0 < length current /\ chunk <> []
        /\ length tc = length chunk
        /\ (forall z, In z tc -> In z current \/ z = 0%Z)
        /\ mix_audio_arrays rnd rnd_quot config chunk tc = Returned mixed
        /\ length mixed = length chunk
        /\ mix_loop_step rnd rnd_quot config st (Some chunk) queued
           = (if length current <=? translation_position st0 + length chunk
              then mkLoop None (translation_position st0 + length chunk)
              else mkLoop (Some current) (translation_position st0 + length chunk),
              Played mixed)).
Proof.
  intros st0. unfold mix_loop_step. fold st0.
  destruct (current_translation st0) as [current|] eqn:Ec.
  2:{ left. eexists. split; [reflexivity|]. split; [reflexivity|]. left. reflexivity. }
  set (tc := firstn (length chunk) (skipn (translation_position st0) current)).
  assert (Ltc : length tc = Nat.min (length chunk)
                              (length current - translation_position st0))
    by apply translation_chunk_length.
  destruct (0 <? length tc) eqn:E0.
  - right. apply Nat.ltb_lt in E0.
    set (tc' := if length tc <? length chunk
                then tc ++ repeat 0%Z (length chunk - length tc) else tc).
    assert (L' : length tc' = length chunk) by (apply padded_chunk_length; lia).
    assert (Hlc : 0 < length chunk) by lia.
    assert (Hne : chunk <> []) by (apply nonempty_length; exact Hlc).
    destruct (mix_returns rnd rnd_quot config chunk tc') as [mixed [Em Lm]];
      [left; exact Hne|].
    exists current, tc', mixed.
    split; [reflexivity|]. split; [lia|]. split; [exact Hne|].
    split; [exact L'|]. split.
    + intros z Hz. unfold tc' in Hz.
      assert (Htc : forall y, In y tc -> In y current).
      { intros y Hy. unfold tc in Hy.
        rewrite <- (firstn_skipn (translation_position st0) current).
        apply in_or_app. right.
        rewrite <- (firstn_skipn (length chunk)
                      (skipn (translation_position st0) current)).
        apply in_or_app. left. exact Hy. }
      destruct (length tc <? length chunk).
      * apply in_app_or in Hz. destruct Hz as [Hz|Hz]; [left; apply Htc; exact Hz|].
        right. apply repeat_spec in Hz. exact Hz.
      * left. apply Htc. exact Hz.
    + split; [exact Em|]. split; [rewrite Lm, L'; lia|].
      rewrite Em. reflexivity.
  - left. apply Nat.ltb_ge in E0. eexists. split; [reflexivity|].
    split; [reflexivity|]. right. exists current. split; [reflexivity|].
    clearbody tc.
    destruct chunk as [|c chunk]; [right; reflexivity|]. left.
    cbn [length] in Ltc. lia.
Qed.

(** X15.  With [int16] audio and volumes in [0, 1], a round that gets a
    chunk always plays: the mixing inside the loop does not raise, and what
    is played has exactly as many samples as the chunk. *)
Theorem mix_loop_always_plays rnd rnd_quot config st chunk queued :
  Forall int16 chunk ->
  (forall current, current_translation st = Some current -> Forall int16 current) ->
  (forall translation, queued = Some translation -> Forall int16 translation) ->
  (0 <= original_volume config <= 1)%Q ->
  (0 <= translation_volume config <= 1)%Q ->
  exists st' mixed,
    mix_loop_step rnd rnd_quot config st (Some chunk) queued = (st', Played mixed)
    /\ length mixed = length chunk.
Proof.
  intros _ _ _ _ _.
  destruct (mix_loop_step_cases rnd rnd_quot config st chunk queued)
    as [(mixed & E & -> & _)|(current & tc & mixed & _ & _ & _ & _ & _ & _ & L & E)].
  - eexists. eexists. split; [exact E | apply attenuate_length].
  - eexists. eexists. split; [exact E | exact L].
Qed.

Lemma mix_loop_always_plays_witness :
  exists st' mixed,
    mix_loop_step exact exact default_config (mkLoop (Some [5; 6; 7]%Z) 2)
                  (Some [100; -200]%Z) None
    = (st', Played mixed)
    /\ length mixed = 2.
Proof.
  apply (mix_loop_always_plays exact exact default_config
           (mkLoop (Some [5; 6; 7]%Z) 2) [100; -200]%Z None).
  - repeat constructor; unfold int16; lia.
  - intros current K. injection K as <-. repeat constructor; unfold int16; lia.
  - intros translation K. discriminate K.
  - simpl. split; unfold Qle; simpl; lia.
  - simpl. split; unfold Qle; simpl; lia.
Defined.

Lemma mix_loop_run_idle rnd rnd_quot config pos chunks :
  mix_loop_run rnd rnd_quot config (mkLoop None pos) chunks = mkLoop None pos.
Proof.
  induction chunks as [|c chunks IH]; [reflexivity|]. simpl. exact IH.
Qed.

Lemma mix_loop_run_progress rnd rnd_quot config translation n chunks pos :
  0 < n -> Forall (fun c => length c = n) chunks ->
  pos < length translation ->
  current_translation
    (mix_loop_run rnd rnd_quot config (mkLoop (Some translation) pos) chunks)
  = if length translation <=? pos + length chunks * n then None
    else Some translation.
Proof.
  intros Hn Hall. revert pos.
  induction Hall as [|c chunks Hc Hall IH]; intros pos Hpos.
  - simpl. replace (pos + 0) with pos by lia.
    destruct (length translation <=? pos) eqn:E; [|reflexivity].
    apply Nat.leb_le in E. lia.
  - cbn [mix_loop_run].
    destruct (mix_loop_step_cases rnd rnd_quot config
                (mkLoop (Some translation) pos) c None)
      as [(mixed & _ & _ & [K|(cur & K & [K'|K'])])
         |(cur & tc & mixed & Ecur & _ & _ & _ & _ & _ & _ & E)].
    + discriminate K.
    + simpl in K, K'. injection K as <-. lia.
    + subst c. simpl in Hc. lia.
    + simpl in Ecur. injection Ecur as <-. rewrite E. cbn [fst translation_position].
      rewrite Hc.
      destruct (length translation <=? pos + n) eqn:E1.
      * rewrite mix_loop_run_idle. simpl.
        apply Nat.leb_le in E1.
        destruct (length translation <=? pos + (n + length chunks * n)) eqn:E2;
          [reflexivity|]. apply Nat.leb_gt in E2. lia.
      * apply Nat.leb_gt in E1. rewrite IH by exact E1.
        replace (pos + n + length chunks * n)
          with (pos + length (c :: chunks) * n) by (simpl; lia).
        reflexivity.
Qed.

(** X16.  A translation of [len] samples, played against chunks of [n]
    samples each with nothing new arriving, stays current for exactly the
    rounds whose start lies inside it: after [k] rounds it is finished if
    and only if [k * n >= len]. *)
Theorem translation_consumed rnd rnd_quot config translation n chunks :
  translation <> [] -> 0 < n ->
  Forall (fun c => length c = n) chunks ->
  current_translation
    (mix_loop_run rnd rnd_quot config (mkLoop (Some translation) 0) chunks)
  = if length translation <=? length chunks * n then None
    else Some translation.
Proof.
  intros Hne Hn Hall.
  apply (mix_loop_run_progress rnd rnd_quot config translation n chunks 0 Hn Hall).
  apply nonempty_length. exact Hne.
Qed.

Lemma translation_consumed_witness :
  current_translation
    (mix_loop_run exact exact default_config
       (mkLoop (Some [1; 2; 3; 4; 5]%Z) 0)
       [[10; 10]; [10; 10]]%Z)
  = Some [1; 2; 3; 4; 5]%Z
  /\ current_translation
       (mix_loop_run exact exact default_config
          (mkLoop (Some [1; 2; 3; 4; 5]%Z) 0)
          [[10; 10]; [10; 10]; [10; 10]]%Z)
     = None.
Proof.
  split.
  - refine (eq_trans (translation_consumed exact exact default_config
                        [1; 2; 3; 4; 5]%Z 2 [[10; 10]; [10; 10]]%Z _ _ _) _).
    + discriminate.
    + lia.
    + repeat constructor.
    + reflexivity.
  - refine (eq_trans (translation_consumed exact exact default_config
                        [1; 2; 3; 4; 5]%Z 2 [[10; 10]; [10; 10]; [10; 10]]%Z _ _ _) _).
    + discriminate.
    + lia.
    + repeat constructor.
    + reflexivity.
Defined.

(** ** More sample bounds *)

Lemma Qtrunc_between (a b : Z) (q : Q) :
  (a <= 0 <= b)%Z -> (inject_Z a <= q)%Q -> (q <= inject_Z b)%Q ->
  (a <= Qtrunc q <= b)%Z.
Proof.
  destruct q as [n d]. unfold Qtrunc, Qle, inject_Z. simpl.
  intros Hab H1 H2.
  assert (Hd : (0 < Z.pos d)%Z) by lia.
  pose proof (Z.quot_rem' n (Z.pos d)) as E.
  destruct (Z.le_gt_cases 0 n) as [Hn|Hn].
  - pose proof (Z.rem_bound_pos n (Z.pos d) Hn Hd).
    pose proof (Z.quot_pos n (Z.pos d) Hn Hd). nia.
  - assert (Hn' : (n <= 0)%Z) by lia.
    pose proof (Z.rem_bound_pos_neg n (Z.pos d) Hd Hn'). nia.
Qed.

Lemma sample_ok_int16 s : sample_ok s -> int16 s.
Proof. unfold sample_ok, int16. lia. Qed.

Lemma add_slice_mismatch rnd (dst : list Q) (start : Z) (src : list Q) :
  (start < 0)%Z -> (0 < start + Z.of_nat (length src))%Z ->
  2 <= length src ->
  (start + Z.of_nat (length src) <= Z.of_nat (length dst))%Z ->
  add_slice rnd dst start (start + Z.of_nat (length src)) src = Raised.
Proof.
  intros Hs Hpos Hm Hfit. unfold add_slice.
  set (len := Z.of_nat (length dst)) in *.
  set (m := Z.of_nat (length src)) in *.
  assert (Hb : norm_index len (start + m) = (start + m)%Z).
  { apply norm_index_inside. lia. }
  rewrite Hb.
  assert (Ha : norm_index len start = Z.max (start + len) 0).
  { unfold norm_index. destruct (start <? 0)%Z eqn:E; [reflexivity|].
    apply Z.ltb_ge in E. lia. }
  rewrite Ha.
  destruct (Z.to_nat (Z.max 0 (start + m - Z.max (start + len) 0)) =? length src) eqn:E.
  - apply Nat.eqb_eq in E. exfalso. unfold m, len in *. lia.
  - destruct src as [|y [|z src]]; simpl in Hm; try lia. reflexivity.
Qed.

(** X17.  For a non-negative delay and at least one sample, the overlay
    returns a buffer of [max(len(original), delay_samples +
    len(translation))] samples.  A negative delay that is shorter than a
    translation of two or more samples makes it raise: the slice NumPy
    selects no longer has the translation's length. *)
Theorem overlay_length_and_negative_delay
  rnd rnd_quot config (original translation : list Z) (delay_samples : Z) :
  ((0 <= delay_samples)%Z -> original <> [] \/ translation <> [] ->
   exists out,
     overlay_at rnd rnd_quot config original translation delay_samples
     = Returned out
     /\ Z.of_nat (length out)
        = Z.max (Z.of_nat (length original))
                (delay_samples + Z.of_nat (length translation)))
  /\ ((delay_samples < 0)%Z ->
      (0 < delay_samples + Z.of_nat (length translation))%Z ->
      2 <= length translation ->
      overlay_at rnd rnd_quot config original translation delay_samples
      = Raised).
Proof.
  split.
  - intros Hd Hne.
    apply overlay_returns; [exact Hd | tauto].
  - intros Hd Hpos Hm. unfold overlay_at.
    set (oa := scaled rnd original (original_volume config)).
    set (ta := scaled rnd translation (translation_volume config)).
    assert (Lo : length oa = length original) by apply scaled_length.
    assert (Lt : length ta = length translation) by apply scaled_length.
    set (total := Z.max (Z.of_nat (length oa)) (delay_samples + Z.of_nat (length ta))).
    assert (Hz : length (repeat 0%Q (Z.to_nat total)) = Z.to_nat total)
      by apply repeat_length.
    pose proof (add_slice_inside rnd (repeat 0%Q (Z.to_nat total)) 0 oa) as E1.
    simpl (0 + _)%Z in E1. rewrite E1 by lia. clear E1.
    rewrite add_slice_mismatch; [reflexivity | exact Hd | lia | lia |].
    rewrite add_from_length, Hz. lia.
Qed.

Lemma overlay_length_and_negative_delay_witness :
  (exists out,
     overlay_at exact exact default_config [100; -200]%Z [32767; -32768]%Z 3
     = Returned out
     /\ Z.of_nat (length out) = 5%Z)
  /\ overlay_at exact exact default_config [100; -200; 5; 5; 5; 5]%Z
       [32767; -32768]%Z (-1) = Raised.
Proof.
  split.
  - refine (proj1 (overlay_length_and_negative_delay exact exact default_config
                     [100; -200]%Z [32767; -32768]%Z 3) _ _).
    + lia.
    + left. discriminate.
  - refine (proj2 (overlay_length_and_negative_delay exact exact default_config
                     [100; -200; 5; 5; 5; 5]%Z [32767; -32768]%Z (-1)) _ _ _).
    + lia.
    + simpl. lia.
    + simpl. lia.
Defined.

Section MoreFloatBounds.

Local Open Scope Q_scope.

Variable rnd : Q -> Q.
Hypothesis rnd_mono : forall x y, x <= y -> rnd x <= rnd y.
Hypothesis rnd_opp : forall x, rnd (- x) == - rnd x.
Hypothesis rnd_int :
  forall n : Z, (Z.abs n <= 16777216)%Z -> rnd (inject_Z n) == inject_Z n.
Hypothesis rnd_half : rnd (65535 # 2) == 65535 # 2.
Variable rnd_quot : Q -> Q.
Hypothesis rnd_quot_nonneg : forall x, 0 <= x -> 0 <= rnd_quot x.
Hypothesis rnd_quot_rel :
  forall x, 1 # 4 <= x -> x <= 1 -> rnd_quot x <= x * (1 + (1 # 8388608)).

Lemma attenuated_sample n v :
  int16 n -> 0 <= v <= 1 ->
  no_louder (to_int16 (fmul rnd (rnd (inject_Z n)) (rnd v))) n.
Proof.
  intros [H1 H2] Hv.
  destruct (rnd_unit rnd rnd_mono rnd_int v Hv) as [Hv0 Hv1].
  assert (Hx : rnd (inject_Z n) == inject_Z n) by (apply rnd_int; lia).
  unfold fmul, no_louder, to_int16.
  destruct (Z.le_gt_cases 0 n) as [Hn|Hn].
  - assert (Hq : inject_Z 0 <= inject_Z n).
    { unfold Qle, inject_Z. simpl. lia. }
    change (inject_Z 0) with 0 in Hq.
    assert (B1 : inject_Z 0 <= rnd (rnd (inject_Z n) * rnd v)).
    { rewrite <- (rnd_int 0) by (simpl; lia). apply rnd_mono.
      rewrite Hx. change (inject_Z 0) with 0. nra. }
    assert (B2 : rnd (rnd (inject_Z n) * rnd v) <= inject_Z n).
    { rewrite <- (rnd_int n) at 2 by lia. apply rnd_mono.
      rewrite Hx. nra. }
    pose proof (Qtrunc_between 0 n _ ltac:(lia) B1 B2) as Ht.
    rewrite wrap16_id by lia. split; nia.
  - assert (Hq : inject_Z n <= inject_Z 0).
    { unfold Qle, inject_Z. simpl. lia. }
    change (inject_Z 0) with 0 in Hq.
    assert (B1 : inject_Z n <= rnd (rnd (inject_Z n) * rnd v)).
    { rewrite <- (rnd_int n) at 1 by lia. apply rnd_mono.
      rewrite Hx. nra. }
    assert (B2 : rnd (rnd (inject_Z n) * rnd v) <= inject_Z 0).
    { rewrite <- (rnd_int 0) by (simpl; lia). apply rnd_mono.
      rewrite Hx. change (inject_Z 0) with 0. nra. }
    pose proof (Qtrunc_between n 0 _ ltac:(lia) B1 B2) as Ht.
    rewrite wrap16_id by lia. split; nia.
Qed.

Lemma attenuate_no_louder config chunk :
  Forall int16 chunk -> 0 <= original_volume config <= 1 ->
  Forall2 no_louder (attenuate rnd config chunk) chunk.
Proof.
  intros Hc Hv. unfold attenuate, scaled. rewrite map_map.
  induction Hc as [|n chunk Hn Hc IH]; simpl; constructor; [|exact IH].
  apply attenuated_sample; assumption.
Qed.

(** X18.  No sample of a round wraps around in the conversion to [int16].
    With [int16] chunks and translations and volumes in [0, 1]: when the
    round mixes a translation in, every played sample has magnitude at most
    32767; when it does not, every played sample is the original sample
    turned down, no larger in magnitude and never of the opposite sign. *)
Theorem mix_loop_samples_in_range config st chunk queued st' mixed :
  Forall int16 chunk ->
  (forall current, current_translation st = Some current -> Forall int16 current) ->
  (forall translation, queued = Some translation -> Forall int16 translation) ->
  0 <= original_volume config <= 1 ->
  0 <= translation_volume config <= 1 ->
  mix_loop_step rnd rnd_quot config st (Some chunk) queued = (st', Played mixed) ->
  if mixes_translation st queued chunk
  then Forall sample_ok mixed
  else Forall2 no_louder mixed chunk.
Proof.
  intros Hc Hst Hq Hv1 Hv2. unfold mixes_translation.
  destruct (mix_loop_step_cases rnd rnd_quot config st chunk queued)
    as [(m & E & -> & Hidle)
       |(current & tc & m & Ecur & Hpos & Hne & _ & Htc & Em & _ & E)];
    rewrite E; intros K; injection K as _ <-.
  - assert (Hno : match current_translation
                          match queued with
                          | Some translation => mkLoop (Some translation) 0
                          | None => st
                          end with
                  | Some current =>
                      (translation_position
                         match queued with
                         | Some translation => mkLoop (Some translation) 0
                         | None => st
                         end <? length current)%nat
                      && (0 <? length chunk)%nat
                  | None => false
                  end = false).
    { destruct Hidle as [-> | (current & -> & [Hl | ->])]; [reflexivity | |].
      - replace (_ <? length current)%nat with false
          by (symmetry; apply Nat.ltb_ge; exact Hl).
        reflexivity.
      - apply andb_false_r. }
    rewrite Hno. apply attenuate_no_louder; assumption.
  - rewrite Ecur.
    replace (_ <? length current)%nat with true
      by (symmetry; apply Nat.ltb_lt; exact Hpos).
    replace (0 <? length chunk)%nat with true
      by (symmetry; apply Nat.ltb_lt; apply nonempty_length; exact Hne).
    cbn [andb].
    assert (Hcur : Forall int16 current).
    { destruct queued as [translation|].
      - simpl in Ecur. injection Ecur as <-. apply Hq. reflexivity.
      - apply Hst. exact Ecur. }
    assert (Hint : Forall int16 tc).
    { apply Forall_forall. intros z Hz. destruct (Htc z Hz) as [Hz'| ->].
      - rewrite Forall_forall in Hcur. apply Hcur. exact Hz'.
      - unfold int16. lia. }
    exact (mix_sum_within rnd rnd_mono rnd_opp rnd_int rnd_half
             rnd_quot rnd_quot_nonneg rnd_quot_rel
             config chunk tc Hc Hint Hv1 Hv2 m Em).
Qed.

(** X19.  [play_translation_only] writes one sample per input sample, each
    of magnitude at most 32767, and for an empty translation writes nothing:
    the peak of an empty array raises inside the [try]. *)
Theorem play_translation_only_samples config translation :
  Forall int16 translation ->
  0 <= translation_volume config <= 1 ->
  match play_translation_only rnd rnd_quot config translation with
  | Played samples =>
      translation <> [] /\ length samples = length translation
      /\ Forall sample_ok samples
  | Logged => translation = []
  | NoChunk => False
  end.
Proof.
  intros Ht Hv. unfold play_translation_only.
  destruct translation as [|x translation].
  - reflexivity.
  - set (tr := x :: translation) in *.
    destruct (normalize_returns rnd rnd_quot
                (scaled rnd tr (translation_volume config))) as [out [E L]].
    { apply nonempty_length. rewrite scaled_length. simpl. lia. }
    rewrite E. split; [discriminate|]. split.
    + rewrite L. apply scaled_length.
    + eapply normalize_ok; [exact rnd_mono | exact rnd_opp | exact rnd_half
                            | exact rnd_quot_nonneg | exact rnd_quot_rel
                            | | exact E].
      apply (Forall_impl _ (P := within 32768)).
      * intros q. apply within_weaken. lra.
      * apply scaled_within; assumption.
Qed.

(** X20.  Volumes set through [set_volumes] are always fit for mixing:
    whatever values were asked for, the mix of [int16] inputs that follows
    stays within magnitude 32767. *)
Theorem mix_after_set_volumes config v1 v2 original translation out :
  Forall int16 original -> Forall int16 translation ->
  mix_audio_arrays rnd rnd_quot (set_volumes config (Some v1) (Some v2))
                   original translation = Returned out ->
  Forall sample_ok out.
Proof.
  intros Ho Ht.
  apply (mix_sum_within rnd rnd_mono rnd_opp rnd_int rnd_half
           rnd_quot rnd_quot_nonneg rnd_quot_rel); try assumption.
  - apply (clamp01_range v1).
  - apply (clamp01_range v2).
Qed.

End MoreFloatBounds.

Lemma mix_loop_samples_in_range_witness :
  (mix_loop_step exact exact (mkConfig 1 1 16000) (mkLoop None 0)
                 (Some [-30000; 15000]%Z) (Some [-30000]%Z)
   = (mkLoop None 2, Played [-32767; 8191]%Z)
   /\ Forall sample_ok [-32767; 8191]%Z)
  /\ (mix_loop_step exact exact (mkConfig (1 # 2) 1 16000) (mkLoop None 0)
                    (Some [-32768; 15001]%Z) None
      = (mkLoop None 0, Played [-16384; 7500]%Z)
      /\ Forall2 no_louder [-16384; 7500]%Z [-32768; 15001]%Z).
Proof.
  split.
  - split; [vm_compute; reflexivity|].
    refine (mix_loop_samples_in_range exact exact_mono exact_opp exact_int
              exact_half exact exact_nonneg exact_rel
              (mkConfig 1 1 16000) (mkLoop None 0)
              [-30000; 15000]%Z (Some [-30000]%Z)
              (mkLoop None 2) [-32767; 8191]%Z _ _ _ _ _ _).
    + repeat constructor; unfold int16; lia.
    + intros current K. discriminate K.
    + intros translation K. injection K as <-.
      repeat constructor; unfold int16; lia.
    + simpl. split; lra.
    + simpl. split; lra.
    + vm_compute. reflexivity.
  - split; [vm_compute; reflexivity|].
    refine (mix_loop_samples_in_range exact exact_mono exact_opp exact_int
              exact_half exact exact_nonneg exact_rel
              (mkConfig (1 # 2) 1 16000) (mkLoop None 0)
              [-32768; 15001]%Z None
              (mkLoop None 0) [-16384; 7500]%Z _ _ _ _ _ _).
    + repeat constructor; unfold int16; lia.
    + intros current K. discriminate K.
    + intros translation K. discriminate K.
    + simpl. split; lra.
    + simpl. split; lra.
    + vm_compute. reflexivity.
Defined.

Lemma play_translation_only_samples_witness :
  match play_translation_only exact exact default_config [100; -32768]%Z with
  | Played samples =>
      [100; -32768]%Z <> [] /\ length samples = 2 /\ Forall sample_ok samples
  | Logged => [100; -32768]%Z = []
  | NoChunk => False
  end.
Proof.
  apply (play_translation_only_samples exact exact_mono exact_opp exact_int
           exact_half exact exact_nonneg exact_rel default_config
           [100; -32768]%Z).
  - repeat constructor; unfold int16; lia.
  - simpl. split; lra.
Defined.

Lemma mix_after_set_volumes_witness :
  Forall sample_ok [32766; -32767; 0]%Z.
Proof.
  refine (mix_after_set_volumes exact exact_mono exact_opp exact_int
            exact_half exact exact_nonneg exact_rel
            default_config 5 (-3) [32767; -32768]%Z [32767; 100; 16384]%Z
            _ _ _ _).
  - repeat constructor; unfold int16; lia.
  - repeat constructor; unfold int16; lia.
  - vm_compute. reflexivity.
Defined.

(** ** Transcription windows and texts *)

(** X21.  Every window handed to the transcriber has exactly
    [required_samples] samples, taking it shortens the buffer by
    [required_samples - required_samples // 2], and whatever audio arrives
    next, the following window starts with the last [required_samples // 2]
    samples of this one: consecutive fragments overlap by half a window. *)
Theorem windows_overlap_by_half required_samples audio_buffer window rest :
  take_window required_samples audio_buffer = Some (window, rest) ->
  length window = required_samples
  /\ length rest
     = length audio_buffer - (required_samples - required_samples / 2)
  /\ forall chunk,
       firstn (required_samples / 2) (add_audio_chunk rest chunk)
       = skipn (required_samples - required_samples / 2) window.
Proof.
  unfold take_window, add_audio_chunk. cbv zeta.
  assert (Hov : required_samples / 2 <= required_samples)
    by (apply Nat.Div0.div_le_upper_bound; lia).
  remember (required_samples / 2) as ov eqn:Eov. clear Eov.
  destruct (required_samples <=? length audio_buffer) eqn:E; [|discriminate].
  apply Nat.leb_le in E. intros K. injection K as <- <-.
  split; [rewrite length_firstn; lia|].
  split; [apply length_skipn|].
  intros chunk. rewrite firstn_app, length_skipn.
  replace (ov - (length audio_buffer - (required_samples - ov))) with 0 by lia.
  rewrite firstn_0, app_nil_r, firstn_skipn_comm.
  replace (required_samples - ov + ov) with required_samples by lia.
  reflexivity.
Qed.

Lemma windows_overlap_by_half_witness :
  firstn 2 (add_audio_chunk [3; 4; 5; 6]%Z [7; 8]%Z) = skipn 2 [1; 2; 3; 4]%Z.
Proof.
  refine (proj2 (proj2 (windows_overlap_by_half 4 [1; 2; 3; 4; 5; 6]%Z
                          [1; 2; 3; 4]%Z [3; 4; 5; 6]%Z _)) [7; 8]%Z).
  reflexivity.
Defined.

Lemma split_join_concat parts :
  split (join space parts) = concat (map split parts).
Proof.
  induction parts as [|p parts IH]; [reflexivity|].
  destruct parts as [|p2 parts].
  - simpl. rewrite app_nil_r. reflexivity.
  - change (join space (p :: p2 :: parts))
      with (p ++ " "%char :: join space (p2 :: parts)).
    rewrite split_app_space by reflexivity. rewrite IH. reflexivity.
Qed.

Lemma concat_nil_Forall {A} (ls : list (list A)) :
  concat ls = [] -> Forall (fun l => l = []) ls.
Proof.
  induction ls as [|l ls IH]; intros H; [constructor|].
  simpl in H. apply app_eq_nil in H. destruct H as [H1 H2].
  constructor; [exact H1 | apply IH; exact H2].
Qed.

(** X22.  What the transcriber passes to the callback: a text with no
    surrounding whitespace, not empty, whose words are the words of the
    segments in order; and nothing at all ([None]) exactly when every
    segment is blank. *)
Theorem combine_segments_text segment_texts :
  match combine_segments segment_texts with
  | Some text =>
      strip text = text /\ text <> []
      /\ split text = concat (map split segment_texts)
  | None => Forall (fun s => strip s = []) segment_texts
  end.
Proof.
  unfold combine_segments.
  assert (Hw : split (strip (join space (map strip segment_texts)))
               = concat (map split segment_texts)).
  { rewrite split_strip, split_join_concat, map_map. f_equal.
    apply map_ext. apply split_strip. }
  destruct (isnil _) eqn:E.
  - apply isnil_true in E. rewrite E in Hw. simpl in Hw. symmetry in Hw.
    apply concat_nil_Forall in Hw. rewrite Forall_map in Hw.
    apply (Forall_impl _ (P := fun s => split s = [])); [|exact Hw].
    intros s. apply strip_nil_iff.
  - apply isnil_false in E. split; [apply strip_idem|]. split; [exact E | exact Hw].
Qed.

(** ** Speech deduplication *)

Lemma set_inter_self a : set_inter a a = a.
Proof.
  unfold set_inter.
  assert (H : forall l, (forall x, In x l -> In x a) -> filter (fun w => mem w a) l = l).
  { induction l as [|x l IH]; intros Hl; [reflexivity|]. simpl.
    assert (Hx : mem x a = true) by (apply mem_In, Hl; left; reflexivity).
    rewrite Hx. f_equal. apply IH. intros y Hy. apply Hl. right. exact Hy. }
  apply H. tauto.
Qed.

Lemma set_union_self_length a : NoDup a -> length (set_union a a) = length a.
Proof.
  intros Ha. apply NoDup_same_length; [apply NoDup_nodup | exact Ha|].
  intros x. rewrite set_union_In. tauto.
Qed.

Lemma ratio_self n : 0 < n -> (1 <= Z.of_nat n # Pos.of_nat n)%Q.
Proof.
  intros Hn. unfold Qle. simpl.
  destruct n as [|n]; [lia|].
  rewrite <- Pos.of_nat_succ, Zpos_P_of_succ_nat. lia.
Qed.

Lemma is_similar_self text threshold :
  strip text <> [] -> (threshold <= 1)%Q -> _is_similar text text threshold = true.
Proof.
  intros Hne Ht. unfold _is_similar.
  assert (Htext : text <> []) by (intros ->; apply Hne; reflexivity).
  apply isnil_false in Htext. rewrite Htext. simpl orb.
  set (ws := word_set (split (lower text))).
  assert (Hws : ws <> []).
  { unfold ws, word_set. intros K.
    assert (Hs : split (lower text) <> []).
    { apply strip_nonempty_iff. rewrite strip_lower.
      destruct (strip text); [contradiction | discriminate]. }
    destruct (split (lower text)) as [|w l] eqn:Es; [contradiction|].
    assert (Hin : In w (nodup str_dec (w :: l))) by (apply nodup_In; left; reflexivity).
    rewrite K in Hin. contradiction. }
  apply isnil_false in Hws. rewrite Hws. simpl orb.
  rewrite set_inter_self, set_union_self_length by apply NoDup_nodup.
  apply isnil_false in Hws.
  assert (Hn : 0 < length ws) by (apply nonempty_length; exact Hws).
  apply Nat.ltb_lt in Hn. rewrite Hn. apply Nat.ltb_lt in Hn.
  apply Qle_bool_iff.
  apply (Qle_trans _ 1); [exact Ht | apply ratio_self; exact Hn].
Qed.

Lemma remembered_last (recent : list str) text :
  In text (if _max_recent <? length (recent ++ [text])
           then tl (recent ++ [text]) else recent ++ [text]).
Proof.
  destruct (_max_recent <? length (recent ++ [text])) eqn:E.
  - destruct recent as [|r recent]; [discriminate E|].
    simpl. apply in_or_app. right. left. reflexivity.
  - apply in_or_app. right. left. reflexivity.
Qed.

(** X23.  Saying the same text twice never queues it the second time,
    whatever the queue held on either call: either the first call already
    turned it down, or it remembered the text, the busy case included. *)
Theorem speak_text_repeat_silent st queue_size queue_size' text :
  speak_text (fst (speak_text st queue_size text)) queue_size' text
  = (fst (speak_text st queue_size text), None).
Proof.
  unfold speak_text at 2 3.
  destruct (isnil text || isnil (strip text)) eqn:E1.
  { simpl. unfold speak_text. rewrite E1. reflexivity. }
  destruct (length (strip text) <? 15) eqn:E2.
  { simpl. unfold speak_text. rewrite E1, E2. reflexivity. }
  destruct (existsb (str_eqb (lower (strip text))) (map lower (_recent_texts st))) eqn:E3.
  { simpl. unfold speak_text. rewrite E1, E2, E3. reflexivity. }
  destruct (existsb (fun recent => _is_similar text recent (85 # 100))
                    (_recent_texts st)) eqn:E4.
  { simpl. unfold speak_text. rewrite E1, E2, E3, E4. reflexivity. }
  set (recent := if _max_recent <? length (_recent_texts st ++ [text])
                 then tl (_recent_texts st ++ [text])
                 else _recent_texts st ++ [text]).
  assert (Hfst : fst (if queue_size <? 1
                      then (mkTTS recent text, Some text)
                      else (mkTTS recent text, None)) = mkTTS recent text).
  { destruct (queue_size <? 1); reflexivity. }
  rewrite Hfst. unfold speak_text. rewrite E1, E2. cbn [_recent_texts].
  destruct (existsb (str_eqb (lower (strip text))) (map lower recent));
    [reflexivity|].
  assert (Hsim : existsb (fun r => _is_similar text r (85 # 100)) recent = true).
  { apply existsb_exists. exists text. split; [apply remembered_last|].
    apply is_similar_self.
    - apply orb_false_iff in E1. destruct E1 as [_ E1]. apply isnil_false. exact E1.
    - unfold Qle. simpl. lia. }
  rewrite Hsim. reflexivity.
Qed.

(** X24.  [speak_text] keeps at most five recent texts, and it queues a
    text only when the queue is empty, the text has at least 15 characters
    besides surrounding whitespace, and no recent text equals it up to
    letter case; the queued text is the argument itself. *)
Theorem speak_text_gate st queue_size text :
  (length (_recent_texts st) <= 5 ->
   length (_recent_texts (fst (speak_text st queue_size text))) <= 5)
  /\ (forall queued,
        snd (speak_text st queue_size text) = Some queued ->
        queued = text /\ queue_size = 0 /\ 15 <= length (strip text)
        /\ ~ In (lower (strip text)) (map lower (_recent_texts st))
        /\ _last_text (fst (speak_text st queue_size text)) = text).
Proof.
  unfold speak_text.
  destruct (isnil text || isnil (strip text)); [split; [tauto | discriminate]|].
  destruct (length (strip text) <? 15) eqn:E2; [split; [tauto | discriminate]|].
  destruct (existsb (str_eqb (lower (strip text))) (map lower (_recent_texts st))) eqn:E3;
    [split; [tauto | discriminate]|].
  destruct (existsb _ (_recent_texts st)); [split; [tauto | discriminate]|].
  split.
  - intros Hl.
    assert (Hr : length (if _max_recent <? length (_recent_texts st ++ [text])
                         then tl (_recent_texts st ++ [text])
                         else _recent_texts st ++ [text]) <= 5).
    { destruct (_max_recent <? length (_recent_texts st ++ [text])) eqn:E.
      - destruct (_recent_texts st) as [|r l]; [discriminate E|].
        simpl in *. rewrite length_app in *. simpl in *. lia.
      - apply Nat.ltb_ge in E. exact E. }
    destruct (queue_size <? 1); exact Hr.
  - intros queued. destruct (queue_size <? 1) eqn:Eq; [|discriminate].
    intros K. injection K as <-. apply Nat.ltb_lt in Eq. apply Nat.ltb_ge in E2.
    split; [reflexivity|]. split; [lia|]. split; [exact E2|]. split; [|reflexivity].
    intros Hin. assert (K : existsb (str_eqb (lower (strip text)))
                              (map lower (_recent_texts st)) = true).
    { apply existsb_exists. exists (lower (strip text)).
      split; [exact Hin | apply str_eqb_refl]. }
    congruence.
Qed.

Lemma speak_text_gate_witness :
  length (_recent_texts
            (fst (speak_text (mkTTS [] [])
                             0 (py "this is a sufficiently long text")))) <= 5.
Proof.
  apply (proj1 (speak_text_gate (mkTTS [] []) 0
                                (py "this is a sufficiently long text"))).
  simpl. lia.
Defined.

(** ** Fades *)

Lemma mul_from_length rnd rnd64 dst k curve :
  length (mul_from rnd rnd64 dst k curve) = length dst.
Proof.
  revert k curve. induction dst as [|x dst IH]; intros k curve.
  - destruct k; reflexivity.
  - destruct k as [|k].
    + destruct curve as [|c curve]; [reflexivity|]. simpl. rewrite (IH O). reflexivity.
    + simpl. rewrite IH. reflexivity.
Qed.

Lemma mul_from_split rnd rnd64 dst k curve :
  k <= length dst ->
  mul_from rnd rnd64 dst k curve
  = firstn k dst ++ mul_from rnd rnd64 (skipn k dst) 0 curve.
Proof.
  revert k. induction dst as [|x dst IH]; intros [|k] H; simpl in H;
    try reflexivity.
  simpl. rewrite IH by lia. reflexivity.
Qed.

Lemma mul_from_last rnd rnd64 b x curve c :
  length b = length curve ->
  mul_from rnd rnd64 (b ++ [x]) 0 (curve ++ [c])
  = mul_from rnd rnd64 b 0 curve ++ [rnd (rnd64 (x * c)%Q)].
Proof.
  revert curve. induction b as [|y b IH]; intros [|d curve] H; simpl in H;
    try discriminate; [reflexivity|].
  simpl. rewrite IH by lia. reflexivity.
Qed.

Lemma linspace_length rnd64 start stop num :
  length (linspace rnd64 start stop num) = num.
Proof. unfold linspace. rewrite length_map, length_seq. reflexivity. Qed.

Lemma linspace_last rnd64 start stop num :
  2 <= num ->
  exists front, linspace rnd64 start stop num = front ++ [stop].
Proof.
  intros H. unfold linspace.
  match goal with |- context [map ?g _] => set (f := g) end.
  destruct num as [|n]; [lia|]. rewrite seq_S, map_app.
  exists (map f (seq 0 n)). f_equal. cbn [map]. f_equal.
  unfold f.
  assert (E1 : (1 <? S n) = true) by (apply Nat.ltb_lt; lia).
  assert (E2 : (0 + n =? S n - 1) = true) by (apply Nat.eqb_eq; lia).
  rewrite E1, E2. reflexivity.
Qed.

Lemma Qtrunc_of_int q (n : Z) : (q == inject_Z n)%Q -> Qtrunc q = n.
Proof.
  destruct q as [a d]. unfold Qeq, Qtrunc, inject_Z. simpl. intros H.
  rewrite Z.mul_1_r in H. subst a. apply Z.quot_mul. lia.
Qed.

Lemma to_int16_of_int q n : (q == inject_Z n)%Q -> int16 n -> to_int16 q = n.
Proof.
  intros Hq Hn. unfold to_int16. rewrite (Qtrunc_of_int q n Hq).
  apply wrap16_id. exact Hn.
Qed.

Section FadeBounds.

Local Open Scope Q_scope.

(** Of the roundings only this is used: both are monotone, [float32]
    leaves small integers alone and [float64] leaves zero alone. *)
Variable rnd : Q -> Q.
Variable rnd64 : Q -> Q.
Hypothesis rnd_mono : forall x y, x <= y -> rnd x <= rnd y.
Hypothesis rnd_int :
  forall n : Z, (Z.abs n <= 16777216)%Z -> rnd (inject_Z n) == inject_Z n.
Hypothesis rnd64_mono : forall x y, x <= y -> rnd64 x <= rnd64 y.
Hypothesis rnd64_zero : rnd64 0 == 0.

Lemma rnd_proper x y : x == y -> rnd x == rnd y.
Proof.
  intros H. apply Qle_antisym; apply rnd_mono; rewrite H; apply Qle_refl.
Qed.

Lemma rnd64_proper x y : x == y -> rnd64 x == rnd64 y.
Proof.
  intros H. apply Qle_antisym; apply rnd64_mono; rewrite H; apply Qle_refl.
Qed.

Lemma faded_to_zero x c : c == 0 -> to_int16 (rnd (rnd64 (x * c))) = 0%Z.
Proof.
  intros Hc. apply to_int16_of_int; [|unfold int16; lia].
  rewrite (rnd_proper (rnd64 (x * c)) (inject_Z 0)); [apply rnd_int; simpl; lia|].
  rewrite (rnd64_proper (x * c) 0); [exact rnd64_zero|].
  rewrite Hc. ring.
Qed.

Lemma linspace_first_zero num :
  (1 <= num)%nat ->
  exists c rest, linspace rnd64 0 1 num = c :: rest /\ c == 0.
Proof.
  intros H. unfold linspace. destruct num as [|n]; [lia|].
  cbn [seq map]. eexists. eexists. split; [reflexivity|].
  replace (0 =? S n - 1)%nat with (n =? 0)%nat
    by (destruct n; reflexivity).
  assert (Z0 : forall m, rnd64 (rnd64 (inject_Z (Z.of_nat 0) * m) + 0) == 0).
  { intros m. rewrite (rnd64_proper _ 0); [exact rnd64_zero|].
    rewrite (rnd64_proper _ 0); [rewrite rnd64_zero; ring|].
    change (inject_Z (Z.of_nat 0)) with 0. ring. }
  destruct (1 <? S n)%nat eqn:E1.
  - destruct n as [|n]; [discriminate E1|]. cbn [Nat.eqb andb].
    destruct (Qeq_bool _ 0).
    + rewrite (rnd64_proper _ 0); [exact rnd64_zero|].
      rewrite (rnd64_proper (rnd64 _ * _) 0); [rewrite rnd64_zero; ring|].
      rewrite (rnd64_proper (_ / _) 0); [rewrite rnd64_zero; ring|].
      change (inject_Z (Z.of_nat 0)) with 0. unfold Qdiv. ring.
    + apply Z0.
  - cbn [andb]. apply Z0.
Qed.

(** X25.  [create_fade_effect] keeps the number of samples.  A fade is
    applied only to audio strictly longer than it: audio no longer than the
    fades comes back unchanged.  Where the fade-in is applied the first
    sample is silent, and where a fade-out of two or more samples is applied
    so is the last. *)
Theorem create_fade_effect_shape audio (fade_in_samples fade_out_samples : Z) :
  Forall int16 audio ->
  let len := Z.of_nat (length audio) in
  let out := create_fade_effect rnd rnd64 audio fade_in_samples fade_out_samples in
  length out = length audio
  /\ (((fade_in_samples <= 0)%Z \/ (len <= fade_in_samples)%Z) ->
      ((fade_out_samples <= 0)%Z \/ (len <= fade_out_samples)%Z) ->
      out = audio)
  /\ ((0 < fade_in_samples < len)%Z -> exists rest, out = 0%Z :: rest)
  /\ ((2 <= fade_out_samples < len)%Z -> exists front, out = front ++ [0%Z]).
Proof.
  intros Hint len out. unfold out, create_fade_effect.
  rewrite (length_map (fun n => rnd (inject_Z n)) audio). fold len.
  set (af := map (fun n => rnd (inject_Z n)) audio).
  assert (Laf : length af = length audio) by apply length_map.
  set (l1 := if (0 <? fade_in_samples)%Z && (fade_in_samples <? len)%Z
             then mul_from rnd rnd64 af 0 (linspace rnd64 0 1 (Z.to_nat fade_in_samples))
             else af).
  assert (L1 : length l1 = length audio).
  { unfold l1. destruct (_ && _); [rewrite mul_from_length|]; exact Laf. }
  set (l2 := if (0 <? fade_out_samples)%Z && (fade_out_samples <? len)%Z
             then mul_from rnd rnd64 l1 (Z.to_nat (len - fade_out_samples))
                    (linspace rnd64 1 0 (Z.to_nat fade_out_samples))
             else l1).
  split; [|split; [|split]].
  - rewrite length_map. unfold l2.
    destruct ((0 <? fade_out_samples)%Z && (fade_out_samples <? len)%Z);
      [rewrite mul_from_length|]; exact L1.
  - intros Hi Ho.
    assert (E1 : (0 <? fade_in_samples)%Z && (fade_in_samples <? len)%Z = false).
    { apply andb_false_iff. destruct Hi as [Hi|Hi];
        [left; apply Z.ltb_ge | right; apply Z.ltb_ge]; exact Hi. }
    assert (E2 : (0 <? fade_out_samples)%Z && (fade_out_samples <? len)%Z = false).
    { apply andb_false_iff. destruct Ho as [Ho|Ho];
        [left; apply Z.ltb_ge | right; apply Z.ltb_ge]; exact Ho. }
    unfold l2, l1. rewrite E1, E2. unfold af. rewrite map_map.
    clear -Hint rnd_int. induction Hint as [|n audio Hn _ IH]; [reflexivity|].
    simpl. f_equal; [|exact IH].
    apply to_int16_of_int; [|exact Hn]. apply rnd_int.
    unfold int16 in Hn. lia.
  - intros [Hi1 Hi2].
    assert (E1 : (0 <? fade_in_samples)%Z && (fade_in_samples <? len)%Z = true).
    { apply andb_true_iff. split; apply Z.ltb_lt; assumption. }
    destruct (linspace_first_zero (Z.to_nat fade_in_samples)) as (c & cr & Ec & Hc);
      [lia|].
    destruct af as [|x af'] eqn:Eaf; [simpl in Laf; unfold len in *; lia|].
    assert (El1 : l1 = rnd (rnd64 (x * c))
                       :: mul_from rnd rnd64 af' 0 cr).
    { unfold l1. rewrite E1, Ec. reflexivity. }
    assert (El2 : exists r, l2 = rnd (rnd64 (x * c)) :: r).
    { unfold l2.
      destruct ((0 <? fade_out_samples)%Z && (fade_out_samples <? len)%Z) eqn:E2.
      - apply andb_true_iff in E2. destruct E2 as [_ E2]. apply Z.ltb_lt in E2.
        destruct (Z.to_nat (len - fade_out_samples)) as [|k] eqn:Ek; [lia|].
        rewrite El1. simpl. eexists. reflexivity.
      - rewrite El1. eexists. reflexivity. }
    destruct El2 as [r ->]. simpl. rewrite (faded_to_zero x c Hc).
    eexists. reflexivity.
  - intros [Ho1 Ho2].
    assert (E2 : (0 <? fade_out_samples)%Z && (fade_out_samples <? len)%Z = true).
    { apply andb_true_iff. split; apply Z.ltb_lt; lia. }
    destruct (linspace_last rnd64 1 0 (Z.to_nat fade_out_samples)) as [front Ef];
      [lia|].
    assert (Lf : (length front + 1)%nat = Z.to_nat fade_out_samples).
    { rewrite <- (linspace_length rnd64 1 0 (Z.to_nat fade_out_samples)), Ef,
        length_app. reflexivity. }
    set (k := Z.to_nat (len - fade_out_samples)).
    assert (Hk : (k + Z.to_nat fade_out_samples)%nat = length l1)
      by (unfold k, len in *; lia).
    assert (Lb : length (skipn k l1) = Z.to_nat fade_out_samples)
      by (rewrite length_skipn; lia).
    destruct (exists_last (l := skipn k l1)) as [b [x Eb]].
    { intros K. rewrite K in Lb. simpl in Lb. lia. }
    assert (Lbb : length b = length front).
    { rewrite Eb, length_app in Lb. simpl in Lb. lia. }
    assert (El2 : l2 = firstn k l1
                       ++ mul_from rnd rnd64 b 0 front ++ [rnd (rnd64 (x * 0))]).
    { unfold l2. rewrite E2. fold k.
      rewrite mul_from_split by lia.
      rewrite Eb, Ef, mul_from_last by exact Lbb.
      reflexivity. }
    rewrite El2, !map_app. simpl map.
    rewrite (faded_to_zero x 0) by reflexivity.
    rewrite app_assoc. eexists. reflexivity.
Qed.

End FadeBounds.

Lemma create_fade_effect_shape_witness :
  create_fade_effect exact exact [1000; 1000; 1000]%Z 5 3 = [1000; 1000; 1000]%Z
  /\ exists rest,
       create_fade_effect exact exact [1000; 1000; 1000; 1000]%Z 3 2 = 0%Z :: rest.
Proof.
  split.
  - refine (proj1 (proj2 (create_fade_effect_shape exact exact exact_mono exact_int
                            exact_mono exact_half_zero
                            [1000; 1000; 1000]%Z 5 3 _)) _ _).
    + repeat constructor; unfold int16; lia.
    + right. simpl. lia.
    + right. simpl. lia.
  - refine (proj1 (proj2 (proj2 (create_fade_effect_shape exact exact exact_mono
                                   exact_int exact_mono exact_half_zero
                                   [1000; 1000; 1000; 1000]%Z 3 2 _))) _).
    + repeat constructor; unfold int16; lia.
    + simpl. lia.
Defined.
